(** * SuperTaskPilot: the task execution engine of superpilot

    A shallow embedding of [superpilot/core/pilot/task/super.py] and the
    properties of its execution loop.  The pilot object, the store of
    context objects it shares with its tasks and a log of the calls it
    makes to its collaborators are threaded through a state-and-exception
    monad; the [while] loop of [execute] is run on fuel, one unit per
    cycle. *)

From stdpp Require Import base option list gmap strings.
From Stdlib Require Import ZArith QArith.

Open Scope string_scope.
Open Scope Z_scope.
Open Scope list_scope.

(** ** Data model *)

(** Modelled from the spec: [TaskStatus] (superpilot.core.planning.schema is
    not among the sources); the spec lists the four states of a task. *)
Inductive TaskStatus := PENDING | IN_PROGRESS | DONE | FAILED.

(** Modelled from the spec: [ExecutionNature], the four execution modes. *)
Inductive ExecutionNature := SEQUENTIAL | PARALLEL | AUTO | SIMPLE.

Inductive LanguageModelClassification := FAST_MODEL | SMART_MODEL.

#[global] Instance TaskStatus_eq_dec : EqDecision TaskStatus.
Proof. solve_decision. Defined.
#[global] Instance ExecutionNature_eq_dec : EqDecision ExecutionNature.
Proof. solve_decision. Defined.
#[global] Instance LanguageModelClassification_eq_dec :
  EqDecision LanguageModelClassification.
Proof. solve_decision. Defined.

(** The exceptions that can leave the engine.  [TypeError], [KeyError] and
    [AttributeError] are raised by Python itself (a keyword argument bound
    twice, a missing dictionary key, an attribute of [None]); the others are
    the spec's error taxonomy, raised by the collaborators. *)
Inductive Exn :=
| TypeError (param : string)
| KeyError (key : string)
| AttributeError (attr : string)
| ConfigurationError
| UnknownAbilityError (name : string)
| AbilityExecutionError (name fault : string)
| ResponseParseError
| ProviderError.

#[global] Instance Exn_eq_dec : EqDecision Exn.
Proof. solve_decision. Defined.

(** Context objects live in a store and are referred to by location, so
    that two references to one object see each other's updates. *)
Abbreviation loc := nat.

(** [ability.dump()]: the description of one ability offered to the model. *)
Record AbilitySchema := {
  schema_name : string;
  schema_description : string;
  schema_parameters : list (string * string);
}.

(** Modelled from the spec: [Task], an objective and the context it owns
    (the class is imported from superpilot.core.planning.schema). *)
Record Task := {
  objective : string;
  context : loc;
}.

(** Python values that travel through [**kwargs] and [*args]. *)
Inductive Value :=
| VNone
| VStr (s : string)
| VNum (z : Z)
| VStatus (s : TaskStatus)
| VTask (t : Task)
| VContext (l : loc)
| VSchema (schema : list AbilitySchema).

Abbreviation Kwargs := (gmap string Value).

(** Modelled from the spec: [AbilityAction], the record of one invocation. *)
Record AbilityAction := {
  ability_name : string;
  arguments : Kwargs;
  result : string;
  get_memories : list string;
}.

(** Modelled from the spec: the execution context carried by a task. *)
Record Context := {
  cycle_count : Z;
  prior_actions : list AbilityAction;
  memories : list string;
  status : TaskStatus;
  enough_info : bool;
}.

(** [Context()]: a context as its constructor leaves it. *)
Definition new_Context : Context :=
  {| cycle_count := 0; prior_actions := []; memories := [];
     status := PENDING; enough_info := false |}.

(** Modelled from the spec: an ability, "a named, independently invocable
    capability with a declared argument schema and an async body".  The body
    answers with a fault or with a result and the knowledge extracted from
    it; its first argument is the moment of the call, so that two calls with
    the same arguments may differ. *)
Record Ability := {
  name : string;
  description : string;
  parameters : list (string * string);
  body : nat -> Kwargs -> string + (string * list string);
}.

Abbreviation AbilityRegistry := (list Ability).

Record LanguageModelConfiguration := {
  model_name : string;
  provider_name : string;
  temperature : Q;
}.

(** [model_configuration] once [provider_name] has been deleted from it. *)
Record ModelParameters := {
  param_model_name : string;
  param_temperature : Q;
}.

Record LanguageModelPrompt := {
  messages : list string;
  functions : list AbilitySchema;
}.

(** The parsed content of a model reply: a dictionary of which the engine
    reads the keys [next_ability] and [ability_arguments]. *)
Record LanguageModelResponse := {
  next_ability : option string;
  ability_arguments : option Kwargs;
}.

(** A prompt strategy: [build_prompt] reads its keyword arguments, among
    them the task, whose context it reaches through the store. *)
Record PromptStrategy := {
  model_classification : LanguageModelClassification;
  build_prompt : list Context -> Kwargs -> Exn + LanguageModelPrompt;
}.

(** A model provider.  Both answers depend on the moment of the call; the
    completion parser of the strategy is applied inside the provider, so a
    reply that does not parse is one of its errors. *)
Record LanguageModelProvider := {
  get_remaining_budget : nat -> Value;
  create_language_completion :
    nat -> LanguageModelPrompt -> ModelParameters -> Exn + LanguageModelResponse;
}.

Record PilotConfiguration := {
  pilot_name : string;
  role : string;
  goals : list string;
  max_task_cycle_count : Z;
}.

(** [PluginLocation], which the engine hands over and never reads. *)
Record PluginLocation := {
  storage_format : string;
  storage_route : string;
}.

#[global] Instance PluginLocation_eq_dec : EqDecision PluginLocation.
Proof. solve_decision. Defined.

(** [PromptStrategyConfiguration] as the engine reads it, through [dict()]:
    the entry under ["location"], [None] when there is none, and the other
    entries, which become the keyword arguments of the strategy class. *)
Record PromptStrategyConfiguration := {
  strategy_location : option PluginLocation;
  prompt_config : Kwargs;
}.

Record TaskPilotConfiguration := {
  pilot : PilotConfiguration;
  execution_nature : ExecutionNature;
  prompt_strategy : PromptStrategyConfiguration;
  models : list (LanguageModelClassification * LanguageModelConfiguration);
}.

(** The attributes of a [SuperTaskPilot] instance.  [_logger],
    [_current_observation] and [_next_step] are left out: the engine writes
    to the first and only ever assigns [None] to the other two.  The current
    context is whatever value the caller passed as [context]. *)
Record SuperTaskPilot := {
  _configuration : TaskPilotConfiguration;
  _execution_nature : ExecutionNature;
  _ability_registry : AbilityRegistry;
  _providers : list (LanguageModelClassification * LanguageModelProvider);
  _prompt_strategy : PromptStrategy;
  _task_queue : list Task;
  _completed_tasks : list Task;
  _current_task : option Task;
  _current_context : Value;
}.

(** What the engine does to its collaborators, in the order it does it. *)
Inductive Event :=
| EvCompletion (template_kwargs : Kwargs) (prompt : LanguageModelPrompt)
    (reply : Exn + LanguageModelResponse)
| EvInvoke (name : string) (args : Kwargs)
| EvAction (action : AbilityAction).

(** The host: operating system descriptor, wall clock, the classes that
    the engine instantiates, [load_class] and [strategies.NextAbility], which
    are not among the sources and may fail, and the event loop: the order in
    which it resumes the coroutines of an [asyncio.gather] begun at a given
    moment, each named by its position among them. *)
Record Host := {
  get_os_info : string;
  strftime : nat -> string;
  load_class : PluginLocation -> Kwargs -> Exn + PromptStrategy;
  new_NextAbility : Kwargs -> Exn + PromptStrategy;
  resumptions : nat -> list nat;
}.

(** The whole state: the pilot, the store of contexts and the log. *)
Record World := {
  self : SuperTaskPilot;
  heap : list Context;
  log : list Event;
}.

(** ** State and exceptions *)

Inductive Result (A : Type) :=
| Ok (a : A)
| Raise (e : Exn).
Arguments Ok {A} a.
Arguments Raise {A} e.

Definition M (A : Type) : Type := World -> Result A * World.

Definition ret {A} (a : A) : M A := fun w => (Ok a, w).
Definition raise {A} (e : Exn) : M A := fun w => (Raise e, w).
Definition bind {A B} (k : A -> M B) (m : M A) : M B :=
  fun w => match m w with
           | (Ok a, w') => k a w'
           | (Raise e, w') => (Raise e, w')
           end.
Definition gets {A} (f : World -> A) : M A := fun w => (Ok (f w), w).
Definition modify (f : World -> World) : M unit := fun w => (Ok tt, f w).

#[global] Instance M_ret : MRet M := @ret.
#[global] Instance M_bind : MBind M := @bind.

(** The outcome of a call to a collaborator that answers or fails. *)
Definition of_reply {A} (r : Exn + A) : Result A :=
  match r with inl e => Raise e | inr a => Ok a end.
Definition lift {A} (r : Exn + A) : M A := fun w => (of_reply r, w).

Definition set_self (f : SuperTaskPilot -> SuperTaskPilot) (w : World) : World :=
  {| self := f (self w); heap := heap w; log := log w |}.
Definition set_heap (f : list Context -> list Context) (w : World) : World :=
  {| self := self w; heap := f (heap w); log := log w |}.
Definition logged (ev : Event) (w : World) : World :=
  {| self := self w; heap := heap w; log := log w ++ [ev] |}.
Definition emit (ev : Event) : M unit := modify (logged ev).

(** The moment of a call: the number of events logged so far. *)
Definition now : M nat := gets (fun w => length (log w)).


(** ** Python's dictionaries, call protocol and comparison *)

(** [d[k]] on a dictionary held as an association list. *)
Fixpoint dict_get {K V} `{EqDecision K} (k : K) (d : list (K * V)) : option V :=
  match d with
  | [] => None
  | (k', v) :: d' => if decide (k' = k) then Some v else dict_get k d'
  end.

Definition repr (c : LanguageModelClassification) : string :=
  match c with FAST_MODEL => "FAST_MODEL" | SMART_MODEL => "SMART_MODEL" end.

(** A call [f(x, ..., **kwargs)] raises [TypeError] when [kwargs] names a
    parameter that the call has already bound. *)
Fixpoint first_clash (params : list string) (kwargs : Kwargs) : option string :=
  match params with
  | [] => None
  | p :: ps => if kwargs !! p is Some _ then Some p else first_clash ps kwargs
  end.

Definition bind_arguments (params : list string) (kwargs : Kwargs) : M unit :=
  match first_clash params kwargs with
  | Some p => raise (TypeError p)
  | None => mret tt
  end.

(** [v != TaskStatus.s]: only a member of the enumeration can be equal to
    one of its members; every other object, a [Task] included, differs. *)
Definition py_ne_status (v : Value) (s : TaskStatus) : bool :=
  match v with
  | VStatus s' => negb (bool_decide (s' = s))
  | _ => true
  end.

(** The Python value of [self._current_task]. *)
Definition current_task_value (w : World) : Value :=
  match _current_task (self w) with
  | Some t => VTask t
  | None => VNone
  end.

(** ** Collaborators *)

(** Modelled from the spec: [Task.factory], which creates a task from an
    objective string; the task owns a context of its own. *)
Definition Task_factory (objective : string) : M Task :=
  fun w => (Ok {| objective := objective; context := length (heap w) |},
            set_heap (fun h => h ++ [new_Context]) w).

Definition dump (a : Ability) : AbilitySchema :=
  {| schema_name := name a; schema_description := description a;
     schema_parameters := parameters a |}.

(** Modelled from the spec: the ability registry (superpilot.core.ability is
    not among the sources).  [abilities] yields the abilities in
    registration order, [dump_abilities] their descriptions. *)
Definition abilities (r : AbilityRegistry) : list Ability := r.
Definition dump_abilities (r : AbilityRegistry) : list AbilitySchema :=
  dump <$> r.

Definition get_ability (r : AbilityRegistry) (ability_name : string) : option Ability :=
  List.find (fun a => bool_decide (name a = ability_name)) r.

(** Modelled from the spec: [AbilityRegistry.perform] "looks up the ability
    by name; fails with UnknownAbilityError if absent; invokes the ability
    with arguments; wraps the raw result into an Ability Action; fails with
    AbilityExecutionError (carrying the ability name and the underlying
    fault) if the ability raises during execution". *)
Definition perform (ability_name : string) (kwargs : Kwargs) : M AbilityAction :=
  registry ← gets (fun w => _ability_registry (self w));
  match get_ability registry ability_name with
  | None => raise (UnknownAbilityError ability_name)
  | Some a =>
      _ ← emit (EvInvoke ability_name kwargs);
      t ← now;
      match body a t kwargs with
      | inl fault => raise (AbilityExecutionError ability_name fault)
      | inr (res, mems) =>
          let action := {| ability_name := ability_name; arguments := kwargs;
                           result := res; get_memories := mems |} in
          _ ← emit (EvAction action);
          mret action
      end
  end.

(** [perform] up to the await of the body of the ability, whose outcome is
    handed over, and [perform] from there on. *)
Definition perform_call (ability_name : string) (kwargs : Kwargs)
    : M (string + (string * list string)) :=
  registry ← gets (fun w => _ability_registry (self w));
  match get_ability registry ability_name with
  | None => raise (UnknownAbilityError ability_name)
  | Some a =>
      _ ← emit (EvInvoke ability_name kwargs);
      t ← now;
      mret (body a t kwargs)
  end.

Definition perform_result (ability_name : string) (kwargs : Kwargs)
    (outcome : string + (string * list string)) : M AbilityAction :=
  match outcome with
  | inl fault => raise (AbilityExecutionError ability_name fault)
  | inr (res, mems) =>
      let action := {| ability_name := ability_name; arguments := kwargs;
                       result := res; get_memories := mems |} in
      _ ← emit (EvAction action);
      mret action
  end.

(** ** The engine *)

Section Engine.

Context (host : Host).

(** [SuperTaskPilot.__init__]: resolves the provider of every configured
    model ([model_providers[model_config.provider_name]], a [KeyError] when
    the provider is missing), builds the prompt strategy from its
    configuration, with the class at its [location] when it has one and with
    [strategies.NextAbility] otherwise, and starts with empty queues, no
    current task and a context of its own.  The registry is stored as it is
    given. *)
Fixpoint resolve_providers (model_providers : gmap string LanguageModelProvider)
    (items : list (LanguageModelClassification * LanguageModelConfiguration))
    : Exn + list (LanguageModelClassification * LanguageModelProvider) :=
  match items with
  | [] => inr []
  | (model, model_config) :: rest =>
      match model_providers !! provider_name model_config with
      | None => inl (KeyError (provider_name model_config))
      | Some p =>
          match resolve_providers model_providers rest with
          | inl e => inl e
          | inr ps => inr ((model, p) :: ps)
          end
      end
  end.

Definition __init__ (ability_registry : AbilityRegistry)
    (model_providers : gmap string LanguageModelProvider)
    (configuration : TaskPilotConfiguration)
    (store : list Context) : Exn + World :=
  match resolve_providers model_providers (models configuration) with
  | inl e => inl e
  | inr providers =>
      let prompt_config := prompt_config (prompt_strategy configuration) in
      let location := strategy_location (prompt_strategy configuration) in
      match (match location with
             | Some location => load_class host location prompt_config
             | None => new_NextAbility host prompt_config
             end) with
      | inl e => inl e
      | inr strategy =>
          inr {| self := {| _configuration := configuration;
                            _execution_nature := execution_nature configuration;
                            _ability_registry := ability_registry;
                            _providers := providers;
                            _prompt_strategy := strategy;
                            _task_queue := [];
                            _completed_tasks := [];
                            _current_task := None;
                            _current_context := VContext (length store) |};
                 heap := store ++ [new_Context];
                 log := [] |}
      end
  end.

(** The runtime context of a prompt: the dictionary that
    [_make_template_kwargs_for_strategy] builds. *)
Definition runtime_kwargs (provider : LanguageModelProvider) (t : nat) : Kwargs :=
  {[ "os_info" := VStr (get_os_info host);
     "api_budget" := get_remaining_budget provider t;
     "current_time" := VStr (strftime host t) ]}.

(** [_make_template_kwargs_for_strategy] *)
Definition _make_template_kwargs_for_strategy (strategy : PromptStrategy)
    : M Kwargs :=
  providers ← gets (fun w => _providers (self w));
  match dict_get (model_classification strategy) providers with
  | None => raise (KeyError (repr (model_classification strategy)))
  | Some provider =>
      t ← now;
      mret (runtime_kwargs provider t)
  end.

(** [chat_with_model].  The runtime context is updated with the keyword
    arguments of the caller ([template_kwargs.update(kwargs)], the union in
    which the caller's entries win), the prompt is built and the provider
    asked; its answer is returned as it is ([parse_obj] of its own
    [dict()]).  Logging and printing are left out. *)
Definition chat_with_model (prompt_strategy : PromptStrategy) (kwargs : Kwargs)
    : M LanguageModelResponse :=
  _ ← bind_arguments ["self"; "prompt_strategy"] kwargs;
  let model_classification := model_classification prompt_strategy in
  configured ← gets (fun w => models (_configuration (self w)));
  match dict_get model_classification configured with
  | None => raise (KeyError (repr model_classification))
  | Some model_configuration =>
      let model_configuration :=
        {| param_model_name := model_name model_configuration;
           param_temperature := temperature model_configuration |} in
      providers ← gets (fun w => _providers (self w));
      match dict_get model_classification providers with
      | None => raise (KeyError (repr model_classification))
      | Some provider =>
          template_kwargs ← _make_template_kwargs_for_strategy prompt_strategy;
          let template_kwargs := kwargs ∪ template_kwargs in
          store ← gets heap;
          prompt ← lift (build_prompt prompt_strategy store template_kwargs);
          t ← now;
          let reply := create_language_completion provider t prompt
                         model_configuration in
          _ ← emit (EvCompletion template_kwargs prompt reply);
          lift reply
      end
  end.

(** [determine_exec_ability] *)
Definition determine_exec_ability (task : Value)
    (ability_schema : list AbilitySchema) (kwargs : Kwargs)
    : M LanguageModelResponse :=
  _ ← bind_arguments ["self"; "task"; "ability_schema"] kwargs;
  strategy ← gets (fun w => _prompt_strategy (self w));
  chat_with_model strategy
    (<["task" := task]> (<["ability_schema" := VSchema ability_schema]> kwargs)).

(** [determine_next_ability] *)
Definition determine_next_ability (task : Value)
    (ability_schema : list AbilitySchema) (kwargs : Kwargs)
    : M LanguageModelResponse :=
  _ ← bind_arguments ["self"; "task"; "ability_schema"] kwargs;
  strategy ← gets (fun w => _prompt_strategy (self w));
  chat_with_model strategy
    (<["task" := task]> (<["ability_schema" := VSchema ability_schema]> kwargs)).

(** Assignments to the attributes of [self._current_task.context]. *)
Definition current_context_loc : M loc :=
  current ← gets (fun w => _current_task (self w));
  match current with
  | Some t => mret (context t)
  | None => raise (AttributeError "context")
  end.

Definition update_context (f : Context -> Context) : M unit :=
  l ← current_context_loc;
  modify (set_heap (alter f l)).

Definition read_context : M Context :=
  l ← current_context_loc;
  store ← gets heap;
  match store !! l with
  | Some c => mret c
  | None => raise (AttributeError "context")
  end.

Definition set_cycle_count (f : Z -> Z) (c : Context) : Context :=
  {| cycle_count := f (cycle_count c); prior_actions := prior_actions c;
     memories := memories c; status := status c; enough_info := enough_info c |}.
Definition set_prior_actions (f : list AbilityAction -> list AbilityAction)
    (c : Context) : Context :=
  {| cycle_count := cycle_count c; prior_actions := f (prior_actions c);
     memories := memories c; status := status c; enough_info := enough_info c |}.
Definition set_memories (m : list string) (c : Context) : Context :=
  {| cycle_count := cycle_count c; prior_actions := prior_actions c;
     memories := m; status := status c; enough_info := enough_info c |}.
Definition set_status (s : TaskStatus) (c : Context) : Context :=
  {| cycle_count := cycle_count c; prior_actions := prior_actions c;
     memories := memories c; status := s; enough_info := enough_info c |}.
Definition set_enough_info (b : bool) (c : Context) : Context :=
  {| cycle_count := cycle_count c; prior_actions := prior_actions c;
     memories := memories c; status := status c; enough_info := b |}.

(** [_update_tasks_and_memory], statement by statement. *)
Definition _update_tasks_and_memory (ability_result : AbilityAction) : M unit :=
  _ ← update_context (set_cycle_count (fun n => n + 1));
  _ ← update_context (set_prior_actions (fun l => l ++ [ability_result]));
  _ ← update_context (set_status DONE);
  _ ← update_context (set_enough_info true);
  update_context (set_memories (get_memories ability_result)).

Definition append_task_queue (t : Task) (p : SuperTaskPilot) : SuperTaskPilot :=
  {| _configuration := _configuration p;
     _execution_nature := _execution_nature p;
     _ability_registry := _ability_registry p;
     _providers := _providers p;
     _prompt_strategy := _prompt_strategy p;
     _task_queue := _task_queue p ++ [t];
     _completed_tasks := _completed_tasks p;
     _current_task := _current_task p;
     _current_context := _current_context p |}.

Definition append_completed_tasks (t : Task) (p : SuperTaskPilot) : SuperTaskPilot :=
  {| _configuration := _configuration p;
     _execution_nature := _execution_nature p;
     _ability_registry := _ability_registry p;
     _providers := _providers p;
     _prompt_strategy := _prompt_strategy p;
     _task_queue := _task_queue p;
     _completed_tasks := _completed_tasks p ++ [t];
     _current_task := _current_task p;
     _current_context := _current_context p |}.

(** [self._completed_tasks.append(self._current_task)] or
    [self._task_queue.append(self._current_task)]. *)
Definition append_current_task (f : Task -> SuperTaskPilot -> SuperTaskPilot)
    : M unit :=
  current ← gets (fun w => _current_task (self w));
  match current with
  | Some t => modify (set_self (f t))
  | None => raise (AttributeError "context")
  end.

(** [perform_ability] *)
Definition perform_ability (task : Value) (ability_schema : list AbilitySchema)
    (kwargs : Kwargs) : M AbilityAction :=
  _ ← bind_arguments ["self"; "task"; "ability_schema"] kwargs;
  nature ← gets (fun w => _execution_nature (self w));
  response ← (if decide (nature = AUTO)
              then determine_next_ability task ability_schema kwargs
              else determine_exec_ability task ability_schema kwargs);
  let ability_args := default ∅ (ability_arguments response) in
  match next_ability response with
  | None => raise (KeyError "next_ability")
  | Some next =>
      ability_action ← perform next ability_args;
      _ ← _update_tasks_and_memory ability_action;
      c ← read_context;
      _ ← (if decide (status c = DONE)
           then append_current_task append_completed_tasks
           else append_current_task append_task_queue);
      mret ability_action
  end.

(** *** Coroutines *)

(** A call of [perform_ability] awaits two collaborators that may suspend
    it: the model provider, in [chat_with_model], and the body of the
    ability, in the registry.  [chat_with_model_call] and the two
    [determine] calls are these functions up to the await of the provider,
    whose reply they hand over instead of returning or raising it. *)
Definition chat_with_model_call (prompt_strategy : PromptStrategy) (kwargs : Kwargs)
    : M (Exn + LanguageModelResponse) :=
  _ ← bind_arguments ["self"; "prompt_strategy"] kwargs;
  let model_classification := model_classification prompt_strategy in
  configured ← gets (fun w => models (_configuration (self w)));
  match dict_get model_classification configured with
  | None => raise (KeyError (repr model_classification))
  | Some model_configuration =>
      let model_configuration :=
        {| param_model_name := model_name model_configuration;
           param_temperature := temperature model_configuration |} in
      providers ← gets (fun w => _providers (self w));
      match dict_get model_classification providers with
      | None => raise (KeyError (repr model_classification))
      | Some provider =>
          template_kwargs ← _make_template_kwargs_for_strategy prompt_strategy;
          let template_kwargs := kwargs ∪ template_kwargs in
          store ← gets heap;
          prompt ← lift (build_prompt prompt_strategy store template_kwargs);
          t ← now;
          let reply := create_language_completion provider t prompt
                         model_configuration in
          _ ← emit (EvCompletion template_kwargs prompt reply);
          mret reply
      end
  end.

Definition determine_exec_ability_call (task : Value)
    (ability_schema : list AbilitySchema) (kwargs : Kwargs)
    : M (Exn + LanguageModelResponse) :=
  _ ← bind_arguments ["self"; "task"; "ability_schema"] kwargs;
  strategy ← gets (fun w => _prompt_strategy (self w));
  chat_with_model_call strategy
    (<["task" := task]> (<["ability_schema" := VSchema ability_schema]> kwargs)).

Definition determine_next_ability_call (task : Value)
    (ability_schema : list AbilitySchema) (kwargs : Kwargs)
    : M (Exn + LanguageModelResponse) :=
  _ ← bind_arguments ["self"; "task"; "ability_schema"] kwargs;
  strategy ← gets (fun w => _prompt_strategy (self w));
  chat_with_model_call strategy
    (<["task" := task]> (<["ability_schema" := VSchema ability_schema]> kwargs)).

(** The three stretches of [perform_ability], each run without
    interruption: to the await of the provider, from its reply to the await
    of the ability, and from the outcome of the ability to the end. *)
Definition to_model (task : Value) (ability_schema : list AbilitySchema)
    (kwargs : Kwargs) : M (Exn + LanguageModelResponse) :=
  _ ← bind_arguments ["self"; "task"; "ability_schema"] kwargs;
  nature ← gets (fun w => _execution_nature (self w));
  if decide (nature = AUTO)
  then determine_next_ability_call task ability_schema kwargs
  else determine_exec_ability_call task ability_schema kwargs.

Definition to_ability (reply : Exn + LanguageModelResponse)
    : M (string * Kwargs * (string + (string * list string))) :=
  response ← lift reply;
  let ability_args := default ∅ (ability_arguments response) in
  match next_ability response with
  | None => raise (KeyError "next_ability")
  | Some next =>
      outcome ← perform_call next ability_args;
      mret (next, ability_args, outcome)
  end.

Definition to_end (next : string) (ability_args : Kwargs)
    (outcome : string + (string * list string)) : M AbilityAction :=
  ability_action ← perform_result next ability_args outcome;
  _ ← _update_tasks_and_memory ability_action;
  c ← read_context;
  _ ← (if decide (status c = DONE)
       then append_current_task append_completed_tasks
       else append_current_task append_task_queue);
  mret ability_action.

(** What is left of a call of [perform_ability]: all of it, what follows
    the reply of the model, what follows the outcome of the ability, or
    nothing but its result. *)
Inductive Coroutine :=
| Fresh (task : Value) (ability_schema : list AbilitySchema) (kwargs : Kwargs)
| AwaitingModel (reply : Exn + LanguageModelResponse)
| AwaitingAbility (next : string) (ability_args : Kwargs)
    (outcome : string + (string * list string))
| Finished (ability_action : AbilityAction).

(** A coroutine resumed for one stretch. *)
Definition resume (c : Coroutine) : M Coroutine :=
  match c with
  | Fresh task ability_schema kwargs =>
      reply ← to_model task ability_schema kwargs;
      mret (AwaitingModel reply)
  | AwaitingModel reply =>
      '(next, ability_args, outcome) ← to_ability reply;
      mret (AwaitingAbility next ability_args outcome)
  | AwaitingAbility next ability_args outcome =>
      ability_action ← to_end next ability_args outcome;
      mret (Finished ability_action)
  | Finished ability_action => mret (Finished ability_action)
  end.

(** [for ability in abilities: actions.append(await f(ability))]: stops at
    the first exception. *)
Fixpoint for_each {A B} (f : A -> M B) (l : list A) : M (list B) :=
  match l with
  | [] => mret []
  | a :: l' => b ← f a; bs ← for_each f l'; mret (b :: bs)
  end.

(** The event loop at work on a pool of coroutines: it resumes them in the
    order of [schedule], each for one stretch, and passes over those that
    have ended; a coroutine that raises has ended, and the first exception
    raised is kept. *)
Fixpoint drive (schedule : list nat) (pool : list (Exn + Coroutine))
    (failure : option Exn) (w : World)
    : list (Exn + Coroutine) * option Exn * World :=
  match schedule with
  | [] => (pool, failure, w)
  | i :: rest =>
      match pool !! i with
      | Some (inr c) =>
          match resume c w with
          | (Ok c', w') => drive rest (<[i := inr c']> pool) failure w'
          | (Raise e, w') =>
              drive rest (<[i := inl e]> pool)
                (if failure is Some _ then failure else Some e) w'
          end
      | _ => drive rest pool failure w
      end
  end.

(** A schedule that takes [n] coroutines to their ends one after the
    other: none has more than three stretches. *)
Definition to_the_end (n : nat) : list nat :=
  i ← seq 0 n; [i; i; i].

(** The results of the coroutines that have ended without raising, in
    their order. *)
Definition results (pool : list (Exn + Coroutine)) : list AbilityAction :=
  omap (fun slot => match slot with
                    | inr (Finished ability_action) => Some ability_action
                    | _ => None
                    end) pool.

(** [await asyncio.gather] over the calls of [perform_ability].  The event
    loop resumes them as [schedule] says.  If by then one of them has raised,
    [gather] raises the first exception raised, in the state that the others
    have reached; what they do afterwards is outside the call.  If none has,
    those that have not ended run to their ends one after the other, each
    whatever becomes of the others, and [gather] raises the first exception
    raised or returns the results in the order of the calls. *)
Definition gather (schedule : list nat) (coroutines : list Coroutine)
    : M (list AbilityAction) :=
  fun w =>
    let '(pool, failure, w') := drive schedule (inr <$> coroutines) None w in
    match failure with
    | Some e => (Raise e, w')
    | None =>
        let '(pool, failure, w') :=
          drive (to_the_end (length coroutines)) pool None w' in
        match failure with
        | Some e => (Raise e, w')
        | None => (Ok (results pool), w')
        end
    end.

(** [exec_abilities] *)
Definition exec_abilities (task : Value) (kwargs : Kwargs)
    : M (list AbilityAction) :=
  _ ← bind_arguments ["self"; "task"] kwargs;
  nature ← gets (fun w => _execution_nature (self w));
  registry ← gets (fun w => _ability_registry (self w));
  match nature with
  | PARALLEL =>
      t ← now;
      gather (resumptions host t)
        ((fun ability => Fresh task [dump ability] kwargs) <$> abilities registry)
  | AUTO =>
      a ← perform_ability task (dump_abilities registry) kwargs;
      mret [a]
  | _ =>
      for_each (fun ability => perform_ability task [dump ability] kwargs)
        (abilities registry)
  end.

(** [execute].  The objective is a string or a task. *)
Inductive Objective :=
| ObjStr (s : string)
| ObjTask (t : Task).

(** How a run of [execute] on a given amount of fuel ends: with the value
    returned, with an exception, or still in its loop. *)
Inductive Outcome :=
| Returned (v : Value)
| Raised (e : Exn)
| Running.

Definition set_current_task (t : option Task) (p : SuperTaskPilot) : SuperTaskPilot :=
  {| _configuration := _configuration p;
     _execution_nature := _execution_nature p;
     _ability_registry := _ability_registry p;
     _providers := _providers p;
     _prompt_strategy := _prompt_strategy p;
     _task_queue := _task_queue p;
     _completed_tasks := _completed_tasks p;
     _current_task := t;
     _current_context := _current_context p |}.

Definition set_current_context (v : Value) (p : SuperTaskPilot) : SuperTaskPilot :=
  {| _configuration := _configuration p;
     _execution_nature := _execution_nature p;
     _ability_registry := _ability_registry p;
     _providers := _providers p;
     _prompt_strategy := _prompt_strategy p;
     _task_queue := _task_queue p;
     _completed_tasks := _completed_tasks p;
     _current_task := _current_task p;
     _current_context := v |}.

(** Lines 112 to 120: the statements of [execute] before its loop; the
    result is [kwargs] as the loop passes it on. *)
Definition execute_enter (objective : Objective) (args : list Value)
    (kwargs : Kwargs) : M Kwargs :=
  _ ← bind_arguments ["self"; "objective"] kwargs;
  task ← match objective with
         | ObjStr s => Task_factory s
         | ObjTask t => mret t
         end;
  _ ← modify (set_self (set_current_task (Some task)));
  held ← gets (fun w => _current_context (self w));
  _ ← modify (set_self (set_current_context (default held (kwargs !! "context"))));
  mret (match args with
        | a :: _ => <["context" := a]> kwargs
        | [] => kwargs
        end).

(** Line 125: the value of [return self._current_context] in a state. *)
Definition execute_return (w : World) : Value := _current_context (self w).

(** Lines 122 to 125: [while self._current_task != TaskStatus.DONE], one
    unit of fuel per cycle, then [return self._current_context]. *)
Fixpoint execute_loop (fuel : nat) (kwargs : Kwargs) (w : World)
    : Outcome * World :=
  if py_ne_status (current_task_value w) DONE then
    match fuel with
    | O => (Running, w)
    | S fuel' =>
        match exec_abilities (current_task_value w) kwargs w with
        | (Ok _, w') => execute_loop fuel' kwargs w'
        | (Raise e, w') => (Raised e, w')
        end
    end
  else (Returned (execute_return w), w).

Definition execute (fuel : nat) (objective : Objective) (args : list Value)
    (kwargs : Kwargs) (w : World) : Outcome * World :=
  match execute_enter objective args kwargs w with
  | (Ok kwargs', w') => execute_loop fuel kwargs' w'
  | (Raise e, w') => (Raised e, w')
  end.

End Engine.

(** ** Describing runs *)

(** What the log says about a stretch of a run: the actions performed, the
    abilities invoked, the schemas offered to the model and the abilities
    its replies name, each in the order of the calls. *)
Definition performed (evs : list Event) : list AbilityAction :=
  omap (fun ev => match ev with EvAction a => Some a | _ => None end) evs.
Definition invoked (evs : list Event) : list string :=
  omap (fun ev => match ev with EvInvoke n _ => Some n | _ => None end) evs.
Definition offered (evs : list Event) : list Value :=
  omap (fun ev => match ev with
                  | EvCompletion kw _ _ => kw !! "ability_schema"
                  | _ => None
                  end) evs.
Definition named (evs : list Event) : list string :=
  omap (fun ev => match ev with
                  | EvCompletion _ _ (inr r) => next_ability r
                  | _ => None
                  end) evs.

(** One action folded into a context: what [_update_tasks_and_memory]
    leaves of it. *)
Definition apply_action (c : Context) (a : AbilityAction) : Context :=
  {| cycle_count := cycle_count c + 1;
     prior_actions := prior_actions c ++ [a];
     memories := get_memories a;
     status := DONE;
     enough_info := true |}.

(** The store once a list of actions has been folded into the context of the
    current task. *)
Definition fold_into (actions : list AbilityAction) (w : World) : list Context :=
  match _current_task (self w) with
  | Some t => alter (fun c => foldl apply_action c actions) (context t) (heap w)
  | None => heap w
  end.

(** The attributes of the pilot that no cycle assigns. *)
Definition frame (p : SuperTaskPilot) :=
  (_configuration p, _execution_nature p, _ability_registry p, _providers p,
   _prompt_strategy p, _current_task p, _current_context p).

(** [step w w' evs]: [w'] is [w] after the events [evs]. *)
Definition step (w w' : World) (evs : list Event) : Prop :=
  log w' = log w ++ evs ∧
  heap w' = fold_into (performed evs) w ∧
  frame (self w') = frame (self w).

(** What one call of [perform_ability] has logged however it ends: at most
    one call of the model, which offered [schema], and at most one
    invocation, of the ability that the reply names. *)
Definition at_most_once (schema : Value) (evs : list Event) : Prop :=
  (offered evs = [] ∨ offered evs = [schema]) ∧
  (invoked evs = [] ∨ invoked evs = named evs) ∧
  (length (named evs) <= length (offered evs))%nat.

(** What a stretch of a run that made its calls one ability at a time has
    done when it returns the actions [acts] for the abilities [l]. *)
Definition one_by_one (l : list Ability) (evs : list Event)
    (acts : list AbilityAction) : Prop :=
  performed evs = acts ∧
  invoked evs = ability_name <$> acts ∧
  named evs = ability_name <$> acts ∧
  offered evs = (fun a => VSchema [dump a]) <$> l ∧
  length acts = length l.

(** What a stretch of a run that made its calls for all the abilities at
    once has done when it returns the actions [acts] for the abilities [l]:
    the calls that are made one by one, in an order of its own. *)
Definition all_at_once (l : list Ability) (evs : list Event)
    (acts : list AbilityAction) : Prop :=
  performed evs ≡ₚ acts ∧
  invoked evs ≡ₚ ability_name <$> acts ∧
  named evs ≡ₚ ability_name <$> acts ∧
  offered evs ≡ₚ (fun a => VSchema [dump a]) <$> l ∧
  length acts = length l.

(** What a coroutine of a pool still owes: the schema it has yet to offer,
    the ability that its reply names and it has yet to invoke, the ability
    it has invoked and has yet to perform; and the action it has ended
    with. *)
Definition to_offer (slot : Exn + Coroutine) : list Value :=
  match slot with
  | inr (Fresh _ ability_schema _) => [VSchema ability_schema]
  | _ => []
  end.
Definition to_invoke (slot : Exn + Coroutine) : list string :=
  match slot with
  | inr (AwaitingModel (inr response)) => option_list (next_ability response)
  | _ => []
  end.
Definition to_perform (slot : Exn + Coroutine) : list string :=
  match slot with
  | inr (AwaitingAbility next _ _) => [next]
  | _ => []
  end.
Definition ended (slot : Exn + Coroutine) : list AbilityAction :=
  match slot with
  | inr (Finished ability_action) => [ability_action]
  | _ => []
  end.

(** [settled schemas pool evs]: the events [evs] logged since the pool was
    made, of coroutines that had [schemas] to offer, are up to their order
    what its coroutines have done and not what they still owe. *)
Definition settled (schemas : list Value) (pool : list (Exn + Coroutine))
    (evs : list Event) : Prop :=
  offered evs ++ (pool ≫= to_offer) ≡ₚ schemas ∧
  named evs ≡ₚ invoked evs ++ (pool ≫= to_invoke) ∧
  invoked evs ≡ₚ (ability_name <$> performed evs) ++ (pool ≫= to_perform) ∧
  performed evs ≡ₚ pool ≫= ended.

(** [commutes T m]: running [m] after the change [T] of the state is
    running [m] and then changing the state; [m] neither reads nor writes
    what [T] changes. *)
Definition commutes (T : World -> World) {A} (m : M A) : Prop :=
  forall w, m (T w) = ((m w).1, T (m w).2).

(** A pilot whose configured cycle budget is [m]. *)
Definition with_max_task_cycle_count (m : Z) (p : SuperTaskPilot) : SuperTaskPilot :=
  {| _configuration :=
       {| pilot := {| pilot_name := pilot_name (pilot (_configuration p));
                      role := role (pilot (_configuration p));
                      goals := goals (pilot (_configuration p));
                      max_task_cycle_count := m |};
          execution_nature := execution_nature (_configuration p);
          prompt_strategy := prompt_strategy (_configuration p);
          models := models (_configuration p) |};
     _execution_nature := _execution_nature p;
     _ability_registry := _ability_registry p;
     _providers := _providers p;
     _prompt_strategy := _prompt_strategy p;
     _task_queue := _task_queue p;
     _completed_tasks := _completed_tasks p;
     _current_task := _current_task p;
     _current_context := _current_context p |}.

(** A pilot whose execution nature is [n]. *)
Definition with_execution_nature (n : ExecutionNature) (p : SuperTaskPilot)
    : SuperTaskPilot :=
  {| _configuration := _configuration p;
     _execution_nature := n;
     _ability_registry := _ability_registry p;
     _providers := _providers p;
     _prompt_strategy := _prompt_strategy p;
     _task_queue := _task_queue p;
     _completed_tasks := _completed_tasks p;
     _current_task := _current_task p;
     _current_context := _current_context p |}.

(** A pilot whose registry is [r]. *)
Definition with_ability_registry (r : AbilityRegistry) (p : SuperTaskPilot)
    : SuperTaskPilot :=
  {| _configuration := _configuration p;
     _execution_nature := _execution_nature p;
     _ability_registry := r;
     _providers := _providers p;
     _prompt_strategy := _prompt_strategy p;
     _task_queue := _task_queue p;
     _completed_tasks := _completed_tasks p;
     _current_task := _current_task p;
     _current_context := _current_context p |}.

(** An objective that is not done before the run: a string, for which
    [execute] makes a task of its own, or a task whose context is in the
    store with a status other than DONE. *)
Definition not_yet_done (objective : Objective) (w : World) : Prop :=
  match objective with
  | ObjStr _ => True
  | ObjTask t => exists c, heap w !! context t = Some c ∧ status c <> DONE
  end.

(** The changes that [_update_tasks_and_memory] is said to make, and no
    other: the count, the actions, the memories and the status. *)
Definition claimed_update (c : Context) (a : AbilityAction) : Context :=
  {| cycle_count := cycle_count c + 1;
     prior_actions := prior_actions c ++ [a];
     memories := get_memories a;
     status := DONE;
     enough_info := enough_info c |}.

(** ** Concrete pilots *)

Module Examples.

Definition ability (n : string) (out : string + (string * list string)) : Ability :=
  {| name := n; description := "ability " ++ n;
     parameters := [("query", "string")]; body := fun _ _ => out |}.

Definition web_search : Ability :=
  ability "web_search" (inr ("Paris", ["The capital of France is Paris"])).

(** A strategy that offers the model the schema it is given. *)
Definition NextAbility : PromptStrategy :=
  {| model_classification := FAST_MODEL;
     build_prompt := fun _ kwargs =>
       match kwargs !! "ability_schema" with
       | Some (VSchema s) => inr {| messages := ["system"; "user"]; functions := s |}
       | _ => inl (TypeError "ability_schema")
       end |}.

(** A host that knows the one strategy class. *)
Definition host : Host :=
  {| get_os_info := "Ubuntu 22.04"; strftime := fun _ => "Mon Jan  1 00:00:00 2024";
     load_class := fun location _ => inl (KeyError (storage_route location));
     new_NextAbility := fun _ => inr NextAbility;
     resumptions := fun _ => [] |}.

(** A provider whose model always gives the same reply. *)
Definition constant (reply : Exn + LanguageModelResponse) : LanguageModelProvider :=
  {| get_remaining_budget := fun _ => VNum 100;
     create_language_completion := fun _ _ _ => reply |}.

Definition says (n : string) : Exn + LanguageModelResponse :=
  inr {| next_ability := Some n;
         ability_arguments := Some {[ "query" := VStr "capital of France" ]} |}.

(** A provider whose model names the first ability it is offered. *)
Definition obedient : LanguageModelProvider :=
  {| get_remaining_budget := fun _ => VNum 100;
     create_language_completion := fun _ prompt _ =>
       match functions prompt with
       | s :: _ => says (schema_name s)
       | [] => inl ResponseParseError
       end |}.

(** [SuperTaskPilot.default_configuration], with the execution nature left
    open. *)
Definition configuration (nature : ExecutionNature) : TaskPilotConfiguration :=
  {| pilot := {| pilot_name := "super_task_pilot";
                 role := "An AI Pilot designed to complete simple tasks with ";
                 goals := ["Complete simple tasks"];
                 max_task_cycle_count := 3 |};
     execution_nature := nature;
     prompt_strategy := {| strategy_location := None; prompt_config := ∅ |};
     models :=
       [(FAST_MODEL, {| model_name := "gpt-3.5-turbo"; provider_name := "openai";
                        temperature := 9 # 10 |});
        (SMART_MODEL, {| model_name := "gpt-4-turbo"; provider_name := "openai";
                         temperature := 9 # 10 |})] |}.

(** The pilot built by [__init__] from a registry, a model reply and an
    execution nature, in an empty store. *)
Definition pilot_of (registry : AbilityRegistry) (provider : LanguageModelProvider)
    (nature : ExecutionNature) : World :=
  match __init__ host registry {[ "openai" := provider ]} (configuration nature) [] with
  | inr w => w
  | inl _ => {| self := {| _configuration := configuration nature;
                           _execution_nature := nature;
                           _ability_registry := registry;
                           _providers := [];
                           _prompt_strategy := NextAbility;
                           _task_queue := []; _completed_tasks := [];
                           _current_task := None;
                           _current_context := VNone |};
                heap := []; log := [] |}
  end.

Definition france : Objective := ObjStr "find the capital of France".

(** A pilot that has entered [execute france] and not yet run a cycle: its
    own context is at location 0, the context of the task at location 1. *)
Definition entered (w : World) : World := (execute host 0 france [] ∅ w).2.
Definition the_task : Task :=
  {| objective := "find the capital of France"; context := 1 |}.

Definition paris : AbilityAction :=
  {| ability_name := "web_search";
     arguments := {[ "query" := VStr "capital of France" ]};
     result := "Paris";
     get_memories := ["The capital of France is Paris"] |}.

(** The pilots of the examples: one ability and a model that names it, in
    AUTO mode; no ability at all; a model that names an ability nobody
    registered; two and four abilities taken one by one. *)
Definition auto : World := pilot_of [web_search] (constant (says "web_search")) AUTO.
Definition idle : World := pilot_of [] (constant (says "web_search")) SEQUENTIAL.
Definition bare : World := pilot_of [] (constant (says "web_search")) AUTO.
Definition misled : World := pilot_of [web_search] (constant (says "rm_rf")) AUTO.
Definition faulty : World :=
  pilot_of [ability "web_search" (inl "timeout")] (constant (says "web_search")) AUTO.
Definition speechless : World :=
  pilot_of [web_search]
    (constant (inr {| next_ability := None; ability_arguments := None |})) AUTO.
Definition offline : World := pilot_of [web_search] (constant (inl ProviderError)) AUTO.
Definition summarize : Ability := ability "summarize" (inr ("summary", [])).
Definition stubborn : World :=
  pilot_of [summarize; web_search] (constant (says "web_search")) SEQUENTIAL.
Definition pipeline : World :=
  pilot_of [summarize; web_search] obedient SEQUENTIAL.
Definition long_pipeline : World :=
  pilot_of [ability "a1" (inr ("r1", [])); ability "a2" (inr ("r2", []));
         ability "a3" (inr ("r3", [])); ability "a4" (inr ("r4", []))]
    obedient SEQUENTIAL.

(** Two abilities taken at once, on a host whose event loop resumes the
    second call first, then the first, then the second up to its end. *)
Definition concurrent : World :=
  pilot_of [summarize; web_search] obedient PARALLEL.
Definition juggler : Host :=
  {| get_os_info := get_os_info host; strftime := strftime host;
     load_class := load_class host; new_NextAbility := new_NextAbility host;
     resumptions := fun _ => [1; 0; 1; 1]%nat |}.

End Examples.

(** ** Describing what a run sends and records *)

(** A completion carries the keyword arguments [kwargs] and the task [task]
    when the template arguments of its prompt hold every entry of [kwargs],
    the task under ["task"] and some schema under ["ability_schema"]. *)
Definition carries (kwargs : Kwargs) (task : Value) (ev : Event) : Prop :=
  match ev with
  | EvCompletion tk _ _ =>
      (forall k v, kwargs !! k = Some v -> tk !! k = Some v) ∧
      tk !! "task" = Some task ∧
      exists schema, tk !! "ability_schema" = Some (VSchema schema)
  | _ => True
  end.

(** [kwargs] as the loop of [execute] passes it on: a positional argument,
    if any, is stored under ["context"]. *)
Definition passed_on (args : list Value) (kwargs : Kwargs) : Kwargs :=
  match args with
  | a :: _ => <["context" := a]> kwargs
  | [] => kwargs
  end.

(** An objective is in the store when it is a string, for which [execute]
    makes a task of its own, or a task whose context is in the store. *)
Definition in_store (objective : Objective) (w : World) : Prop :=
  match objective with
  | ObjStr _ => True
  | ObjTask t => (context t < length (heap w))%nat
  end.

(** [ran kwargs task t w w' evs]: from [w] to [w'] the events [evs] were
    logged, each completion carrying [kwargs] and [task], the store kept its
    size and the pilot changed only in that [t] was appended to the completed
    tasks once for every action performed. *)
Definition ran (kwargs : Kwargs) (task : Value) (t : Task) (w w' : World)
    (evs : list Event) : Prop :=
  log w' = log w ++ evs ∧
  self w' = Nat.iter (length (performed evs)) (append_completed_tasks t) (self w) ∧
  length (heap w') = length (heap w) ∧
  Forall (carries kwargs task) evs.

(** ** The factory of the pilot *)

Module Factory.

(** A configuration together with its [location].  [config.copy()] is the
    value itself: the assignments that follow it reach the copy only. *)
Record Configuration := {
  location : PluginLocation;
  settings : TaskPilotConfiguration;
}.

Definition OPENAI : string := "openai".

Definition set_location (l : PluginLocation) (c : Configuration) : Configuration :=
  {| location := l; settings := settings c |}.
Definition set_execution_nature (n : ExecutionNature) (c : Configuration)
    : Configuration :=
  {| location := location c;
     settings := {| pilot := pilot (settings c); execution_nature := n;
                    prompt_strategy := prompt_strategy (settings c);
                    models := models (settings c) |} |}.
Definition set_prompt_strategy (s : PromptStrategyConfiguration) (c : Configuration)
    : Configuration :=
  {| location := location c;
     settings := {| pilot := pilot (settings c);
                    execution_nature := execution_nature (settings c);
                    prompt_strategy := s;
                    models := models (settings c) |} |}.
Definition set_pilot (p : PilotConfiguration) (c : Configuration) : Configuration :=
  {| location := location c;
     settings := {| pilot := p;
                    execution_nature := execution_nature (settings c);
                    prompt_strategy := prompt_strategy (settings c);
                    models := models (settings c) |} |}.
Definition set_models
    (m : list (LanguageModelClassification * LanguageModelConfiguration))
    (c : Configuration) : Configuration :=
  {| location := location c;
     settings := {| pilot := pilot (settings c);
                    execution_nature := execution_nature (settings c);
                    prompt_strategy := prompt_strategy (settings c);
                    models := m |} |}.

(** [if x is not None: config.field = x] *)
Definition assign {A} (set : A -> Configuration -> Configuration) (x : option A)
    (c : Configuration) : Configuration :=
  match x with Some a => set a c | None => c end.

Section Super.

(** [strategies.NextAbility.default_configuration] and the answer of
    [OpenAIProvider.factory()], neither of them among the sources. *)
Context (host : Host)
        (NextAbility_default : PromptStrategyConfiguration)
        (OpenAIProvider_factory : Exn + LanguageModelProvider).

(** [SuperTaskPilot.default_configuration], lines 45 to 77. *)
Definition default_configuration : Configuration :=
  {| location := {| storage_format := "INSTALLED_PACKAGE";
                    storage_route := "superpilot.core.flow.simple.SuperTaskPilot" |};
     settings :=
       {| pilot := {| pilot_name := "super_task_pilot";
                      role := "An AI Pilot designed to complete simple tasks with ";
                      goals := ["Complete simple tasks"];
                      max_task_cycle_count := 3 |};
          execution_nature := AUTO;
          prompt_strategy := NextAbility_default;
          models :=
            [(FAST_MODEL, {| model_name := "GPT3"; provider_name := OPENAI;
                             temperature := 9 # 10 |});
             (SMART_MODEL, {| model_name := "GPT4_TURBO"; provider_name := OPENAI;
                              temperature := 9 # 10 |})] |} |}.

(** [SuperTaskPilot.factory], lines 266 to 305. *)
Definition factory (ability_registry : AbilityRegistry)
    (prompt_strategy : option PromptStrategyConfiguration)
    (model_providers : option (gmap string LanguageModelProvider))
    (execution_nature : option ExecutionNature)
    (models : option (list (LanguageModelClassification * LanguageModelConfiguration)))
    (pilot_config : option PilotConfiguration)
    (location : option PluginLocation)
    (store : list Context) : Exn + World :=
  let config := default_configuration in
  let config := assign set_location location config in
  let config := assign set_execution_nature execution_nature config in
  let config := assign set_prompt_strategy prompt_strategy config in
  let config := assign set_pilot pilot_config config in
  let config := assign set_models models config in
  match model_providers with
  | Some model_providers =>
      __init__ host ability_registry model_providers (settings config) store
  | None =>
      match OpenAIProvider_factory with
      | inl e => inl e
      | inr open_ai_provider =>
          __init__ host ability_registry {[ OPENAI := open_ai_provider ]}
            (settings config) store
      end
  end.

End Super.

End Factory.

(** ** The one-shot pilot *)

(** [superpilot/core/pilot/task/simple.py].  [SimpleTaskPilot.factory] does
    not copy the default configuration of the class: it assigns to that
    object and hands it to the pilot, so the class attribute is a piece of
    state, and a pilot built by the factory holds a reference to it. *)
Module Simple.

Import Factory.

Inductive ConfigurationRef :=
| TheDefault
| Own (c : Configuration).

Definition deref (default : Configuration) (r : ConfigurationRef) : Configuration :=
  match r with TheDefault => default | Own c => c end.

(** The attributes of a [SimpleTaskPilot] instance, [_logger] apart. *)
Record SimpleTaskPilot := {
  _configuration : ConfigurationRef;
  _execution_nature : ExecutionNature;
  _providers : list (LanguageModelClassification * LanguageModelProvider);
  _prompt_strategy : PromptStrategy;
}.

Section Pilot.

(** The class [SimplePrompt], which builds a strategy from the entries of
    a configuration or fails, its [default_configuration], the [pilot] that
    [TaskPilotConfiguration] has when none is given, the answer of
    [OpenAIProvider.factory()] and [Task.generate_kwargs], none of them among
    the sources. *)
Context (host : Host)
        (SimplePrompt : PromptStrategyConfiguration -> Exn + PromptStrategy)
        (SimplePrompt_default : PromptStrategyConfiguration)
        (pilot_default : PilotConfiguration)
        (OpenAIProvider_factory : Exn + LanguageModelProvider)
        (generate_kwargs : list Context -> Task -> Kwargs).

(** [SimpleTaskPilot.default_configuration] as the class is loaded, lines 33
    to 52. *)
Definition default_configuration : Configuration :=
  {| location := {| storage_format := "INSTALLED_PACKAGE";
                    storage_route := "superpilot.core.flow.simple.SuperTaskPilot" |};
     settings :=
       {| pilot := pilot_default;
          execution_nature := SIMPLE;
          prompt_strategy := SimplePrompt_default;
          models :=
            [(FAST_MODEL, {| model_name := "GPT3"; provider_name := OPENAI;
                             temperature := 9 # 10 |});
             (SMART_MODEL, {| model_name := "GPT4"; provider_name := OPENAI;
                              temperature := 9 # 10 |})] |} |}.

(** [model_providers[model_config.provider_name]] for every configured
    model, where [model_providers] may be [None]. *)
Fixpoint resolve (model_providers : option (gmap string LanguageModelProvider))
    (items : list (LanguageModelClassification * LanguageModelConfiguration))
    : Exn + list (LanguageModelClassification * LanguageModelProvider) :=
  match items with
  | [] => inr []
  | (model, model_config) :: rest =>
      match model_providers with
      | None => inl (TypeError "model_providers")
      | Some providers =>
          match providers !! provider_name model_config with
          | None => inl (KeyError (provider_name model_config))
          | Some p =>
              match resolve model_providers rest with
              | inl e => inl e
              | inr ps => inr ((model, p) :: ps)
              end
          end
      end
  end.

(** [SimpleTaskPilot.__init__], lines 54 to 70, in a state of the class
    whose default configuration is [default]. *)
Definition __init__ (default : Configuration) (configuration : ConfigurationRef)
    (model_providers : option (gmap string LanguageModelProvider))
    : Exn + SimpleTaskPilot :=
  let config := settings (deref default configuration) in
  match resolve model_providers (models config) with
  | inl e => inl e
  | inr providers =>
      match SimplePrompt (prompt_strategy config) with
      | inl e => inl e
      | inr strategy =>
          inr {| _configuration := configuration;
                 _execution_nature := execution_nature config;
                 _providers := providers;
                 _prompt_strategy := strategy |}
      end
  end.

(** [SimpleTaskPilot.factory], lines 124 to 156: the new state of the
    class and what the call gives. *)
Definition factory (default : Configuration)
    (prompt_strategy : option PromptStrategyConfiguration)
    (model_providers : option (gmap string LanguageModelProvider))
    (execution_nature : option ExecutionNature)
    (models : option (list (LanguageModelClassification * LanguageModelConfiguration)))
    (location : option PluginLocation)
    : Configuration * (Exn + SimpleTaskPilot) :=
  let config := default in
  let config := assign set_location location config in
  let config := assign set_execution_nature execution_nature config in
  let config := assign set_prompt_strategy prompt_strategy config in
  let config := assign set_models models config in
  match model_providers with
  | Some model_providers =>
      (config, __init__ config TheDefault (Some model_providers))
  | None =>
      match OpenAIProvider_factory with
      | inl e => (config, inl e)
      | inr open_ai_provider =>
          (config, __init__ config TheDefault (Some {[ OPENAI := open_ai_provider ]}))
      end
  end.

(** [SimpleTaskPilot._make_template_kwargs_for_strategy]: the runtime
    context of a prompt. *)
Definition _make_template_kwargs_for_strategy (pilot : SimpleTaskPilot)
    (strategy : PromptStrategy) : M Kwargs :=
  match dict_get (model_classification strategy) (_providers pilot) with
  | None => raise (KeyError (repr (model_classification strategy)))
  | Some provider =>
      t ← now;
      mret (runtime_kwargs host provider t)
  end.

(** [SimpleTaskPilot.chat_with_model], lines 87 to 110. *)
Definition chat_with_model (default : Configuration) (pilot : SimpleTaskPilot)
    (prompt_strategy : PromptStrategy) (kwargs : Kwargs)
    : M LanguageModelResponse :=
  _ ← bind_arguments ["self"; "prompt_strategy"] kwargs;
  let model_classification := model_classification prompt_strategy in
  match dict_get model_classification
          (models (settings (deref default (_configuration pilot)))) with
  | None => raise (KeyError (repr model_classification))
  | Some model_configuration =>
      let model_configuration :=
        {| param_model_name := model_name model_configuration;
           param_temperature := temperature model_configuration |} in
      match dict_get model_classification (_providers pilot) with
      | None => raise (KeyError (repr model_classification))
      | Some provider =>
          template_kwargs ← _make_template_kwargs_for_strategy pilot prompt_strategy;
          let template_kwargs := kwargs ∪ template_kwargs in
          store ← gets heap;
          prompt ← lift (build_prompt prompt_strategy store template_kwargs);
          t ← now;
          let reply := create_language_completion provider t prompt
                         model_configuration in
          _ ← emit (EvCompletion template_kwargs prompt reply);
          lift reply
      end
  end.

(** [SimpleTaskPilot.exec_task], lines 79 to 85. *)
Definition exec_task (default : Configuration) (pilot : SimpleTaskPilot)
    (task : Task) (kwargs : Kwargs) : M LanguageModelResponse :=
  _ ← bind_arguments ["self"; "task"] kwargs;
  store ← gets heap;
  let template_kwargs := generate_kwargs store task in
  let template_kwargs := kwargs ∪ template_kwargs in
  chat_with_model default pilot (_prompt_strategy pilot) template_kwargs.

(** [SimpleTaskPilot.execute], lines 72 to 77. *)
Definition execute (default : Configuration) (pilot : SimpleTaskPilot)
    (objective : string) (args : list Value) (kwargs : Kwargs)
    : M LanguageModelResponse :=
  _ ← bind_arguments ["self"; "objective"] kwargs;
  task ← Task_factory objective;
  exec_task default pilot task kwargs.

End Pilot.

End Simple.

(** ** The question extractor *)

(** [superpilot/examples/abilities/question_extractor.py].  The search
    engine is a parameter, and what it finds is taken to be a list of
    dictionaries and [None]s.  What the browser engines fetch is gathered
    with [return_exceptions=True], printed where it is text and never read
    for the answer, so it is only recorded that the pages were asked for;
    a browser engine is taken to be constructed without error. *)
Module Extractor.

(** The two keys of the environment configuration that the ability reads;
    a key may be [None]. *)
Record Config := {
  google_api_key : option string;
  serp_api_key : option string;
}.

(** [not key or "YOUR_API_KEY" == key] *)
Definition unset (key : option string) : bool :=
  match key with
  | None => true
  | Some s => bool_decide (s = "") || bool_decide (s = "YOUR_API_KEY")
  end.

(** One result of a search: [None] or a dictionary. *)
Abbreviation Item := (option (gmap string string)).

(** [if link] *)
Definition truthy (link : Item) : bool :=
  match link with
  | None => false
  | Some d => negb (bool_decide (d = ∅))
  end.

(** What the ability answers: [None], a content item or a dictionary. *)
Inductive Answer :=
| ANone
| AContent (text : string)
| ADict (d : gmap string string).

(** What the ability asks of its collaborators. *)
Inductive Call :=
| Search (query : string) (max_results : Z) (gl siteSearch : string)
| Browse (url : string).

(** [[link["link"] for link in rsp if link]] *)
Fixpoint links (rsp : list Item) : Exn + list string :=
  match rsp with
  | [] => inr []
  | link :: rest =>
      if truthy link then
        match link ≫= (fun d => d !! "link") with
        | None => inl (KeyError "link")
        | Some url =>
            match links rest with
            | inl e => inl e
            | inr urls => inr (url :: urls)
            end
        end
      else links rest
  end.

(** [QuestionExtractor.__call__], lines 62 to 96: the calls made and the
    answer. *)
Definition __call__ (env_config : Config)
    (search : string -> Exn + list Item)
    (query : string) (kwargs : Kwargs) : list Call * (Exn + Answer) :=
  let no_google := unset (google_api_key env_config) in
  let no_serpapi := unset (serp_api_key env_config) in
  if no_serpapi && no_google then ([], inr ANone)
  else
    let asked := [Search query 6 "in" "https://www.chegg.com"] in
    match search query with
    | inl e => (asked, inl e)
    | inr [] => (asked, inr (AContent "Empty Response"))
    | inr rsp =>
        match links rsp with
        | inl e => (asked, inl e)
        | inr new_search_urls =>
            (asked ++ (Browse <$> new_search_urls), inr (ADict ∅))
        end
    end.

(** [QuestionExtractor._parse_response] *)
Definition _parse_response (response_content : gmap string string)
    : Exn + gmap string string :=
  match response_content !! "content" with
  | None => inl (KeyError "content")
  | Some c => inr {[ "content" := c ]}
  end.

End Extractor.

(** ** The LaTeX prompt strategy *)

(** [superpilot/examples/prompt_generator/latex_code_gen.py].  [str.format]
    is a parameter. *)
Module Latex.

(** The attributes of a [LatexCodeGenPrompt]. *)
Record LatexCodeGenPrompt := {
  _model_classification : LanguageModelClassification;
  _system_prompt_message : string;
  _user_prompt_template : string;
  _parser_schema : option AbilitySchema;
}.

(** The placeholders that [get_template_kwargs] gives a value to. *)
Definition defaults (task_objective : Value) : Kwargs :=
  {[ "task_objective" := task_objective;
     "cycle_count" := VNum 0;
     "action_history" := VStr "";
     "additional_info" := VStr "";
     "user_input" := VStr "";
     "acceptance_criteria" := VStr "" ]}.

(** [get_template_kwargs], lines 201 to 212. *)
Definition get_template_kwargs (task_objective : Value) (kwargs : Kwargs) : Kwargs :=
  kwargs ∪ defaults task_objective.

Section Strategy.

Context (format : string -> Kwargs -> Exn + string).

(** [build_prompt], lines 176 to 199, called with the template arguments as keyword arguments:
    [task_objective] is a parameter of its own, the other arguments are its
    [kwargs]. *)
Definition build_prompt (self : LatexCodeGenPrompt) (arguments : Kwargs)
    : Exn + LanguageModelPrompt :=
  if arguments !! "self" is Some _ then inl (TypeError "self") else
  match arguments !! "task_objective" with
  | None => inl (TypeError "task_objective")
  | Some task_objective =>
      let kwargs := delete "task_objective" arguments in
      let template_kwargs := get_template_kwargs task_objective kwargs in
      match format (_system_prompt_message self) template_kwargs with
      | inl e => inl e
      | inr system_message =>
          match format (_user_prompt_template self) template_kwargs with
          | inl e => inl e
          | inr user_message =>
              inr {| messages := [system_message; user_message];
                     functions := match _parser_schema self with
                                  | Some parser_schema => [parser_schema]
                                  | None => []
                                  end |}
          end
      end
  end.

(** The strategy as the engine sees it. *)
Definition as_strategy (self : LatexCodeGenPrompt) : PromptStrategy :=
  Build_PromptStrategy (_model_classification self)
    (fun _ arguments => build_prompt self arguments).

End Strategy.

End Latex.

(** ** More examples *)

Module Cases.

Import Examples.

(** Two abilities taken one by one and a model that names an ability nobody
    registered. *)
Definition astray : World :=
  pilot_of [summarize; web_search] (constant (says "rm_rf")) SEQUENTIAL.

(** A strategy class that takes no [location], the class of the one-shot
    pilot as it is loaded, and what a task generates for its prompt. *)
Definition SimplePrompt (c : PromptStrategyConfiguration) : Exn + PromptStrategy :=
  if strategy_location c is Some _ then inl (TypeError "location")
  else inr NextAbility.
Definition simple_class : Factory.Configuration :=
  Simple.default_configuration (prompt_strategy (configuration SIMPLE))
    (pilot (configuration SIMPLE)).
Definition generate_kwargs (store : list Context) (t : Task) : Kwargs :=
  {[ "task_objective" := VStr (objective t) ]}.
Definition open_ai : Exn + LanguageModelProvider :=
  inr (constant (says "web_search")).
Definition smart_only
    : list (LanguageModelClassification * LanguageModelConfiguration) :=
  [(SMART_MODEL, {| model_name := "GPT4"; provider_name := "openai";
                    temperature := 1 # 2 |})].

(** An environment with one search key, and a search that finds one page
    and one empty entry. *)
Definition one_key : Extractor.Config :=
  {| Extractor.google_api_key := Some "YOUR_API_KEY";
     Extractor.serp_api_key := Some "0123456789abcdef" |}.
Definition found (query : string) : Exn + list Extractor.Item :=
  inr [Some {[ "link" := "https://www.chegg.com/homework-help/1";
               "title" := query ]}; None].

(** A formatter that knows the one placeholder of the default user
    template, and a strategy without parser schema. *)
Definition format (template : string) (kwargs : Kwargs) : Exn + string :=
  match kwargs !! "task_objective" with
  | Some (VStr s) => inr (String.append template s)
  | _ => inl (KeyError "task_objective")
  end.
Definition latex : Latex.LatexCodeGenPrompt :=
  {| Latex._model_classification := FAST_MODEL;
     Latex._system_prompt_message := "You are a world class query correction algorithm";
     Latex._user_prompt_template := "Content: ";
     Latex._parser_schema := None |}.

(** A host that finds the LaTeX strategy at its location, and the pilot of
    [auto] with that strategy in place of its own. *)
Definition latex_location : PluginLocation :=
  {| storage_format := "INSTALLED_PACKAGE";
     storage_route :=
       "superpilot.examples.prompt_generator.latex_code_gen.LatexCodeGenPrompt" |}.
Definition workshop : Host :=
  {| get_os_info := get_os_info host; strftime := strftime host;
     load_class := fun location _ =>
       if decide (location = latex_location)
       then inr (Latex.as_strategy format latex)
       else inl (KeyError (storage_route location));
     new_NextAbility := new_NextAbility host;
     resumptions := resumptions host |}.
Definition typesetter : World :=
  match Factory.factory workshop (prompt_strategy (configuration AUTO)) open_ai
          [web_search]
          (Some {| strategy_location := Some latex_location; prompt_config := ∅ |})
          None None None None None []
  with
  | inr w => entered w
  | inl _ => entered auto
  end.

End Cases.

(** ** Reasoning about runs *)

Lemma performed_app evs1 evs2 :
  performed (evs1 ++ evs2) = performed evs1 ++ performed evs2.
Proof. apply omap_app. Qed.
Lemma invoked_app evs1 evs2 : invoked (evs1 ++ evs2) = invoked evs1 ++ invoked evs2.
Proof. apply omap_app. Qed.
Lemma offered_app evs1 evs2 : offered (evs1 ++ evs2) = offered evs1 ++ offered evs2.
Proof. apply omap_app. Qed.
Lemma named_app evs1 evs2 : named (evs1 ++ evs2) = named evs1 ++ named evs2.
Proof. apply omap_app. Qed.

Lemma alter_alter {A} (f g : A -> A) (i : nat) (l : list A) :
  alter f i (alter g i l) = alter (fun x => f (g x)) i l.
Proof.
  revert i; induction l as [|x l IH]; intros [|i]; simpl; try reflexivity.
  f_equal. apply IH.
Qed.

Lemma fold_into_nil w : fold_into [] w = heap w.
Proof.
  unfold fold_into. destruct (_current_task (self w)); [|reflexivity].
  now apply list_alter_id.
Qed.

Lemma step_refl w : step w w [].
Proof.
  repeat split.
  - now rewrite app_nil_r.
  - now rewrite fold_into_nil.
Qed.

Lemma step_trans w1 w2 w3 evs1 evs2 :
  step w1 w2 evs1 -> step w2 w3 evs2 -> step w1 w3 (evs1 ++ evs2).
Proof.
  intros (Hl1 & Hh1 & Hf1) (Hl2 & Hh2 & Hf2). repeat split.
  - rewrite Hl2, Hl1. now rewrite app_assoc.
  - rewrite Hh2. unfold fold_into in *.
    assert (_current_task (self w2) = _current_task (self w1)) as ->
      by (unfold frame in Hf1; congruence).
    rewrite Hh1, performed_app.
    destruct (_current_task (self w1)); [|reflexivity].
    rewrite alter_alter. apply list_alter_ext; [|reflexivity].
    intros c _. now rewrite foldl_app.
  - congruence.
Qed.

(** Inversion of the monad's operations. *)
Lemma bind_inv {A B} (m : M A) (k : A -> M B) w r w' :
  (m ≫= k) w = (r, w') ->
  (exists e, m w = (Raise e, w') ∧ r = Raise e) ∨
  (exists a w1, m w = (Ok a, w1) ∧ k a w1 = (r, w')).
Proof.
  unfold mbind, M_bind, bind. destruct (m w) as [[a|e] w1]; intros H.
  - right. eauto.
  - left. inversion H; subst. eauto.
Qed.

Lemma bind_ok {A B} (m : M A) (k : A -> M B) w a w1 :
  m w = (Ok a, w1) -> (m ≫= k) w = k a w1.
Proof. unfold mbind, M_bind, bind. now intros ->. Qed.

Lemma bind_raise {A B} (m : M A) (k : A -> M B) w e w1 :
  m w = (Raise e, w1) -> (m ≫= k) w = (Raise e, w1).
Proof. unfold mbind, M_bind, bind. now intros ->. Qed.

Lemma gets_eq {A} (f : World -> A) w : gets f w = (Ok (f w), w).
Proof. reflexivity. Qed.
Lemma mret_eq {A} (a : A) w : (mret a : M A) w = (Ok a, w).
Proof. reflexivity. Qed.
Lemma raise_eq {A} e w : @raise A e w = (Raise e, w).
Proof. reflexivity. Qed.
Lemma modify_eq f w : modify f w = (Ok tt, f w).
Proof. reflexivity. Qed.

Lemma bind_gets {A B} (f : World -> A) (k : A -> M B) w :
  (gets f ≫= k) w = k (f w) w.
Proof. reflexivity. Qed.
Lemma bind_modify {B} f (k : unit -> M B) w :
  (modify f ≫= k) w = k tt (f w).
Proof. reflexivity. Qed.

Lemma bind_arguments_inv params kwargs w r w' :
  bind_arguments params kwargs w = (r, w') ->
  w' = w ∧ (r = Ok tt ∧ first_clash params kwargs = None ∨
            exists p, r = Raise (TypeError p) ∧ first_clash params kwargs = Some p).
Proof.
  unfold bind_arguments. destruct (first_clash params kwargs) as [p|]; intros H;
    inversion H; subst; split; eauto.
Qed.

Lemma bind_arguments_ok params kwargs w :
  first_clash params kwargs = None -> bind_arguments params kwargs w = (Ok tt, w).
Proof. unfold bind_arguments. now intros ->. Qed.

Section Runs.

Context (host : Host).

Lemma lift_eq {A} (r : Exn + A) w : lift r w = (of_reply r, w).
Proof. reflexivity. Qed.

(** [chat_with_model], once its lookups have succeeded, in one equation. *)
Lemma chat_with_model_eq strategy kwargs w mc provider :
  first_clash ["self"; "prompt_strategy"] kwargs = None ->
  dict_get (model_classification strategy) (models (_configuration (self w))) = Some mc ->
  dict_get (model_classification strategy) (_providers (self w)) = Some provider ->
  chat_with_model host strategy kwargs w =
    let tk := kwargs ∪ runtime_kwargs host provider (length (log w)) in
    match build_prompt strategy (heap w) tk with
    | inl e => (Raise e, w)
    | inr p =>
        let reply := create_language_completion provider (length (log w)) p
                       {| param_model_name := model_name mc;
                          param_temperature := temperature mc |} in
        (of_reply reply, logged (EvCompletion tk p reply) w)
    end.
Proof.
  intros Hc Hm Hp. unfold chat_with_model.
  rewrite (bind_ok _ _ _ _ _ (bind_arguments_ok _ _ _ Hc)).
  rewrite bind_gets, Hm, bind_gets, Hp.
  unfold _make_template_kwargs_for_strategy.
  unfold mbind, M_bind, bind, gets, now, lift, emit, modify. simpl. rewrite Hp. simpl.
  destruct (build_prompt strategy (heap w) _) as [e|p]; simpl; [reflexivity|].
  destruct (create_language_completion provider _ _ _); reflexivity.
Qed.

Lemma chat_with_model_inv strategy kwargs w r w' :
  chat_with_model host strategy kwargs w = (r, w') ->
  (w' = w ∧ exists e, r = Raise e) ∨
  (exists rt p reply,
      w' = logged (EvCompletion (kwargs ∪ rt) p reply) w ∧ r = of_reply reply).
Proof.
  destruct (first_clash ["self"; "prompt_strategy"] kwargs) as [c|] eqn:Hc.
  { unfold chat_with_model, bind_arguments. rewrite Hc. intros H.
    inversion H; subst. left; eauto. }
  destruct (dict_get (model_classification strategy)
              (models (_configuration (self w)))) as [mc|] eqn:Hm.
  2:{ unfold chat_with_model.
      rewrite (bind_ok _ _ _ _ _ (bind_arguments_ok _ _ _ Hc)), bind_gets, Hm.
      intros H; inversion H; subst. left; eauto. }
  destruct (dict_get (model_classification strategy) (_providers (self w)))
    as [provider|] eqn:Hp.
  2:{ unfold chat_with_model.
      rewrite (bind_ok _ _ _ _ _ (bind_arguments_ok _ _ _ Hc)), bind_gets, Hm,
        bind_gets, Hp.
      intros H; inversion H; subst. left; eauto. }
  rewrite (chat_with_model_eq _ _ _ _ _ Hc Hm Hp). simpl.
  destruct (build_prompt strategy (heap w) _) as [e|p]; intros H; inversion H; subst.
  - left; eauto.
  - right; eauto.
Qed.

Lemma determine_same task schema kwargs :
  determine_next_ability host task schema kwargs =
  determine_exec_ability host task schema kwargs.
Proof. reflexivity. Qed.

Lemma determine_exec_ability_inv task schema kwargs w r w' :
  determine_exec_ability host task schema kwargs w = (r, w') ->
  (w' = w ∧ exists e, r = Raise e) ∨
  (exists tk p reply,
      w' = logged (EvCompletion tk p reply) w ∧ r = of_reply reply ∧
      tk !! "ability_schema" = Some (VSchema schema) ∧
      tk !! "task" = Some task).
Proof.
  unfold determine_exec_ability. intros H.
  apply bind_inv in H as [(e & H & ->)|([] & w1 & H & H')];
    apply bind_arguments_inv in H as [-> Hc].
  { left; eauto. }
  rewrite bind_gets in H'.
  apply chat_with_model_inv in H' as [?|(rt & p & reply & -> & ->)]; [now left|].
  right. eexists _, p, reply. repeat split.
  - apply lookup_union_Some_l. rewrite lookup_insert_ne by done.
    apply lookup_insert_eq.
  - apply lookup_union_Some_l. apply lookup_insert_eq.
Qed.

Lemma perform_inv ability_name kwargs w r w' :
  perform ability_name kwargs w = (r, w') ->
  (w' = w ∧ r = Raise (UnknownAbilityError ability_name) ∧
   get_ability (_ability_registry (self w)) ability_name = None) ∨
  (exists a fault,
      get_ability (_ability_registry (self w)) ability_name = Some a ∧
      w' = logged (EvInvoke ability_name kwargs) w ∧
      r = Raise (AbilityExecutionError ability_name fault)) ∨
  (exists a res mems,
      get_ability (_ability_registry (self w)) ability_name = Some a ∧
      let action := {| ability_name := ability_name; arguments := kwargs;
                       result := res; get_memories := mems |} in
      w' = logged (EvAction action) (logged (EvInvoke ability_name kwargs) w) ∧
      r = Ok action).
Proof.
  unfold perform. rewrite bind_gets.
  destruct (get_ability _ ability_name) as [a|]; intros H.
  2:{ inversion H; subst. left; eauto. }
  right. unfold emit, now in H. rewrite bind_modify, bind_gets in H.
  destruct (body a _ kwargs) as [fault|[res mems]].
  - inversion H; subst. left. eauto.
  - rewrite bind_modify in H. inversion H; subst. right. eexists a, res, mems. eauto.
Qed.

Lemma update_context_eq f w t :
  _current_task (self w) = Some t ->
  update_context f w = (Ok tt, set_heap (alter f (context t)) w).
Proof.
  intros Ht. unfold update_context, current_context_loc.
  unfold mbind, M_bind, bind, gets. rewrite Ht. reflexivity.
Qed.

Lemma _update_tasks_and_memory_eq a w t :
  _current_task (self w) = Some t ->
  _update_tasks_and_memory a w =
    (Ok tt, set_heap (alter (fun c => apply_action c a) (context t)) w).
Proof.
  intros Ht. unfold _update_tasks_and_memory.
  repeat (erewrite bind_ok; [|apply update_context_eq; exact Ht]).
  rewrite (update_context_eq _ _ t) by exact Ht.
  f_equal. unfold set_heap; simpl. f_equal.
  now rewrite !alter_alter.
Qed.

Lemma _update_tasks_and_memory_None a w :
  _current_task (self w) = None ->
  _update_tasks_and_memory a w = (Raise (AttributeError "context"), w).
Proof.
  intros Ht. unfold _update_tasks_and_memory, update_context, current_context_loc.
  unfold mbind, M_bind, bind, gets. rewrite Ht. reflexivity.
Qed.

Lemma read_context_inv w r w' :
  read_context w = (r, w') -> w' = w.
Proof.
  unfold read_context, current_context_loc, mbind, M_bind, bind, gets.
  destruct (_current_task (self w)); simpl; [|intros H; now inversion H].
  destruct (heap w !! _); intros H; now inversion H.
Qed.

Lemma append_current_task_inv f w r w' :
  (forall t p, frame (f t p) = frame p) ->
  append_current_task f w = (r, w') ->
  log w' = log w ∧ heap w' = heap w ∧ frame (self w') = frame (self w).
Proof.
  intros Hf. unfold append_current_task. rewrite bind_gets.
  destruct (_current_task (self w)); intros H; inversion H; subst; simpl; auto.
Qed.

Lemma step_silent w w1 w' evs :
  step w w1 evs ->
  log w' = log w1 -> heap w' = heap w1 -> frame (self w') = frame (self w1) ->
  step w w' evs.
Proof. intros (? & ? & ?) ? ? ?. repeat split; congruence. Qed.

Lemma step_logged w ev :
  performed [ev] = [] -> step w (logged ev w) [ev].
Proof.
  intros Hp. split; [reflexivity|]. split; [|reflexivity].
  rewrite Hp, fold_into_nil. reflexivity.
Qed.

Lemma once_nil schema : at_most_once schema [].
Proof. repeat split; simpl; auto. Qed.

Lemma once_completion schema tk p reply :
  tk !! "ability_schema" = Some schema ->
  at_most_once schema [EvCompletion tk p reply].
Proof.
  intros Hs. unfold at_most_once, offered, named, invoked. simpl. rewrite Hs.
  split; [now right|]. split; [now left|].
  destruct reply as [e|response]; simpl; [lia|].
  destruct (next_ability response); simpl; lia.
Qed.

Lemma once_invoked schema tk p response next args rest :
  tk !! "ability_schema" = Some schema ->
  next_ability response = Some next ->
  offered rest = [] -> named rest = [] -> invoked rest = [] ->
  at_most_once schema
    (EvCompletion tk p (inr response) :: EvInvoke next args :: rest).
Proof.
  intros Hs Hn Ho Hm Hi. unfold at_most_once.
  change (EvCompletion tk p (inr response) :: EvInvoke next args :: rest)
    with ([EvCompletion tk p (inr response)] ++ [EvInvoke next args] ++ rest).
  rewrite !offered_app, !named_app, !invoked_app, Ho, Hm, Hi.
  unfold offered, named, invoked. simpl. rewrite Hs, Hn. simpl.
  split; [now right|]. split; [now right|lia].
Qed.

(** One call of [perform_ability]: what it logs, and what it has done when
    it returns an action. *)
Lemma perform_ability_step task schema kwargs w r w' :
  perform_ability host task schema kwargs w = (r, w') ->
  exists evs,
    step w w' evs ∧
    at_most_once (VSchema schema) evs ∧
    forall a, r = Ok a ->
      performed evs = [a] ∧ invoked evs = [ability_name a] ∧
      named evs = [ability_name a] ∧ offered evs = [VSchema schema].
Proof.
  unfold perform_ability. intros H.
  apply bind_inv in H as [(e & H & ->)|([] & w1 & H & H')];
    apply bind_arguments_inv in H as [-> Hc].
  { exists []. split; [apply step_refl|]. split; [apply once_nil|discriminate]. }
  rewrite bind_gets in H'.
  assert (Hsame :
    (if decide (_execution_nature (self w) = AUTO)
     then determine_next_ability host task schema kwargs
     else determine_exec_ability host task schema kwargs)
    = determine_exec_ability host task schema kwargs)
    by (destruct (decide _); reflexivity).
  rewrite Hsame in H'. clear Hsame. rename H' into H.
  apply bind_inv in H as [(e & H & ->)|(response & w1 & H & H')].
  { apply determine_exec_ability_inv in H
      as [[-> _]|(tk & p & reply & -> & _ & Hs & _)].
    - exists []. split; [apply step_refl|]. split; [apply once_nil|discriminate].
    - eexists [_]. split; [now apply step_logged|].
      split; [now apply once_completion|discriminate]. }
  apply determine_exec_ability_inv in H
    as [[_ [e ?]]|(tk & p & reply & -> & Hr & Hs & _)]; [discriminate|].
  destruct reply as [e|response']; simpl in Hr; [discriminate|].
  inversion Hr; subst response'; clear Hr.
  set (ec := EvCompletion tk p (inr response)) in *.
  assert (Hec : step w (logged ec w) [ec]) by now apply step_logged.
  assert (Hoc : at_most_once (VSchema schema) [ec]) by now apply once_completion.
  simpl in H'. destruct (next_ability response) as [next|] eqn:Hnext.
  2:{ inversion H'; subst. eexists; split; [exact Hec|].
      split; [exact Hoc|discriminate]. }
  apply bind_inv in H' as [(e & H & ->)|(a & w2 & H & H')].
  { apply perform_inv in H as [(-> & _)|[(b & fault & _ & -> & _)|(? & ? & ? & _ & _ & ?)]];
      [| |discriminate].
    - eexists; split; [exact Hec|]. split; [exact Hoc|discriminate].
    - eexists (_ ++ [_]).
      split; [eapply step_trans; [exact Hec|]; now apply step_logged|].
      split; [|discriminate]. now apply once_invoked. }
  apply perform_inv in H as [(_ & ? & _)|[(? & ? & _ & _ & ?)|(b & res & mems & _ & -> & Ha)]];
    [discriminate|discriminate|].
  inversion Ha; subst a; clear Ha.
  set (a := {| ability_name := next; arguments := default ∅ (ability_arguments response);
               result := res; get_memories := mems |}) in *.
  set (ei := EvInvoke next (default ∅ (ability_arguments response))) in *.
  assert (Hoa : at_most_once (VSchema schema) [ec; ei; EvAction a])
    by now apply once_invoked.
  exists [ec; ei; EvAction a].
  destruct (_current_task (self w)) as [t|] eqn:Ht.
  2:{ rewrite bind_raise with (e := AttributeError "context")
              (w1 := logged (EvAction a) (logged ei (logged ec w))) in H'
        by now apply _update_tasks_and_memory_None.
      inversion H'; subst. split; [|split; [exact Hoa|discriminate]].
      split; [simpl; now rewrite <- !app_assoc|]. split; [|reflexivity].
      unfold fold_into. now rewrite Ht. }
  erewrite bind_ok in H' by now apply (_update_tasks_and_memory_eq _ _ t).
  set (w3 := set_heap _ _) in H'.
  assert (Hw3 : step w w3 [ec; ei; EvAction a]).
  { split; [simpl; now rewrite <- !app_assoc|]. split; [|reflexivity].
    unfold fold_into. now rewrite Ht. }
  apply bind_inv in H' as [(e & H & ->)|(c & w4 & H & H')];
    apply read_context_inv in H as ->.
  { split; [exact Hw3|]. split; [exact Hoa|discriminate]. }
  apply bind_inv in H' as [(e & H & ->)|([] & w5 & H & H')].
  - split; [|split; [exact Hoa|discriminate]]. destruct (decide _);
      apply append_current_task_inv in H as (? & ? & ?); try (intros; reflexivity);
      eapply step_silent; eauto.
  - inversion H'; subst. split; [|split; [exact Hoa|]].
    + destruct (decide _);
        apply append_current_task_inv in H as (? & ? & ?); try (intros; reflexivity);
        eapply step_silent; eauto.
    + intros a' Ha'. inversion Ha'; subst a'. unfold named, offered, ec. simpl.
      rewrite Hnext, Hs. auto.
Qed.

Lemma for_each_step task kwargs l w r w' :
  for_each (fun ability => perform_ability host task [dump ability] kwargs) l w
    = (r, w') ->
  exists evs, step w w' evs ∧ forall acts, r = Ok acts -> one_by_one l evs acts.
Proof.
  revert w r w'. induction l as [|b l IH]; intros w r w' H; simpl in H.
  { inversion H; subst. exists []. split; [apply step_refl|].
    intros acts Ha; inversion Ha; subst. now repeat split. }
  apply bind_inv in H as [(e & H & ->)|(a & w1 & H & H')];
    apply perform_ability_step in H as (evs1 & Hs1 & _ & Ha1).
  { exists evs1. split; [exact Hs1|discriminate]. }
  apply bind_inv in H' as [(e & H & ->)|(acts & w2 & H & H')];
    apply IH in H as (evs2 & Hs2 & Ha2).
  { exists (evs1 ++ evs2). split; [eapply step_trans; eauto|discriminate]. }
  inversion H'; subst. exists (evs1 ++ evs2). split; [eapply step_trans; eauto|].
  intros acts' Hacts; inversion Hacts; subst acts'.
  destruct (Ha1 a eq_refl) as (Hp & Hi & Hn & Ho).
  destruct (Ha2 acts eq_refl) as (Hp' & Hi' & Hn' & Ho' & Hlen).
  unfold one_by_one.
  rewrite performed_app, invoked_app, named_app, offered_app.
  rewrite Hp, Hi, Hn, Ho, Hp', Hi', Hn', Ho'. simpl. now rewrite Hlen.
Qed.

(** *** The stretches of a call *)

Lemma chat_with_model_call_inv strategy kwargs w r w' :
  chat_with_model_call host strategy kwargs w = (r, w') ->
  (w' = w ∧ exists e, r = Raise e) ∨
  (exists rt p reply,
      w' = logged (EvCompletion (kwargs ∪ rt) p reply) w ∧ r = Ok reply).
Proof.
  unfold chat_with_model_call.
  destruct (first_clash ["self"; "prompt_strategy"] kwargs) as [c|] eqn:Hc.
  { unfold bind_arguments. rewrite Hc. intros H. inversion H; subst. left; eauto. }
  rewrite (bind_ok _ _ _ _ _ (bind_arguments_ok _ _ _ Hc)), bind_gets.
  destruct (dict_get (model_classification strategy)
              (models (_configuration (self w)))) as [mc|].
  2:{ intros H; inversion H; subst. left; eauto. }
  rewrite bind_gets.
  destruct (dict_get (model_classification strategy) (_providers (self w)))
    as [provider|] eqn:Hp.
  2:{ intros H; inversion H; subst. left; eauto. }
  unfold _make_template_kwargs_for_strategy.
  unfold mbind, M_bind, bind, gets, now, lift, emit, modify. simpl. rewrite Hp. simpl.
  destruct (build_prompt strategy (heap w) _) as [e|p]; simpl;
    intros H; inversion H; subst.
  - left; eauto.
  - right; eauto.
Qed.

(** [chat_with_model] is its call followed by the reply of the provider. *)
Lemma chat_with_model_call_reply strategy kwargs w :
  chat_with_model host strategy kwargs w
  = (chat_with_model_call host strategy kwargs ≫= lift) w.
Proof.
  unfold chat_with_model, chat_with_model_call.
  destruct (first_clash ["self"; "prompt_strategy"] kwargs) as [c|] eqn:Hc.
  { unfold bind_arguments, mbind, M_bind, bind. now rewrite Hc. }
  unfold bind_arguments. rewrite Hc.
  unfold _make_template_kwargs_for_strategy.
  unfold mbind, M_bind, bind, gets, now, lift, emit, modify, mret, M_ret, ret, raise.
  simpl.
  destruct (dict_get (model_classification strategy)
              (models (_configuration (self w)))) as [mc|]; [|reflexivity].
  destruct (dict_get (model_classification strategy) (_providers (self w)))
    as [provider|] eqn:Hp; [|reflexivity].
  rewrite Hp. simpl.
  destruct (build_prompt strategy (heap w) _) as [e|p]; reflexivity.
Qed.

Lemma perform_call_result ability_name kwargs w :
  perform ability_name kwargs w
  = (perform_call ability_name kwargs ≫= perform_result ability_name kwargs) w.
Proof.
  unfold perform, perform_call, perform_result.
  unfold mbind, M_bind, bind, gets, now, lift, emit, modify, mret, M_ret, ret, raise.
  simpl.
  destruct (get_ability _ ability_name) as [a|]; [|reflexivity].
  simpl. destruct (body a _ kwargs) as [fault|[res mems]]; reflexivity.
Qed.

Lemma bind_assoc_at {A B C} (m : M A) (f : A -> M B) (g : B -> M C) w :
  ((m ≫= f) ≫= g) w = (m ≫= (fun a => f a ≫= g)) w.
Proof. unfold mbind, M_bind, bind. now destruct (m w) as [[a|e] w1]. Qed.

Lemma bind_ext_at {A B} (m m' : M A) (f g : A -> M B) w :
  (forall w1, m w1 = m' w1) -> (forall a w1, f a w1 = g a w1) ->
  (m ≫= f) w = (m' ≫= g) w.
Proof.
  intros Hm Hf. unfold mbind, M_bind, bind. rewrite Hm.
  destruct (m' w) as [[a|e] w1]; [apply Hf|reflexivity].
Qed.

(** [perform_ability] is its three stretches in a row. *)
Lemma perform_ability_stretches task schema kwargs w :
  perform_ability host task schema kwargs w
  = (reply ← to_model host task schema kwargs;
     '(next, ability_args, outcome) ← to_ability reply;
     to_end next ability_args outcome) w.
Proof.
  set (rest := fun reply : Exn + LanguageModelResponse =>
                 '(next, ability_args, outcome) ← to_ability reply;
                 to_end next ability_args outcome).
  set (after := fun response : LanguageModelResponse =>
                  match next_ability response with
                  | None => raise (KeyError "next_ability")
                  | Some next =>
                      ability_action ←
                        perform next (default ∅ (ability_arguments response));
                      _ ← _update_tasks_and_memory ability_action;
                      c ← read_context;
                      _ ← (if decide (status c = DONE)
                           then append_current_task append_completed_tasks
                           else append_current_task append_task_queue);
                      mret ability_action
                  end).
  assert (Hrest : forall (reply : Exn + LanguageModelResponse) w1,
            (lift reply ≫= after) w1 = rest reply w1).
  { intros reply w1. unfold rest, to_ability, after. rewrite bind_assoc_at.
    apply bind_ext_at; [reflexivity|]. intros response w2.
    destruct (next_ability response) as [next|]; [|reflexivity].
    rewrite bind_assoc_at. unfold to_end.
    etransitivity.
    { apply bind_ext_at; [apply perform_call_result|reflexivity]. }
    rewrite bind_assoc_at. apply bind_ext_at; [reflexivity|].
    intros outcome w3. reflexivity. }
  assert (Hchat : forall strategy kw w1,
            (chat_with_model host strategy kw ≫= after) w1
            = (chat_with_model_call host strategy kw ≫= rest) w1).
  { intros strategy kw w1. etransitivity.
    { apply bind_ext_at; [apply chat_with_model_call_reply|reflexivity]. }
    rewrite bind_assoc_at. apply bind_ext_at; [reflexivity|]. exact Hrest. }
  unfold perform_ability, to_model. fold after. fold rest. rewrite !bind_assoc_at.
  apply bind_ext_at; [reflexivity|]. intros _ w1. rewrite bind_assoc_at.
  apply bind_ext_at; [reflexivity|]. intros nature w2.
  destruct (decide (nature = AUTO));
    unfold determine_next_ability, determine_exec_ability,
      determine_next_ability_call, determine_exec_ability_call;
    rewrite !bind_assoc_at;
    (apply bind_ext_at; [reflexivity|]); intros _ w3; rewrite !bind_assoc_at;
    (apply bind_ext_at; [reflexivity|]); intros strategy w4; apply Hchat.
Qed.

Lemma to_model_inv task schema kwargs w r w' :
  to_model host task schema kwargs w = (r, w') ->
  (w' = w ∧ exists e, r = Raise e) ∨
  (exists rt p reply,
     first_clash ["self"; "task"; "ability_schema"] kwargs = None ∧
     w' = logged (EvCompletion
                    (<["task" := task]>
                       (<["ability_schema" := VSchema schema]> kwargs) ∪ rt)
                    p reply) w ∧
     r = Ok reply).
Proof.
  unfold to_model. intros H.
  apply bind_inv in H as [(e & H & ->)|([] & w1 & H & H')];
    apply bind_arguments_inv in H as [-> [[? Hc]|(p & ? & Hc)]]; try discriminate.
  { left; eauto. }
  rewrite bind_gets in H'.
  assert (Hd : determine_exec_ability_call host task schema kwargs w = (r, w')).
  { destruct (decide _); exact H'. }
  clear H'. unfold determine_exec_ability_call in Hd.
  rewrite (bind_ok _ _ _ _ _ (bind_arguments_ok _ _ _ Hc)), bind_gets in Hd.
  apply chat_with_model_call_inv in Hd as [?|(rt & p & reply & -> & ->)];
    [now left|].
  right. exists rt, p, reply. auto.
Qed.

Lemma perform_call_inv ability_name kwargs w r w' :
  perform_call ability_name kwargs w = (r, w') ->
  (w' = w ∧ r = Raise (UnknownAbilityError ability_name)) ∨
  (exists outcome, w' = logged (EvInvoke ability_name kwargs) w ∧ r = Ok outcome).
Proof.
  unfold perform_call. rewrite bind_gets.
  destruct (get_ability _ ability_name) as [a|]; intros H.
  2:{ inversion H; subst. now left. }
  unfold emit, now in H. rewrite bind_modify, bind_gets in H.
  inversion H; subst. right. eauto.
Qed.

Lemma to_ability_inv reply w r w' :
  to_ability reply w = (r, w') ->
  (w' = w ∧ exists e, r = Raise e) ∨
  (exists response next outcome,
     reply = inr response ∧ next_ability response = Some next ∧
     w' = logged (EvInvoke next (default ∅ (ability_arguments response))) w ∧
     r = Ok (next, default ∅ (ability_arguments response), outcome)).
Proof.
  unfold to_ability. intros H.
  apply bind_inv in H as [(e & H & ->)|(response & w1 & H & H')];
    destruct reply as [e'|response']; inversion H; subst; clear H.
  { left; eauto. }
  destruct (next_ability response) as [next|] eqn:Hn.
  2:{ inversion H'; subst. left; eauto. }
  apply bind_inv in H' as [(e & H & ->)|(outcome & w2 & H & H')];
    apply perform_call_inv in H as [(-> & Hr)|(outcome' & -> & Hr)];
    try discriminate.
  { left; eauto. }
  inversion Hr; subst outcome'. inversion H'; subst.
  right. exists response, next, outcome. auto.
Qed.

Lemma bind_mret_at {A B} (a : A) (k : A -> M B) w : (mret a ≫= k) w = k a w.
Proof. reflexivity. Qed.

Lemma to_end_inv next ability_args outcome w r w' :
  to_end next ability_args outcome w = (r, w') ->
  (w' = w ∧ exists e, r = Raise e) ∨
  (exists res mems,
     outcome = inr (res, mems) ∧
     let a := {| ability_name := next; arguments := ability_args;
                 result := res; get_memories := mems |} in
     step w w' [EvAction a] ∧ (r = Ok a ∨ exists e, r = Raise e)).
Proof.
  unfold to_end, perform_result. intros H.
  destruct outcome as [fault|[res mems]].
  { inversion H; subst. left; eauto. }
  right. exists res, mems. split; [reflexivity|]. simpl.
  set (a := {| ability_name := next; arguments := ability_args;
               result := res; get_memories := mems |}) in *.
  unfold emit in H. rewrite bind_assoc_at, bind_modify in H.
  rewrite bind_mret_at in H.
  destruct (_current_task (self w)) as [t|] eqn:Ht.
  2:{ rewrite bind_raise with (e := AttributeError "context")
              (w1 := logged (EvAction a) w) in H
        by now apply _update_tasks_and_memory_None.
      inversion H; subst. split; [|right; eauto].
      split; [reflexivity|]. split; [|reflexivity].
      unfold fold_into. now rewrite Ht. }
  erewrite bind_ok in H by now apply (_update_tasks_and_memory_eq _ _ t).
  set (w3 := set_heap _ _) in H.
  assert (Hw3 : step w w3 [EvAction a]).
  { split; [reflexivity|]. split; [|reflexivity].
    unfold fold_into. now rewrite Ht. }
  apply bind_inv in H as [(e & H & ->)|(c & w4 & H & H')];
    apply read_context_inv in H as ->.
  { split; [exact Hw3|right; eauto]. }
  apply bind_inv in H' as [(e & H & ->)|([] & w5 & H & H')].
  - split; [|right; eauto]. destruct (decide _);
      apply append_current_task_inv in H as (? & ? & ?); try (intros; reflexivity);
      eapply step_silent; eauto.
  - inversion H'; subst. split; [|now left].
    destruct (decide _);
      apply append_current_task_inv in H as (? & ? & ?); try (intros; reflexivity);
      eapply step_silent; eauto.
Qed.

(** One stretch of a coroutine: what it logs, and what it has settled of
    what the coroutine owed when it has not raised. *)
Lemma resume_step c w r w' :
  resume host c w = (r, w') ->
  exists evs,
    step w w' evs ∧
    forall c', r = Ok c' ->
      offered evs ++ to_offer (inr c') = to_offer (inr c) ∧
      named evs ++ to_invoke (inr c) = invoked evs ++ to_invoke (inr c') ∧
      invoked evs ++ to_perform (inr c)
      = (ability_name <$> performed evs) ++ to_perform (inr c') ∧
      performed evs ++ ended (inr c) = ended (inr c').
Proof.
  destruct c as [task schema kwargs|reply|next args outcome|a]; simpl; intros H.
  - apply bind_inv in H as [(e & H & ->)|(reply & w1 & H & H')];
      apply to_model_inv in H
        as [(-> & e' & Hr)|(rt & p & reply' & Hc & -> & Hr)]; try discriminate.
    + exists []. split; [apply step_refl|discriminate].
    + inversion Hr; subst reply'. inversion H'; subst. eexists [_].
      split; [now apply step_logged|].
      intros c' Hc'; inversion Hc'; subst c'. unfold offered, named. simpl.
      rewrite lookup_union_l', lookup_insert_ne, lookup_insert_eq by
        (done || (rewrite lookup_insert_ne, lookup_insert_eq by done; eauto)).
      destruct reply as [e|response]; simpl; [auto|].
      destruct (next_ability response); simpl; auto.
  - apply bind_inv in H as [(e & H & ->)|([[next args] outcome] & w1 & H & H')];
      apply to_ability_inv in H
        as [(-> & e' & Hr)|(response & next' & outcome' & -> & Hn & -> & Hr)];
      try discriminate.
    + exists []. split; [apply step_refl|discriminate].
    + inversion Hr; subst. inversion H'; subst. eexists [_].
      split; [now apply step_logged|].
      intros c' Hc'; inversion Hc'; subst c'. simpl. now rewrite Hn.
  - apply bind_inv in H as [(e & H & ->)|(a & w1 & H & H')];
      apply to_end_inv in H
        as [(-> & e' & Hr)|(res & mems & -> & Hs & Hr)]; try discriminate.
    + exists []. split; [apply step_refl|discriminate].
    + eexists [_]. split; [exact Hs|discriminate].
    + destruct Hr as [Hr|[? ?]]; [|discriminate]. inversion Hr; subst a.
      inversion H'; subst. eexists [_]. split; [exact Hs|].
      intros c' Hc'; inversion Hc'; subst c'. simpl. auto.
  - inversion H; subst. exists []. split; [apply step_refl|].
    intros c' Hc'; inversion Hc'; subst c'. simpl. auto.
Qed.

(** *** The event loop *)

Lemma drive_app s1 s2 pool failure w :
  drive host (s1 ++ s2) pool failure w =
    let '(pool1, failure1, w1) := drive host s1 pool failure w in
    drive host s2 pool1 failure1 w1.
Proof.
  revert pool failure w. induction s1 as [|i s1 IH]; intros pool failure w;
    simpl; [reflexivity|].
  destruct (pool !! i) as [[e|c]|]; [apply IH| |apply IH].
  destruct (resume host c w) as [[c'|e] w1]; apply IH.
Qed.

(** Once a coroutine has raised, the failure stays. *)
Lemma drive_failed schedule pool e w :
  exists e', (drive host schedule pool (Some e) w).1.2 = Some e'.
Proof.
  revert pool w. induction schedule as [|i s IH]; intros pool w; simpl; [eauto|].
  destruct (pool !! i) as [[e0|c]|]; [apply IH| |apply IH].
  destruct (resume host c w) as [[c'|e0] w1]; apply IH.
Qed.

Lemma drive_unfailed schedule pool failure w pool' w' :
  drive host schedule pool failure w = (pool', None, w') -> failure = None.
Proof.
  destruct failure as [e|]; [|reflexivity]. intros H.
  destruct (drive_failed schedule pool e w) as [e' He']. rewrite H in He'.
  discriminate.
Qed.

Lemma bind_insert {A B} (f : A -> list B) (pool : list A) i x y :
  pool !! i = Some x ->
  exists rest, pool ≫= f ≡ₚ f x ++ rest ∧ <[i := y]> pool ≫= f ≡ₚ f y ++ rest.
Proof.
  revert i. induction pool as [|z pool IH]; intros [|i] Hi; try discriminate.
  - inversion Hi; subst. exists (pool ≫= f).
    change (<[0%nat := y]> (x :: pool)) with (y :: pool).
    rewrite !bind_cons. split; reflexivity.
  - destruct (IH i Hi) as (rest & H1 & H2). exists (f z ++ rest).
    change (<[S i := y]> (z :: pool)) with (z :: <[i := y]> pool).
    rewrite !bind_cons, H1, H2. split; solve_Permutation.
Qed.

(** The event loop at work: what is logged, and what is settled when no
    coroutine has raised. *)
Lemma drive_step schedule pool failure w pool' failure' w' :
  drive host schedule pool failure w = (pool', failure', w') ->
  exists evs,
    step w w' evs ∧ length pool' = length pool ∧
    (failure' = None ->
     (Forall (fun slot => exists c, slot = inr c) pool ->
      Forall (fun slot => exists c, slot = inr c) pool') ∧
     forall schemas evs0,
       settled schemas pool evs0 -> settled schemas pool' (evs0 ++ evs)).
Proof.
  revert pool failure w. induction schedule as [|i s IH]; intros pool failure w H;
    simpl in H.
  { inversion H; subst. exists []. split; [apply step_refl|].
    split; [reflexivity|]. intros _. split; [auto|].
    intros schemas evs0. now rewrite app_nil_r. }
  destruct (pool !! i) as [[e|c]|] eqn:Hi; [now apply IH in H| |now apply IH in H].
  destruct (resume host c w) as [[c'|e] w1] eqn:Hr;
    apply resume_step in Hr as (evs1 & Hs1 & Hacc);
    pose proof H as H0; apply IH in H as (evs2 & Hs2 & Hlen & Hnone).
  - exists (evs1 ++ evs2). split; [eapply step_trans; eauto|].
    split; [now rewrite Hlen, length_insert|].
    intros Hf. destruct (Hnone Hf) as [Halive Hset]. split.
    { intros Hall. apply Halive. apply Forall_insert; eauto. }
    intros schemas evs0 (Ho & Hn & Hv & Hp). rewrite app_assoc. apply Hset.
    destruct (Hacc c' eq_refl) as (Ao & An & Av & Ap).
    destruct (bind_insert to_offer pool i (inr c) (inr c') Hi) as (ro & Ho1 & Ho2).
    destruct (bind_insert to_invoke pool i (inr c) (inr c') Hi) as (rn & Hn1 & Hn2).
    destruct (bind_insert to_perform pool i (inr c) (inr c') Hi) as (rv & Hv1 & Hv2).
    destruct (bind_insert ended pool i (inr c) (inr c') Hi) as (rp & Hp1 & Hp2).
    unfold settled.
    rewrite offered_app, named_app, invoked_app, performed_app, fmap_app.
    rewrite Ho2, Hn2, Hv2, Hp2.
    rewrite Ho1 in Ho. rewrite Hn1 in Hn. rewrite Hv1 in Hv. rewrite Hp1 in Hp.
    rewrite <- Ao in Ho. rewrite <- Ap.
    repeat split.
    + rewrite <- Ho. solve_Permutation.
    + rewrite Hn.
      transitivity (invoked evs0 ++ rn ++ (named evs1 ++ to_invoke (inr c)));
        [solve_Permutation|]. rewrite An. solve_Permutation.
    + rewrite Hv.
      transitivity ((ability_name <$> performed evs0) ++ rv
                    ++ (invoked evs1 ++ to_perform (inr c)));
        [solve_Permutation|]. rewrite Av. solve_Permutation.
    + rewrite Hp. solve_Permutation.
  - exists (evs1 ++ evs2). split; [eapply step_trans; eauto|].
    split; [now rewrite Hlen, length_insert|].
    intros Hf. exfalso. subst failure'.
    apply drive_unfailed in H0. now destruct failure.
Qed.

Lemma resume_next c w c' w' :
  resume host c w = (Ok c', w') ->
  match c with
  | Fresh _ _ _ => exists reply, c' = AwaitingModel reply
  | AwaitingModel _ => exists next args outcome, c' = AwaitingAbility next args outcome
  | AwaitingAbility _ _ _ => exists a, c' = Finished a
  | Finished a => c' = Finished a ∧ w' = w
  end.
Proof.
  destruct c as [task schema kwargs|reply|next args outcome|a]; simpl; intros H.
  - apply bind_inv in H as [(e & _ & ?)|(reply & w1 & _ & H)]; [discriminate|].
    inversion H; eauto.
  - apply bind_inv in H as [(e & _ & ?)|([[next args] outcome] & w1 & _ & H)];
      [discriminate|]. inversion H; eauto.
  - apply bind_inv in H as [(e & _ & ?)|(a & w1 & _ & H)]; [discriminate|].
    inversion H; eauto.
  - inversion H; auto.
Qed.

Lemma drive_keeps_finished schedule pool failure w pool' failure' w' i a :
  drive host schedule pool failure w = (pool', failure', w') ->
  pool !! i = Some (inr (Finished a)) -> pool' !! i = Some (inr (Finished a)).
Proof.
  revert pool failure w. induction schedule as [|j s IH]; intros pool failure w H Hi;
    simpl in H.
  { inversion H; subst. exact Hi. }
  destruct (pool !! j) as [[e|c]|] eqn:Hj; [exact (IH _ _ _ H Hi)| |exact (IH _ _ _ H Hi)].
  destruct (decide (j = i)) as [->|Hne].
  - rewrite Hi in Hj. inversion Hj; subst c. simpl in H.
    apply (IH _ _ _ H). rewrite list_lookup_insert_eq; [reflexivity|].
    now apply lookup_lt_Some in Hi.
  - destruct (resume host c w) as [[c'|e] w1];
      apply (IH _ _ _ H); now rewrite list_lookup_insert_ne.
Qed.

Lemma drive_thrice pool w pool' w' i :
  drive host [i; i; i] pool None w = (pool', None, w') ->
  Forall (fun slot => exists c, slot = inr c) pool -> (i < length pool)%nat ->
  exists a, pool' !! i = Some (inr (Finished a)).
Proof.
  intros H Hall Hi.
  assert (Hone : forall s pool0 w0 c,
            pool0 !! i = Some (inr c) ->
            drive host (i :: s) pool0 None w0 = (pool', None, w') ->
            exists c' w1,
              resume host c w0 = (Ok c', w1) ∧
              <[i := inr c']> pool0 !! i = Some (inr c') ∧
              drive host s (<[i := inr c']> pool0) None w1 = (pool', None, w')).
  { intros s pool0 w0 c Hc Hd. simpl in Hd. rewrite Hc in Hd.
    destruct (resume host c w0) as [[c'|e] w1].
    - exists c', w1. split; [reflexivity|]. split; [|exact Hd].
      apply list_lookup_insert_eq. now apply lookup_lt_Some in Hc.
    - apply drive_unfailed in Hd. discriminate. }
  destruct (lookup_lt_is_Some_2 pool i Hi) as [slot Hslot].
  rewrite Forall_forall in Hall.
  destruct (Hall slot (list_elem_of_lookup_2 _ _ _ Hslot)) as [c0 ->].
  destruct (Hone _ _ _ _ Hslot H) as (c1 & w1 & Hr1 & Hl1 & H1).
  destruct (Hone _ _ _ _ Hl1 H1) as (c2 & w2 & Hr2 & Hl2 & H2).
  destruct (Hone _ _ _ _ Hl2 H2) as (c3 & w3 & Hr3 & Hl3 & H3).
  simpl in H3. inversion H3; subst. clear H3.
  apply resume_next in Hr1, Hr2, Hr3. rewrite Hl3.
  destruct c0; simpl in Hr1;
    first [destruct Hr1 as [-> _]|destruct Hr1 as (? & ? & ? & ->)
          |destruct Hr1 as [? ->]];
    simpl in Hr2;
    first [destruct Hr2 as [-> _]|destruct Hr2 as (? & ? & ? & ->)
          |destruct Hr2 as [? ->]];
    simpl in Hr3;
    first [destruct Hr3 as [-> _]|destruct Hr3 as (? & ? & ? & ->)
          |destruct Hr3 as [? ->]];
    eauto.
Qed.

Lemma drive_seq m k pool w pool' w' :
  drive host (i ← seq k m; [i; i; i]) pool None w = (pool', None, w') ->
  Forall (fun slot => exists c, slot = inr c) pool ->
  forall i, (k <= i < k + m)%nat -> (i < length pool)%nat ->
    exists a, pool' !! i = Some (inr (Finished a)).
Proof.
  revert k pool w. induction m as [|m IH]; intros k pool w H Hall i Hi Hlen;
    [lia|].
  change (seq k (S m)) with (k :: seq (S k) m) in H. rewrite bind_cons in H.
  rewrite drive_app in H.
  destruct (drive host [k; k; k] pool None w) as [[pool1 failure1] w1] eqn:H1.
  pose proof (drive_unfailed _ _ _ _ _ _ H) as ->.
  destruct (drive_step _ _ _ _ _ _ _ H1) as (evs1 & _ & Hlen1 & Hnone).
  destruct (Hnone eq_refl) as [Halive _].
  destruct (decide (i = k)) as [->|Hne].
  - destruct (drive_thrice _ _ _ _ _ H1 Hall Hlen) as [a Ha].
    exists a. exact (drive_keeps_finished _ _ _ _ _ _ _ _ _ H Ha).
  - apply (IH (S k) pool1 w1 H (Halive Hall) i); lia.
Qed.

Lemma fresh_pool_settled task kwargs (l : list Ability) :
  settled ((fun a => VSchema [dump a]) <$> l)
    (inr <$> ((fun ability => Fresh task [dump ability] kwargs) <$> l)) [].
Proof.
  unfold settled. simpl.
  assert (H : forall (l : list Ability),
            (inr <$> ((fun ability => Fresh task [dump ability] kwargs) <$> l))
              ≫= to_offer = (fun a => VSchema [dump a]) <$> l
            ∧ (inr <$> ((fun ability => Fresh task [dump ability] kwargs) <$> l))
                ≫= to_invoke = []
            ∧ (inr <$> ((fun ability => Fresh task [dump ability] kwargs) <$> l))
                ≫= to_perform = []
            ∧ (inr <$> ((fun ability => Fresh task [dump ability] kwargs) <$> l))
                ≫= ended = []).
  { clear l. induction l as [|a l (IH1 & IH2 & IH3 & IH4)]; [now repeat split|].
    rewrite !fmap_cons, !bind_cons, IH1, IH2, IH3, IH4. now repeat split. }
  destruct (H l) as (-> & -> & -> & ->). now repeat split.
Qed.

Lemma finished_pool (pool : list (Exn + Coroutine)) :
  (forall i, (i < length pool)%nat ->
     exists a, pool !! i = Some (inr (Finished a))) ->
  pool ≫= to_offer = [] ∧ pool ≫= to_invoke = [] ∧ pool ≫= to_perform = [] ∧
  pool ≫= ended = results pool ∧ length (results pool) = length pool.
Proof.
  induction pool as [|slot pool IH]; intros H; [now repeat split|].
  destruct (H 0%nat) as [a Ha]; [simpl; lia|]. simpl in Ha. inversion Ha; subst slot.
  destruct IH as (IH1 & IH2 & IH3 & IH4 & IH5).
  { intros i Hi. apply (H (S i)). simpl. lia. }
  rewrite !bind_cons, IH1, IH2, IH3, IH4.
  change (results (inr (Finished a) :: pool)) with (a :: results pool).
  simpl. rewrite IH5. now repeat split.
Qed.

(** With no coroutine there is nothing to resume. *)
Lemma drive_nil schedule failure w :
  drive host schedule [] failure w = ([], failure, w).
Proof. induction schedule as [|i s IH]; simpl; [reflexivity|exact IH]. Qed.

Lemma gather_nil schedule w : gather host schedule [] w = (Ok [], w).
Proof. unfold gather. now rewrite !drive_nil. Qed.

(** [asyncio.gather] over calls of [perform_ability]: what it logs under
    any schedule, and what it has done when it returns. *)
Lemma gather_step schedule task kwargs l w r w' :
  gather host schedule
    ((fun ability => Fresh task [dump ability] kwargs) <$> l) w = (r, w') ->
  exists evs, step w w' evs ∧ forall acts, r = Ok acts -> all_at_once l evs acts.
Proof.
  unfold gather. intros H.
  destruct (drive host schedule _ None w) as [[pool1 failure1] w1] eqn:H1.
  destruct (drive_step _ _ _ _ _ _ _ H1) as (evs1 & Hs1 & Hlen1 & Hnone1).
  destruct failure1 as [e|].
  { inversion H; subst. exists evs1. split; [exact Hs1|discriminate]. }
  destruct (drive host (to_the_end _) pool1 None w1)
    as [[pool2 failure2] w2] eqn:H2.
  destruct (drive_step _ _ _ _ _ _ _ H2) as (evs2 & Hs2 & Hlen2 & Hnone2).
  destruct failure2 as [e|]; inversion H; subst; clear H;
    exists (evs1 ++ evs2); (split; [exact (step_trans _ _ _ _ _ Hs1 Hs2)|]);
    [discriminate|].
  intros acts Hacts; inversion Hacts; subst acts; clear Hacts.
  destruct (Hnone1 eq_refl) as [Halive1 Hset1].
  destruct (Hnone2 eq_refl) as [_ Hset2].
  pose proof (Hset2 _ _ (Hset1 _ _ (fresh_pool_settled task kwargs l))) as Hset.
  simpl in Hset.
  assert (Hlen : length pool1 = length l)
    by (now rewrite Hlen1, !length_fmap).
  assert (Hfin : forall i, (i < length pool2)%nat ->
            exists a, pool2 !! i = Some (inr (Finished a))).
  { intros i Hi. unfold to_the_end in H2. rewrite !length_fmap in H2.
    apply (drive_seq _ _ _ _ _ _ H2).
    - apply Halive1. rewrite Forall_fmap. apply Forall_true. simpl. eauto.
    - lia.
    - lia. }
  destruct (finished_pool pool2 Hfin) as (Fo & Fn & Fv & Fp & Fl).
  destruct Hset as (Ho & Hn & Hv & Hp).
  rewrite Fo in Ho. rewrite Fn in Hn. rewrite Fv in Hv. rewrite Fp in Hp.
  rewrite !app_nil_r in *.
  unfold all_at_once. repeat split.
  - exact Hp.
  - now rewrite Hv, Hp.
  - now rewrite Hn, Hv, Hp.
  - exact Ho.
  - lia.
Qed.


(** One cycle. *)
Lemma exec_abilities_step task kwargs w r w' :
  exec_abilities host task kwargs w = (r, w') ->
  exists evs,
    step w w' evs ∧
    forall acts, r = Ok acts ->
      match _execution_nature (self w) with
      | AUTO =>
          performed evs = acts ∧
          invoked evs = ability_name <$> acts ∧
          named evs = invoked evs ∧
          offered evs = [VSchema (dump_abilities (_ability_registry (self w)))] ∧
          length acts = 1%nat
      | PARALLEL =>
          all_at_once (abilities (_ability_registry (self w))) evs acts
      | _ =>
          one_by_one (abilities (_ability_registry (self w))) evs acts
      end.
Proof.
  unfold exec_abilities. intros H.
  apply bind_inv in H as [(e & H & ->)|([] & w1 & H & H')];
    apply bind_arguments_inv in H as [-> Hc].
  { exists []. split; [apply step_refl|discriminate]. }
  rewrite !bind_gets in H'.
  destruct (_execution_nature (self w)).
  - apply for_each_step in H' as (evs & ? & ?). exists evs. split; auto.
  - unfold now in H'. rewrite bind_gets in H'.
    apply gather_step in H' as (evs & ? & ?). exists evs. split; auto.
  - apply bind_inv in H' as [(e & H & ->)|(a & w2 & H & H')];
      apply perform_ability_step in H as (evs & Hs & _ & Ha).
    { exists evs. split; [exact Hs|discriminate]. }
    inversion H'; subst. exists evs. split; [exact Hs|].
    intros acts Hacts; inversion Hacts; subst acts.
    destruct (Ha a eq_refl) as (Hp & Hi & Hn & Ho).
    rewrite Hp, Hi, Hn, Ho. now repeat split.
  - apply for_each_step in H' as (evs & ? & ?). exists evs. split; auto.
Qed.

(** One cycle in AUTO mode, however it ends. *)
Lemma exec_abilities_auto task kwargs w r w' evs :
  exec_abilities host task kwargs w = (r, w') ->
  _execution_nature (self w) = AUTO ->
  log w' = log w ++ evs ->
  at_most_once (VSchema (dump_abilities (_ability_registry (self w)))) evs.
Proof.
  unfold exec_abilities. intros H Hn Hlog.
  apply bind_inv in H as [(e & H & ->)|([] & w1 & H & H')];
    apply bind_arguments_inv in H as [-> Hc].
  { assert (evs = []) as ->
      by (apply (app_inv_head (log w)); now rewrite app_nil_r).
    apply once_nil. }
  rewrite !bind_gets, Hn in H'.
  assert (exists r1, perform_ability host task
            (dump_abilities (_ability_registry (self w))) kwargs w = (r1, w'))
    as [r1 H1].
  { apply bind_inv in H' as [(e & H & ->)|(a & w2 & H & H')]; [eauto|].
    inversion H'; subst. eauto. }
  apply perform_ability_step in H1 as (evs1 & (Hlog1 & _) & Hone & _).
  assert (evs = evs1) as -> by (apply (app_inv_head (log w)); congruence).
  exact Hone.
Qed.

(** The loop test never fails for the value [self._current_task] holds. *)
Lemma loop_test w : py_ne_status (current_task_value w) DONE = true.
Proof. unfold current_task_value. now destruct (_current_task (self w)). Qed.

Lemma execute_loop_unfold fuel kwargs w :
  execute_loop host (S fuel) kwargs w =
    match exec_abilities host (current_task_value w) kwargs w with
    | (Ok _, w') => execute_loop host fuel kwargs w'
    | (Raise e, w') => (Raised e, w')
    end.
Proof. simpl. now rewrite loop_test. Qed.

Lemma execute_loop_O kwargs w : execute_loop host 0 kwargs w = (Running, w).
Proof. simpl. now rewrite loop_test. Qed.

(** Any number of cycles. *)
Lemma execute_loop_step fuel kwargs w r w' :
  execute_loop host fuel kwargs w = (r, w') ->
  (exists evs, step w w' evs) ∧ forall v, r <> Returned v.
Proof.
  revert w r w'. induction fuel as [|fuel IH]; intros w r w' H.
  { rewrite execute_loop_O in H. inversion H; subst.
    split; [exists []; apply step_refl|discriminate]. }
  rewrite execute_loop_unfold in H.
  destruct (exec_abilities host _ kwargs w) as [[acts|e] w1] eqn:H1;
    apply exec_abilities_step in H1 as (evs1 & Hs1 & _).
  - apply IH in H as [(evs2 & Hs2) Hr]. split; [|exact Hr].
    exists (evs1 ++ evs2). eapply step_trans; eauto.
  - inversion H; subst. split; [eauto|discriminate].
Qed.

End Runs.

(** ** Attributes that a run does not depend on *)

Section Commutes.

Context (host : Host) (U : SuperTaskPilot -> SuperTaskPilot).

Hypothesis U_models : forall p, models (_configuration (U p)) = models (_configuration p).
Hypothesis U_providers : forall p, _providers (U p) = _providers p.
Hypothesis U_strategy : forall p, _prompt_strategy (U p) = _prompt_strategy p.
Hypothesis U_registry : forall p, _ability_registry (U p) = _ability_registry p.
Hypothesis U_task : forall p, _current_task (U p) = _current_task p.
Hypothesis U_context : forall p, _current_context (U p) = _current_context p.
Hypothesis U_nature : forall p, _execution_nature (U p) = _execution_nature p.
Hypothesis U_completed :
  forall t p, append_completed_tasks t (U p) = U (append_completed_tasks t p).
Hypothesis U_queue :
  forall t p, append_task_queue t (U p) = U (append_task_queue t p).
Hypothesis U_set_task :
  forall t p, set_current_task t (U p) = U (set_current_task t p).
Hypothesis U_set_context :
  forall v p, set_current_context v (U p) = U (set_current_context v p).

#[local] Abbreviation T := (set_self U).

Lemma commutes_ret {A} (a : A) : commutes T (mret a : M A).
Proof. intros w; reflexivity. Qed.
Lemma commutes_raise {A} e : commutes T (@raise A e).
Proof. intros w; reflexivity. Qed.
Lemma commutes_lift {A} (r : Exn + A) : commutes T (lift r).
Proof. intros w; reflexivity. Qed.
Lemma commutes_gets {A} (f : World -> A) :
  (forall w, f (T w) = f w) -> commutes T (gets f).
Proof. intros Hf w. unfold gets. now rewrite Hf. Qed.
Lemma commutes_modify f :
  (forall w, f (T w) = T (f w)) -> commutes T (modify f).
Proof. intros Hf w. unfold modify. now rewrite Hf. Qed.
Lemma commutes_bind {A B} (m : M A) (k : A -> M B) :
  commutes T m -> (forall a, commutes T (k a)) -> commutes T (m ≫= k).
Proof.
  intros Hm Hk w. unfold mbind, M_bind, bind. rewrite Hm.
  destruct (m w) as [[a|e] w1]; simpl; [apply Hk|reflexivity].
Qed.
Lemma commutes_ext {A} (m m' : M A) :
  (forall w, m w = m' w) -> commutes T m' -> commutes T m.
Proof. intros He Hm w. now rewrite !He. Qed.

Lemma commutes_bind_arguments params kwargs :
  commutes T (bind_arguments params kwargs).
Proof.
  unfold bind_arguments. destruct (first_clash _ _);
    [apply commutes_raise|apply commutes_ret].
Qed.

Lemma commutes_emit ev : commutes T (emit ev).
Proof. now apply commutes_modify. Qed.
Lemma commutes_now : commutes T now.
Proof. now apply commutes_gets. Qed.

Lemma commutes_chat_with_model strategy kwargs :
  commutes T (chat_with_model host strategy kwargs).
Proof.
  unfold chat_with_model, _make_template_kwargs_for_strategy.
  apply commutes_bind; [apply commutes_bind_arguments|intros _].
  apply commutes_bind; [apply commutes_gets; intros w; apply U_models|intros ms].
  destruct (dict_get _ ms); [|apply commutes_raise].
  apply commutes_bind; [apply commutes_gets; intros w; apply U_providers|intros ps].
  destruct (dict_get _ ps); [|apply commutes_raise].
  apply commutes_bind.
  { apply commutes_bind; [apply commutes_gets; intros w; apply U_providers|intros ps'].
    destruct (dict_get _ ps'); [|apply commutes_raise].
    apply commutes_bind; [apply commutes_now|intros; apply commutes_ret]. }
  intros tk. apply commutes_bind; [now apply commutes_gets|intros store].
  apply commutes_bind; [apply commutes_lift|intros p].
  apply commutes_bind; [apply commutes_now|intros t].
  apply commutes_bind; [apply commutes_emit|intros _]. apply commutes_lift.
Qed.

Lemma commutes_determine_exec_ability task schema kwargs :
  commutes T (determine_exec_ability host task schema kwargs).
Proof.
  unfold determine_exec_ability.
  apply commutes_bind; [apply commutes_bind_arguments|intros _].
  apply commutes_bind; [apply commutes_gets; intros w; apply U_strategy|intros s].
  apply commutes_chat_with_model.
Qed.

Lemma commutes_perform ability_name kwargs :
  commutes T (perform ability_name kwargs).
Proof.
  unfold perform.
  apply commutes_bind; [apply commutes_gets; intros w; apply U_registry|intros reg].
  destruct (get_ability reg ability_name); [|apply commutes_raise].
  apply commutes_bind; [apply commutes_emit|intros _].
  apply commutes_bind; [apply commutes_now|intros t].
  destruct (body _ t kwargs) as [?|[? ?]]; [apply commutes_raise|].
  apply commutes_bind; [apply commutes_emit|intros _]. apply commutes_ret.
Qed.

Lemma commutes_current_context_loc : commutes T current_context_loc.
Proof.
  unfold current_context_loc.
  apply commutes_bind; [apply commutes_gets; intros w; apply U_task|intros [t|]];
    [apply commutes_ret|apply commutes_raise].
Qed.

Lemma commutes_update_context f : commutes T (update_context f).
Proof.
  unfold update_context.
  apply commutes_bind; [apply commutes_current_context_loc|intros l].
  now apply commutes_modify.
Qed.

Lemma commutes__update_tasks_and_memory a : commutes T (_update_tasks_and_memory a).
Proof.
  unfold _update_tasks_and_memory.
  repeat (apply commutes_bind; [apply commutes_update_context|intros _]).
  apply commutes_update_context.
Qed.

Lemma commutes_read_context : commutes T read_context.
Proof.
  unfold read_context.
  apply commutes_bind; [apply commutes_current_context_loc|intros l].
  apply commutes_bind; [now apply commutes_gets|intros store].
  destruct (store !! l); [apply commutes_ret|apply commutes_raise].
Qed.

Lemma commutes_append_current_task f :
  (forall t p, f t (U p) = U (f t p)) -> commutes T (append_current_task f).
Proof.
  intros Hf. unfold append_current_task.
  apply commutes_bind; [apply commutes_gets; intros w; apply U_task|intros [t|]];
    [|apply commutes_raise].
  apply commutes_modify. intros w. unfold set_self; simpl. now rewrite Hf.
Qed.

(** The part of [perform_ability] that follows the model's reply. *)
Lemma commutes_after_reply (response : LanguageModelResponse) :
  commutes T
    (match next_ability response with
     | None => raise (KeyError "next_ability")
     | Some next =>
         ability_action ← perform next (default ∅ (ability_arguments response));
         _ ← _update_tasks_and_memory ability_action;
         c ← read_context;
         _ ← (if decide (status c = DONE)
              then append_current_task append_completed_tasks
              else append_current_task append_task_queue);
         mret ability_action
     end).
Proof.
  destruct (next_ability response); [|apply commutes_raise].
  apply commutes_bind; [apply commutes_perform|intros a].
  apply commutes_bind; [apply commutes__update_tasks_and_memory|intros _].
  apply commutes_bind; [apply commutes_read_context|intros c].
  apply commutes_bind; [|intros; apply commutes_ret].
  destruct (decide _); now apply commutes_append_current_task.
Qed.

(** [perform_ability] does not depend on the execution nature, though it
    reads it: both branches make the same call. *)
Lemma commutes_perform_ability task schema kwargs :
  commutes T (perform_ability host task schema kwargs).
Proof.
  unfold perform_ability.
  apply commutes_bind; [apply commutes_bind_arguments|intros _].
  eapply commutes_ext.
  { intros w. rewrite bind_gets.
    instantiate (1 := determine_exec_ability host task schema kwargs ≫= _).
    destruct (decide _); reflexivity. }
  apply commutes_bind; [apply commutes_determine_exec_ability|intros response].
  apply commutes_after_reply.
Qed.

Lemma commutes_for_each {A B} (f : A -> M B) l :
  (forall a, commutes T (f a)) -> commutes T (for_each f l).
Proof.
  intros Hf. induction l as [|a l IH]; simpl; [apply commutes_ret|].
  apply commutes_bind; [apply Hf|intros b].
  apply commutes_bind; [apply IH|intros; apply commutes_ret].
Qed.

Lemma commutes_chat_with_model_call strategy kwargs :
  commutes T (chat_with_model_call host strategy kwargs).
Proof.
  unfold chat_with_model_call, _make_template_kwargs_for_strategy.
  apply commutes_bind; [apply commutes_bind_arguments|intros _].
  apply commutes_bind; [apply commutes_gets; intros w; apply U_models|intros ms].
  destruct (dict_get _ ms); [|apply commutes_raise].
  apply commutes_bind; [apply commutes_gets; intros w; apply U_providers|intros ps].
  destruct (dict_get _ ps); [|apply commutes_raise].
  apply commutes_bind.
  { apply commutes_bind; [apply commutes_gets; intros w; apply U_providers|intros ps'].
    destruct (dict_get _ ps'); [|apply commutes_raise].
    apply commutes_bind; [apply commutes_now|intros; apply commutes_ret]. }
  intros tk. apply commutes_bind; [now apply commutes_gets|intros store].
  apply commutes_bind; [apply commutes_lift|intros p].
  apply commutes_bind; [apply commutes_now|intros t].
  apply commutes_bind; [apply commutes_emit|intros _]. apply commutes_ret.
Qed.

Lemma commutes_to_model task schema kwargs :
  commutes T (to_model host task schema kwargs).
Proof.
  unfold to_model.
  apply commutes_bind; [apply commutes_bind_arguments|intros _].
  apply commutes_bind; [apply commutes_gets; intros w; apply U_nature|intros nature].
  destruct (decide _);
    unfold determine_next_ability_call, determine_exec_ability_call;
    (apply commutes_bind; [apply commutes_bind_arguments|intros _]);
    (apply commutes_bind; [apply commutes_gets; intros w; apply U_strategy|intros s]);
    apply commutes_chat_with_model_call.
Qed.

Lemma commutes_to_ability reply : commutes T (to_ability reply).
Proof.
  unfold to_ability. apply commutes_bind; [apply commutes_lift|intros response].
  destruct (next_ability response) as [next|]; [|apply commutes_raise].
  apply commutes_bind; [|intros; apply commutes_ret].
  unfold perform_call.
  apply commutes_bind; [apply commutes_gets; intros w; apply U_registry|intros reg].
  destruct (get_ability reg next); [|apply commutes_raise].
  apply commutes_bind; [apply commutes_emit|intros _].
  apply commutes_bind; [apply commutes_now|intros t]. apply commutes_ret.
Qed.

Lemma commutes_to_end next ability_args outcome :
  commutes T (to_end next ability_args outcome).
Proof.
  unfold to_end. apply commutes_bind.
  { unfold perform_result. destruct outcome as [?|[? ?]]; [apply commutes_raise|].
    apply commutes_bind; [apply commutes_emit|intros _]. apply commutes_ret. }
  intros a.
  apply commutes_bind; [apply commutes__update_tasks_and_memory|intros _].
  apply commutes_bind; [apply commutes_read_context|intros c].
  apply commutes_bind; [|intros; apply commutes_ret].
  destruct (decide _); now apply commutes_append_current_task.
Qed.

Lemma commutes_resume c : commutes T (resume host c).
Proof.
  destruct c as [task schema kwargs|reply|next args outcome|a]; simpl.
  - apply commutes_bind; [apply commutes_to_model|intros; apply commutes_ret].
  - apply commutes_bind; [apply commutes_to_ability|intros [[? ?] ?]].
    apply commutes_ret.
  - apply commutes_bind; [apply commutes_to_end|intros; apply commutes_ret].
  - apply commutes_ret.
Qed.

Lemma commutes_drive schedule pool failure w :
  drive host schedule pool failure (T w) =
    let '(pool', failure', w') := drive host schedule pool failure w in
    (pool', failure', T w').
Proof.
  revert pool failure w. induction schedule as [|i s IH]; intros pool failure w;
    simpl; [reflexivity|].
  destruct (pool !! i) as [[e|c]|]; [apply IH| |apply IH].
  rewrite commutes_resume. destruct (resume host c w) as [[c'|e] w1]; apply IH.
Qed.

Lemma commutes_gather schedule coroutines :
  commutes T (gather host schedule coroutines).
Proof.
  intros w. unfold gather. rewrite commutes_drive.
  destruct (drive host schedule _ None w) as [[pool1 [e|]] w1]; [reflexivity|].
  rewrite commutes_drive.
  destruct (drive host (to_the_end _) pool1 None w1) as [[pool2 [e|]] w2];
    reflexivity.
Qed.

Lemma commutes_exec_abilities task kwargs :
  commutes T (exec_abilities host task kwargs).
Proof.
  unfold exec_abilities.
  apply commutes_bind; [apply commutes_bind_arguments|intros _].
  apply commutes_bind; [apply commutes_gets; intros w; apply U_nature|intros nature].
  apply commutes_bind; [apply commutes_gets; intros w; apply U_registry|intros reg].
  destruct nature.
  - apply commutes_for_each. intros; apply commutes_perform_ability.
  - apply commutes_bind; [apply commutes_now|intros t]. apply commutes_gather.
  - apply commutes_bind; [apply commutes_perform_ability|intros; apply commutes_ret].
  - apply commutes_for_each. intros; apply commutes_perform_ability.
Qed.

Lemma commutes_execute_loop fuel kwargs w :
  execute_loop host fuel kwargs (T w) =
    ((execute_loop host fuel kwargs w).1, T (execute_loop host fuel kwargs w).2).
Proof.
  revert w. induction fuel as [|fuel IH]; intros w.
  { now rewrite !execute_loop_O. }
  rewrite !execute_loop_unfold.
  assert (current_task_value (T w) = current_task_value w) as ->
    by (unfold current_task_value; simpl; now rewrite U_task).
  rewrite commutes_exec_abilities.
  destruct (exec_abilities host _ kwargs w) as [[acts|e] w1]; simpl; [apply IH|reflexivity].
Qed.

Lemma commutes_execute_enter objective args kwargs :
  commutes T (execute_enter objective args kwargs).
Proof.
  unfold execute_enter.
  apply commutes_bind; [apply commutes_bind_arguments|intros _].
  apply commutes_bind; [destruct objective; [now intros w|apply commutes_ret]|intros t].
  apply commutes_bind.
  { apply commutes_modify. intros w. unfold set_self; simpl. now rewrite U_set_task. }
  intros _. apply commutes_bind; [apply commutes_gets; intros w; apply U_context|intros v].
  apply commutes_bind; [|intros; apply commutes_ret].
  apply commutes_modify. intros w. unfold set_self; simpl. now rewrite U_set_context.
Qed.

Lemma commutes_execute fuel objective args kwargs w :
  execute host fuel objective args kwargs (T w) =
    ((execute host fuel objective args kwargs w).1,
     T (execute host fuel objective args kwargs w).2).
Proof.
  unfold execute. rewrite commutes_execute_enter.
  destruct (execute_enter objective args kwargs w) as [[kw|e] w1]; simpl;
    [apply commutes_execute_loop|reflexivity].
Qed.

End Commutes.

(** ** Contexts along a run *)

Lemma foldl_apply_prior c acts :
  prior_actions (foldl apply_action c acts) = prior_actions c ++ acts.
Proof.
  revert c. induction acts as [|a acts IH]; intros c; simpl.
  - now rewrite app_nil_r.
  - rewrite IH. simpl. now rewrite <- app_assoc.
Qed.

Lemma foldl_apply_cycle c acts :
  cycle_count (foldl apply_action c acts) = cycle_count c + Z.of_nat (length acts).
Proof.
  revert c. induction acts as [|a acts IH]; intros c; simpl length.
  - simpl. lia.
  - simpl foldl. rewrite IH. simpl. lia.
Qed.

Lemma foldl_apply_status c acts :
  status (foldl apply_action c acts) = match acts with [] => status c | _ => DONE end.
Proof.
  destruct acts as [|a acts]; [reflexivity|]. simpl.
  generalize (apply_action c a) (eq_refl : status (apply_action c a) = DONE).
  induction acts as [|b acts IH]; intros c' Hc'; simpl; [exact Hc'|].
  now apply IH.
Qed.

Lemma step_lookup_task w w' evs t c :
  step w w' evs ->
  _current_task (self w) = Some t -> heap w !! context t = Some c ->
  heap w' !! context t = Some (foldl apply_action c (performed evs)).
Proof.
  intros (_ & Hh & _) Ht Hc. rewrite Hh. unfold fold_into. rewrite Ht.
  rewrite list_lookup_alter_eq, Hc. reflexivity.
Qed.

Lemma step_lookup w w' evs l c :
  step w w' evs -> heap w !! l = Some c ->
  exists acts, heap w' !! l = Some (foldl apply_action c acts) ∧
               (acts = [] ∨ acts = performed evs).
Proof.
  intros (_ & Hh & _) Hc. rewrite Hh. unfold fold_into.
  destruct (_current_task (self w)) as [t|]; [|exists []; eauto].
  destruct (decide (context t = l)) as [<-|Hne].
  - eexists. rewrite list_lookup_alter_eq, Hc. eauto.
  - exists []. rewrite list_lookup_alter_ne by exact Hne. eauto.
Qed.

Lemma step_length w w' evs : step w w' evs -> length (heap w') = length (heap w).
Proof.
  intros (_ & Hh & _). rewrite Hh. unfold fold_into.
  destruct (_current_task (self w)); [apply length_alter|reflexivity].
Qed.

Lemma execute_enter_inv obj args kwargs w r w' :
  execute_enter obj args kwargs w = (r, w') ->
  (w' = w ∧ exists p, r = Raise (TypeError p) ∧
                      first_clash ["self"; "objective"] kwargs = Some p) ∨
  (first_clash ["self"; "objective"] kwargs = None ∧
   exists t kwargs',
     r = Ok kwargs' ∧
     kwargs' = match args with
               | a :: _ => <["context" := a]> kwargs
               | [] => kwargs
               end ∧
     log w' = log w ∧
     self w' = set_current_context
                 (default (_current_context (self w)) (kwargs !! "context"))
                 (set_current_task (Some t) (self w)) ∧
     (obj = ObjTask t ∧ heap w' = heap w ∨
      obj = ObjStr (objective t) ∧ context t = length (heap w) ∧
      heap w' = heap w ++ [new_Context])).
Proof.
  unfold execute_enter. intros H.
  apply bind_inv in H as [(e & H & ->)|([] & w1 & H & H')];
    apply bind_arguments_inv in H as [-> [[? Hc]|(p & ? & Hc)]]; try discriminate.
  { left. split; [reflexivity|]. exists p. split; [congruence|exact Hc]. }
  right. split; [exact Hc|].
  destruct obj as [s|t]; unfold mbind, M_bind, bind, Task_factory, modify, gets in H';
    simpl in H'; inversion H'; subst; clear H'.
  - eexists {| objective := s; context := length (heap w) |}, _.
    repeat split. right. auto.
  - eexists t, _. repeat split. left. auto.
Qed.

Lemma step_lookup_inv w w' evs l c' :
  step w w' evs -> heap w' !! l = Some c' ->
  exists c acts, heap w !! l = Some c ∧ c' = foldl apply_action c acts ∧
                 (acts = [] ∨ acts = performed evs).
Proof.
  intros Hs Hc'. pose proof (step_length _ _ _ Hs) as Hlen.
  destruct (heap w !! l) as [c|] eqn:Hc.
  - destruct (step_lookup _ _ _ _ _ Hs Hc) as (acts & Hl & Hacts).
    exists c, acts. split; [reflexivity|]. split; [congruence|exact Hacts].
  - apply lookup_ge_None in Hc. apply lookup_lt_Some in Hc'. lia.
Qed.

Section Executions.

Context (host : Host).

(** The contexts after a run of [execute]: each is the context it was
    before the run (a fresh one if the run created it) with a list of
    actions folded into it, and the list folded into the context of the
    task driven is the list of all the actions performed. *)
Lemma execute_contexts fuel objective args kwargs w :
  let r := execute host fuel objective args kwargs w in
  exists evs,
    log r.2 = log w ++ evs ∧
    (forall l c', heap r.2 !! l = Some c' ->
       exists acts,
         c' = foldl apply_action (default new_Context (heap w !! l)) acts ∧
         (acts = [] ∨ acts = performed evs)) ∧
    (forall t c', _current_task (self r.2) = Some t ->
       heap r.2 !! context t = Some c' ->
       c' = foldl apply_action (default new_Context (heap w !! context t))
              (performed evs)) ∧
    (forall l c, heap w !! l = Some c -> is_Some (heap r.2 !! l)).
Proof.
  unfold execute. simpl.
  destruct (execute_enter objective args kwargs w) as [[kw|e] w1] eqn:He;
    apply execute_enter_inv in He
      as [(-> & p & Hr & _)|(_ & t & kw' & Hr & _ & Hlog & Hself & Hheap)];
    try discriminate; simpl.
  2:{ exists []. rewrite app_nil_r. repeat split; eauto.
      - intros l c' Hc'. exists []. rewrite Hc'. auto.
      - intros t c' _ Hc'. now rewrite Hc'. }
  destruct (execute_loop host fuel kw w1) as [r w2] eqn:Hl. simpl.
  apply execute_loop_step in Hl as [(evs & Hs) _].
  assert (Hw1 : forall l c1, heap w1 !! l = Some c1 ->
                  c1 = default new_Context (heap w !! l)).
  { intros l c1 Hc1. destruct Hheap as [[_ Hh]|(_ & _ & Hh)]; rewrite Hh in Hc1.
    - now rewrite Hc1.
    - apply lookup_app_Some in Hc1 as [Hc1|[Hge Hc1]]; [now rewrite Hc1|].
      apply lookup_ge_None in Hge as ->.
      apply list_lookup_singleton_Some in Hc1 as [_ <-]. reflexivity. }
  assert (Ht1 : _current_task (self w1) = Some t) by now rewrite Hself.
  exists evs. split; [destruct Hs as [-> _]; now rewrite Hlog|]. repeat split.
  - intros l c' Hc'.
    destruct (step_lookup_inv _ _ _ _ _ Hs Hc') as (c1 & acts & Hc1 & -> & Hacts).
    exists acts. now rewrite <- (Hw1 _ _ Hc1).
  - intros t' c' Ht' Hc'.
    assert (t' = t) as ->.
    { destruct Hs as (_ & _ & Hf). unfold frame in Hf. congruence. }
    destruct (heap w1 !! context t) as [c1|] eqn:Hc1.
    + rewrite (step_lookup_task _ _ _ _ _ Hs Ht1 Hc1) in Hc'.
      inversion Hc'; subst. now rewrite <- (Hw1 _ _ Hc1).
    + apply lookup_ge_None in Hc1. apply lookup_lt_Some in Hc'.
      rewrite (step_length _ _ _ Hs) in Hc'. lia.
  - intros l c Hc.
    assert (is_Some (heap w1 !! l)) as [c1 Hc1].
    { destruct Hheap as [[_ ->]|(_ & _ & ->)]; [eauto|].
      rewrite lookup_app_l by (now apply lookup_lt_Some in Hc). eauto. }
    destruct (step_lookup _ _ _ _ _ Hs Hc1) as (acts & -> & _). eauto.
Qed.

End Executions.

(** ** Properties of the engine *)

Section Claims.

Context (host : Host).

(** A cycle over an empty registry, under a nature other than AUTO, calls
    nobody and changes nothing. *)
Lemma exec_abilities_idle task kwargs w :
  _ability_registry (self w) = [] -> _execution_nature (self w) <> AUTO ->
  first_clash ["self"; "task"] kwargs = None ->
  exec_abilities host task kwargs w = (Ok [], w).
Proof.
  intros Hreg Hn Hc. unfold exec_abilities.
  rewrite (bind_ok _ _ _ _ _ (bind_arguments_ok _ _ _ Hc)), !bind_gets, Hreg.
  destruct (_execution_nature (self w)); try reflexivity; [|now elim Hn].
  unfold now. rewrite bind_gets. apply gather_nil.
Qed.

Lemma execute_loop_idle fuel kwargs w :
  _ability_registry (self w) = [] -> _execution_nature (self w) <> AUTO ->
  first_clash ["self"; "task"] kwargs = None ->
  execute_loop host fuel kwargs w = (Running, w).
Proof.
  intros Hreg Hn Hc. induction fuel as [|fuel IH].
  - apply execute_loop_O.
  - now rewrite execute_loop_unfold, exec_abilities_idle.
Qed.

Lemma execute_budget_free fuel objective args kwargs w m :
  execute host fuel objective args kwargs
    (set_self (with_max_task_cycle_count m) w) =
  ((execute host fuel objective args kwargs w).1,
   set_self (with_max_task_cycle_count m)
     (execute host fuel objective args kwargs w).2).
Proof. apply commutes_execute; intros; reflexivity. Qed.

(** The loop test compares the task itself, not its status, with DONE (the
    test of line 168 reads [context.status]): on no amount of fuel does
    [execute] come to its [return]; a run ends by an exception or not at
    all. *)
Lemma execute_never_returns fuel objective args kwargs w v :
  (execute host fuel objective args kwargs w).1 <> Returned v.
Proof.
  unfold execute. destruct (execute_enter objective args kwargs w) as [[kw|e] w1];
    [|discriminate].
  destruct (execute_loop host fuel kw w1) as [r w2] eqn:Hl.
  now apply execute_loop_step in Hl as [_ Hr].
Qed.

(** C1 (amended).  [execute] enforces no cycle budget and knows no failed
    state: after any number of cycles its outcome and its state are what
    they would be under any other [max_task_cycle_count]; the status of a
    context is the one it had (PENDING if the run created it) or DONE,
    nothing else being ever assigned; and when the registry is empty and the
    nature is not AUTO the run is still in its loop after any number of
    cycles, having called nobody. *)
Theorem execute_has_no_cycle_budget fuel objective args kwargs w :
  let r := execute host fuel objective args kwargs w in
  (forall m,
     execute host fuel objective args kwargs
       (set_self (with_max_task_cycle_count m) w)
     = (r.1, set_self (with_max_task_cycle_count m) r.2)) ∧
  (forall l c', heap r.2 !! l = Some c' ->
     status c' = status (default new_Context (heap w !! l)) ∨ status c' = DONE) ∧
  (_ability_registry (self w) = [] -> _execution_nature (self w) <> AUTO ->
   kwargs !! "self" = None -> kwargs !! "objective" = None ->
   kwargs !! "task" = None ->
   r.1 = Running ∧ log r.2 = log w).
Proof.
  simpl. split; [intros m; apply execute_budget_free|]. split.
  - intros l c' Hc'.
    destruct (execute_contexts host fuel objective args kwargs w)
      as (evs & _ & Hall & _).
    destruct (Hall l c' Hc') as (acts & -> & _).
    rewrite foldl_apply_status. destruct acts; auto.
  - intros Hreg Hn Hself Hobj Htask. unfold execute.
    destruct (execute_enter objective args kwargs w) as [[kw|e] w1] eqn:He;
      apply execute_enter_inv in He
        as [(-> & p & Hr & Hc)|(_ & t & kw' & Hr & Hkw & Hlog & Hs & Hheap)];
      try discriminate.
    + inversion Hr; subst kw; clear Hr. subst kw'.
      rewrite execute_loop_idle; [now simpl| | |].
      * now rewrite Hs.
      * now rewrite Hs.
      * simpl. destruct args as [|a args].
        -- now rewrite Hself, Htask.
        -- rewrite !lookup_insert_ne by done. now rewrite Hself, Htask.
    + simpl in Hc. rewrite Hself, Hobj in Hc. discriminate.
Qed.

Lemma perform_unknown ability_name kwargs w :
  get_ability (_ability_registry (self w)) ability_name = None ->
  perform ability_name kwargs w = (Raise (UnknownAbilityError ability_name), w).
Proof. intros Hg. unfold perform. now rewrite bind_gets, Hg. Qed.

Lemma perform_fault ability fault ability_name kwargs w :
  get_ability (_ability_registry (self w)) ability_name = Some ability ->
  body ability (length (log w ++ [EvInvoke ability_name kwargs])) kwargs = inl fault ->
  perform ability_name kwargs w =
    (Raise (AbilityExecutionError ability_name fault),
     logged (EvInvoke ability_name kwargs) w).
Proof.
  intros Hg Hf. unfold perform, emit, now.
  rewrite bind_gets, Hg, bind_modify, bind_gets. simpl. now rewrite Hf.
Qed.

(** [perform_ability] once the model has been asked: every failure leaves
    it as the exception that it is. *)
Lemma perform_ability_after_reply task schema kwargs w r w1 :
  first_clash ["self"; "task"; "ability_schema"] kwargs = None ->
  determine_exec_ability host task schema kwargs w = (r, w1) ->
  perform_ability host task schema kwargs w =
    match r with
    | Raise e => (Raise e, w1)
    | Ok response =>
        (match next_ability response with
         | None => raise (KeyError "next_ability")
         | Some next =>
             ability_action ← perform next (default ∅ (ability_arguments response));
             _ ← _update_tasks_and_memory ability_action;
             c ← read_context;
             _ ← (if decide (status c = DONE)
                  then append_current_task append_completed_tasks
                  else append_current_task append_task_queue);
             mret ability_action
         end) w1
    end.
Proof.
  intros Hc Hd. unfold perform_ability.
  rewrite (bind_ok _ _ _ _ _ (bind_arguments_ok _ _ _ Hc)), bind_gets.
  assert (Hsame :
    (if decide (_execution_nature (self w) = AUTO)
     then determine_next_ability host task schema kwargs
     else determine_exec_ability host task schema kwargs)
    = determine_exec_ability host task schema kwargs)
    by (destruct (decide _); reflexivity).
  rewrite Hsame. destruct r as [response|e].
  - now rewrite (bind_ok _ _ _ _ _ Hd).
  - now rewrite (bind_raise _ _ _ _ _ Hd).
Qed.

(** C2 (amended).  The engine handles no exception.  Once the model has
    been asked, [perform_ability] raises the provider's or the parser's
    error as it is, [KeyError] for a reply without [next_ability], the
    registry's [UnknownAbilityError] for a name it does not know and its
    [AbilityExecutionError] for a faulting body; an exception raised in a
    cycle is the outcome of [execute], in the state in which it was raised;
    and in that state no context has become FAILED. *)
Theorem execute_handles_no_exception task schema kwargs w r w1 :
  first_clash ["self"; "task"; "ability_schema"] kwargs = None ->
  determine_exec_ability host task schema kwargs w = (r, w1) ->
  match r with
  | Raise e => perform_ability host task schema kwargs w = (Raise e, w1)
  | Ok response =>
      let args := default ∅ (ability_arguments response) in
      match next_ability response with
      | None =>
          perform_ability host task schema kwargs w
          = (Raise (KeyError "next_ability"), w1)
      | Some next =>
          match get_ability (_ability_registry (self w1)) next with
          | None =>
              perform_ability host task schema kwargs w
              = (Raise (UnknownAbilityError next), w1)
          | Some ability =>
              forall fault,
                body ability (length (log w1 ++ [EvInvoke next args])) args
                = inl fault ->
                perform_ability host task schema kwargs w
                = (Raise (AbilityExecutionError next fault),
                   logged (EvInvoke next args) w1)
          end
      end
  end ∧
  (forall fuel kwargs' w0 e w',
     exec_abilities host (current_task_value w0) kwargs' w0 = (Raise e, w') ->
     execute_loop host (S fuel) kwargs' w0 = (Raised e, w') ∧
     forall l c', heap w' !! l = Some c' -> status c' = FAILED ->
       exists c, heap w0 !! l = Some c ∧ status c = FAILED).
Proof.
  intros Hc Hd. split.
  - rewrite (perform_ability_after_reply _ _ _ _ _ _ Hc Hd).
    destruct r as [response|e]; [|reflexivity]. simpl.
    destruct (next_ability response) as [next|]; [|reflexivity].
    destruct (get_ability _ next) as [ability|] eqn:Hg.
    + intros fault Hf. erewrite bind_raise; [reflexivity|].
      now apply perform_fault with ability.
    + erewrite bind_raise; [reflexivity|]. now apply perform_unknown.
  - intros fuel kwargs' w0 e w' He. split.
    + now rewrite execute_loop_unfold, He.
    + intros l c' Hc' Hst.
      apply exec_abilities_step in He as (evs & Hs & _).
      destruct (step_lookup_inv _ _ _ _ _ Hs Hc') as (c & acts & Hl & -> & _).
      exists c. split; [exact Hl|].
      rewrite foldl_apply_status in Hst. now destruct acts.
Qed.

(** The value of the expression of line 125 in the states of a run: the
    [context] keyword argument when the caller passes one, and otherwise the
    object that the pilot held before the call.  No cycle assigns it. *)
Lemma return_expression_is_current_context fuel objective args kwargs w :
  execute_return (execute host fuel objective args kwargs w).2 =
    match first_clash ["self"; "objective"] kwargs with
    | Some _ => _current_context (self w)
    | None => default (_current_context (self w)) (kwargs !! "context")
    end.
Proof.
  unfold execute, execute_return.
  destruct (execute_enter objective args kwargs w) as [[kw|e] w1] eqn:He;
    apply execute_enter_inv in He
      as [(-> & p & Hr & Hc)|(Hc & t & kw' & Hr & _ & _ & Hs & _)];
    try discriminate; rewrite Hc.
  - destruct (execute_loop host fuel kw w1) as [r w2] eqn:Hl. simpl.
    apply execute_loop_step in Hl as [(evs & _ & _ & Hf) _].
    unfold frame in Hf. assert (_current_context (self w2) = _current_context (self w1))
      as -> by congruence.
    now rewrite Hs.
  - reflexivity.
Qed.

(** C4 (amended).  Per cycle of [exec_abilities].  In AUTO mode, however
    the cycle ends, the model is called at most once, with the whole
    catalogue, and at most one ability is invoked, the one that the reply
    names; a cycle that completes has made that call and that invocation.
    In SEQUENTIAL mode a cycle that completes has made one model call for
    each registered ability, in registration order, each offering that
    ability alone, and as many invocations, in order those of the abilities
    that the replies name, and returns the actions in the order performed.
    In PARALLEL mode a cycle that completes has made the same calls and
    invocations in an order that the event loop chooses, and returns only
    when every one of them has performed its action: one action for each
    registered ability, all logged and folded into the context of the task
    before the cycle returns. *)
Theorem exec_abilities_calls task kwargs w r w' :
  exec_abilities host task kwargs w = (r, w') ->
  let registered := abilities (_ability_registry (self w)) in
  let catalogue := VSchema (dump_abilities (_ability_registry (self w))) in
  exists evs,
    log w' = log w ++ evs ∧
    heap w' = fold_into (performed evs) w ∧
    match _execution_nature (self w) with
    | AUTO =>
        (offered evs = [] ∨ offered evs = [catalogue]) ∧
        (length (invoked evs) <= 1)%nat ∧
        (invoked evs = [] ∨ invoked evs = named evs) ∧
        forall acts, r = Ok acts ->
          offered evs = [catalogue] ∧
          length (invoked evs) = 1%nat ∧
          invoked evs = named evs ∧
          invoked evs = ability_name <$> acts ∧
          performed evs = acts
    | PARALLEL =>
        forall acts, r = Ok acts ->
          offered evs ≡ₚ (fun a => VSchema [dump a]) <$> registered ∧
          length (invoked evs) = length registered ∧
          invoked evs ≡ₚ named evs ∧
          invoked evs ≡ₚ ability_name <$> acts ∧
          performed evs ≡ₚ acts ∧
          length acts = length registered
    | _ =>
        forall acts, r = Ok acts ->
          offered evs = (fun a => VSchema [dump a]) <$> registered ∧
          length (invoked evs) = length registered ∧
          invoked evs = named evs ∧
          invoked evs = ability_name <$> acts ∧
          performed evs = acts
    end.
Proof.
  intros H registered catalogue. pose proof H as H0.
  apply exec_abilities_step in H as (evs & (Hlog & Hheap & _) & Hacts).
  exists evs. split; [exact Hlog|]. split; [exact Hheap|].
  destruct (_execution_nature (self w)) eqn:Hn.
  - intros acts ->. destruct (Hacts acts eq_refl) as (Hp & Hi & Hm & Ho & Hlen).
    repeat split; try assumption; [|congruence].
    now rewrite Hi, length_fmap.
  - intros acts ->. destruct (Hacts acts eq_refl) as (Hp & Hi & Hm & Ho & Hlen).
    repeat split; try assumption.
    + now rewrite Hi, length_fmap.
    + now rewrite Hi, Hm.
  - destruct (exec_abilities_auto _ _ _ _ _ _ _ H0 Hn Hlog) as (Ho & Hi & Hlen).
    split; [exact Ho|]. split.
    { destruct Hi as [->| ->]; [simpl; lia|].
      destruct Ho as [Ho|Ho]; rewrite Ho in Hlen; simpl in Hlen; lia. }
    split; [exact Hi|].
    intros acts ->. destruct (Hacts acts eq_refl) as (Hp & Hi' & Hm & Ho' & Hlen').
    repeat split; try assumption; [|congruence].
    now rewrite Hi', length_fmap.
  - intros acts ->. destruct (Hacts acts eq_refl) as (Hp & Hi & Hm & Ho & Hlen).
    repeat split; try assumption; [|congruence].
    now rewrite Hi, length_fmap.
Qed.

(** C5 (amended).  [_update_tasks_and_memory] changes the context of the
    current task, and nothing else, in exactly this way: [cycle_count] is
    one more, the action is the new last element of [prior_actions],
    [memories] is what the action extracted, [status] is DONE and
    [enough_info] is true. *)
Theorem update_tasks_and_memory_changes ability_result w t c :
  _current_task (self w) = Some t ->
  heap w !! context t = Some c ->
  exists w',
    _update_tasks_and_memory ability_result w = (Ok tt, w') ∧
    heap w' = <[context t :=
                  {| cycle_count := cycle_count c + 1;
                     prior_actions := prior_actions c ++ [ability_result];
                     memories := get_memories ability_result;
                     status := DONE;
                     enough_info := true |}]> (heap w) ∧
    self w' = self w ∧ log w' = log w.
Proof.
  intros Ht Hc. eexists. split; [apply _update_tasks_and_memory_eq; exact Ht|].
  simpl. repeat split.
  apply list_eq. intros i. destruct (decide (context t = i)) as [<-|Hne].
  - rewrite list_lookup_alter_eq, Hc.
    rewrite list_lookup_insert_eq by (now apply lookup_lt_Some in Hc). reflexivity.
  - now rewrite list_lookup_alter_ne, list_lookup_insert_ne.
Qed.

(** C6 (amended).  [cycle_count] counts the actions folded into a context
    and nothing bounds it: after any run of [execute] the count of the task
    driven is the count before the run (zero if the run created the
    context) plus the number of actions performed, and the run is the same
    under every [max_task_cycle_count]. *)
Theorem cycle_count_counts_actions fuel objective args kwargs w :
  let r := execute host fuel objective args kwargs w in
  (forall m,
     execute host fuel objective args kwargs
       (set_self (with_max_task_cycle_count m) w)
     = (r.1, set_self (with_max_task_cycle_count m) r.2)) ∧
  exists evs,
    log r.2 = log w ++ evs ∧
    forall t c', _current_task (self r.2) = Some t ->
      heap r.2 !! context t = Some c' ->
      cycle_count c' =
        cycle_count (default new_Context (heap w !! context t))
        + Z.of_nat (length (performed evs)).
Proof.
  simpl. split; [intros m; apply execute_budget_free|].
  destruct (execute_contexts host fuel objective args kwargs w)
    as (evs & Hlog & _ & Htask & _).
  exists evs. split; [exact Hlog|]. intros t c' Ht Hc'.
  rewrite (Htask t c' Ht Hc'). apply foldl_apply_cycle.
Qed.

(** C7.  Along a run of [execute], whatever its length and its outcome,
    every context keeps its [prior_actions] as a prefix of the new ones and
    its [cycle_count] does not decrease, a context once in the store stays
    there, and the [prior_actions] of the task driven are the old ones
    followed by all the actions performed during the run, in the order in
    which they were performed. *)
Theorem prior_actions_append_only fuel objective args kwargs w :
  let r := execute host fuel objective args kwargs w in
  exists evs,
    log r.2 = log w ++ evs ∧
    (forall l c, heap w !! l = Some c -> is_Some (heap r.2 !! l)) ∧
    (forall l c', heap r.2 !! l = Some c' ->
       let c := default new_Context (heap w !! l) in
       prior_actions c `prefix_of` prior_actions c' ∧
       cycle_count c <= cycle_count c') ∧
    (forall t c', _current_task (self r.2) = Some t ->
       heap r.2 !! context t = Some c' ->
       prior_actions c' =
         prior_actions (default new_Context (heap w !! context t))
         ++ performed evs).
Proof.
  simpl. destruct (execute_contexts host fuel objective args kwargs w)
    as (evs & Hlog & Hall & Htask & Hstay).
  exists evs. split; [exact Hlog|]. split; [exact Hstay|]. split.
  - intros l c' Hc'. destruct (Hall l c' Hc') as (acts & -> & _).
    rewrite foldl_apply_prior, foldl_apply_cycle. split; [|lia].
    now apply prefix_app_r.
  - intros t c' Ht Hc'. rewrite (Htask t c' Ht Hc'). apply foldl_apply_prior.
Qed.

(** C8.  The prompt of [chat_with_model] is built from the runtime context
    (OS descriptor, remaining budget of the provider, current time) merged
    with the keyword arguments of the caller: a key of the caller has the
    value of the caller, whether or not the runtime context has that key,
    and every other key has the value of the runtime context. *)
Theorem chat_with_model_template_kwargs strategy kwargs w mc provider :
  first_clash ["self"; "prompt_strategy"] kwargs = None ->
  dict_get (model_classification strategy) (models (_configuration (self w))) = Some mc ->
  dict_get (model_classification strategy) (_providers (self w)) = Some provider ->
  let t := length (log w) in
  let runtime : Kwargs :=
    {[ "os_info" := VStr (get_os_info host);
       "api_budget" := get_remaining_budget provider t;
       "current_time" := VStr (strftime host t) ]} in
  exists template_kwargs : Kwargs,
    chat_with_model host strategy kwargs w =
      match build_prompt strategy (heap w) template_kwargs with
      | inl e => (Raise e, w)
      | inr prompt =>
          let reply := create_language_completion provider t prompt
                         {| param_model_name := model_name mc;
                            param_temperature := temperature mc |} in
          (of_reply reply, logged (EvCompletion template_kwargs prompt reply) w)
      end ∧
    (forall k v, kwargs !! k = Some v -> template_kwargs !! k = Some v) ∧
    (forall k, kwargs !! k = None -> template_kwargs !! k = runtime !! k) ∧
    runtime !! "os_info" = Some (VStr (get_os_info host)) ∧
    runtime !! "api_budget" = Some (get_remaining_budget provider t) ∧
    runtime !! "current_time" = Some (VStr (strftime host t)).
Proof.
  intros Hc Hm Hp t runtime. exists (kwargs ∪ runtime). split; [|split; [|split]].
  - now rewrite (chat_with_model_eq _ _ _ _ _ _ Hc Hm Hp).
  - intros k v Hk. now apply lookup_union_Some_l.
  - intros k Hk. now apply lookup_union_r.
  - unfold runtime. split; [|split].
    + apply lookup_insert_eq.
    + rewrite lookup_insert_ne by done. apply lookup_insert_eq.
    + rewrite !lookup_insert_ne by done. apply lookup_singleton_eq.
Qed.

Lemma perform_ability_empty task schema kwargs w r w' :
  _ability_registry (self w) = [] ->
  perform_ability host task schema kwargs w = (r, w') ->
  exists e,
    r = Raise e ∧
    (w' = w ∨
     exists tk p reply,
       w' = logged (EvCompletion tk p reply) w ∧
       tk !! "ability_schema" = Some (VSchema schema) ∧
       e = match reply with
           | inl e' => e'
           | inr response =>
               match next_ability response with
               | None => KeyError "next_ability"
               | Some next => UnknownAbilityError next
               end
           end).
Proof.
  intros Hreg H.
  destruct (first_clash ["self"; "task"; "ability_schema"] kwargs) as [c|] eqn:Hc.
  { unfold perform_ability, bind_arguments in H. rewrite Hc in H.
    inversion H; subst. eauto. }
  destruct (determine_exec_ability host task schema kwargs w) as [r0 w1] eqn:Hd.
  rewrite (perform_ability_after_reply _ _ _ _ _ _ Hc Hd) in H.
  apply determine_exec_ability_inv in Hd
    as [(-> & e & ->)|(tk & p & reply & -> & -> & Hs & _)].
  { inversion H; subst. eauto. }
  destruct reply as [e|response]; simpl in H.
  { inversion H; subst. exists e. split; [reflexivity|]. right. eauto 10. }
  destruct (next_ability response) as [next|] eqn:Hn.
  - erewrite bind_raise in H
      by (apply perform_unknown; simpl; now rewrite Hreg).
    inversion H; subst. eexists. split; [reflexivity|]. right.
    eexists tk, p, (inr response). rewrite Hn. auto.
  - inversion H; subst. eexists. split; [reflexivity|]. right.
    eexists tk, p, (inr response). rewrite Hn. auto.
Qed.

(** C9 (amended).  Nothing validates the registry: [__init__] does not
    look at it, so that with an empty registry it fails with the error it
    fails with for any other and otherwise builds the same pilot, the
    registry apart.  With an empty registry in AUTO mode and an objective
    that is not done before the run, [execute] raises in its first cycle,
    having invoked no ability and modified no context: either before any
    model call, or after the one model call that offers the empty catalogue,
    and then with the error of that call, with [KeyError] for a reply without
    [next_ability], or with [UnknownAbilityError] for the ability that the
    reply names. *)
Theorem empty_registry_raises_in_first_cycle fuel objective args kwargs w :
  _ability_registry (self w) = [] -> _execution_nature (self w) = AUTO ->
  not_yet_done objective w ->
  let r := execute host (S fuel) objective args kwargs w in
  (exists e,
     r.1 = Raised e ∧
     (forall l c, heap w !! l = Some c -> heap r.2 !! l = Some c) ∧
     (log r.2 = log w ∨
      exists tk p reply,
        log r.2 = log w ++ [EvCompletion tk p reply] ∧
        tk !! "ability_schema" = Some (VSchema []) ∧
        e = match reply with
            | inl e' => e'
            | inr response =>
                match next_ability response with
                | None => KeyError "next_ability"
                | Some next => UnknownAbilityError next
                end
            end)) ∧
  (forall registry model_providers configuration store,
     __init__ host [] model_providers configuration store =
       match __init__ host registry model_providers configuration store with
       | inl e => inl e
       | inr w0 => inr (set_self (with_ability_registry []) w0)
       end).
Proof.
  intros Hreg Hn _. simpl. split.
  - unfold execute.
    destruct (execute_enter objective args kwargs w) as [[kw|e] w1] eqn:He;
      apply execute_enter_inv in He
        as [(-> & p & Hr & Hc)|(_ & t & kw' & Hr & _ & Hlog & Hs & Hheap)];
      try discriminate.
    2:{ inversion Hr; subst. simpl. eauto 10. }
    assert (Hreg1 : _ability_registry (self w1) = []) by now rewrite Hs.
    assert (Hn1 : _execution_nature (self w1) = AUTO) by now rewrite Hs.
    assert (Hkeep : forall l c, heap w !! l = Some c -> heap w1 !! l = Some c).
    { intros l c Hc. destruct Hheap as [[_ ->]|(_ & _ & ->)]; [exact Hc|].
      now apply lookup_app_l_Some. }
    rewrite execute_loop_unfold.
    destruct (exec_abilities host _ kw w1) as [r w2] eqn:Hx.
    unfold exec_abilities in Hx.
    apply bind_inv in Hx as [(e & Hx & ->)|([] & w1' & Hx & Hx')];
      apply bind_arguments_inv in Hx as [-> Hc].
    { simpl. exists e. rewrite Hlog. auto. }
    rewrite !bind_gets, Hn1, Hreg1 in Hx'.
    apply bind_inv in Hx' as [(e & Hx & ->)|(a & w3 & Hx & _)];
      apply perform_ability_empty in Hx as (e' & He' & Hw); try exact Hreg1;
      [|discriminate].
    inversion He'; subst e'. simpl. exists e.
    destruct Hw as [->|(tk & p & reply & -> & Hs' & ->)].
    + rewrite Hlog. auto.
    + split; [reflexivity|]. split; [exact Hkeep|]. right.
      exists tk, p, reply. simpl. rewrite Hlog. auto.
  - intros registry model_providers configuration store. unfold __init__.
    destruct (resolve_providers model_providers (models configuration))
      as [e|ps]; [reflexivity|].
    destruct (strategy_location (prompt_strategy configuration)) as [location|].
    + destruct (load_class host location _); reflexivity.
    + destruct (new_NextAbility host _); reflexivity.
Qed.

(** C10.  [determine_next_ability] and [determine_exec_ability] are the
    same function: on every task, schema, keyword arguments and state they
    give the same response and leave the same state.  Hence what
    [perform_ability] does is not a matter of the execution nature: run in a
    state that differs in that attribute only, it has the same result and
    leaves the same state, up to that attribute. *)
Theorem determine_next_ability_is_determine_exec_ability :
  (forall task schema kwargs w,
     determine_next_ability host task schema kwargs w =
     determine_exec_ability host task schema kwargs w) ∧
  (forall nature task schema kwargs w,
     perform_ability host task schema kwargs
       (set_self (with_execution_nature nature) w) =
     ((perform_ability host task schema kwargs w).1,
      set_self (with_execution_nature nature)
        (perform_ability host task schema kwargs w).2)).
Proof.
  split.
  - intros. now rewrite determine_same.
  - intros nature task schema kwargs w.
    apply commutes_perform_ability; intros; reflexivity.
Qed.

End Claims.

(** ** The engine at work *)

Import Examples.

(** C1, counterexample.  With no ability registered and a nature other than
    AUTO, [execute] has not terminated after the three cycles of its budget,
    nor after any number of cycles, and the status of its task is neither
    DONE nor FAILED. *)
Lemma execute_can_idle_forever :
  max_task_cycle_count (pilot (_configuration (self idle))) = 3 ∧
  (execute host 3 france [] ∅ idle).1 = Running ∧
  (status <$> heap (execute host 3 france [] ∅ idle).2 !! context the_task)
    = Some PENDING ∧
  (forall fuel, (execute host fuel france [] ∅ idle).1 = Running).
Proof.
  split; [reflexivity|]. split; [vm_compute; reflexivity|].
  split; [vm_compute; reflexivity|].
  intros fuel. unfold execute.
  change (execute_enter france [] ∅ idle) with (Ok (∅ : Kwargs), entered idle).
  cbv beta iota. now rewrite execute_loop_idle.
Qed.

Lemma execute_has_no_cycle_budget_witness :
  (_ability_registry (self idle) = [] ∧ _execution_nature (self idle) <> AUTO) ∧
  ((execute host 4 france [] ∅ idle).1 = Running ∧
   log (execute host 4 france [] ∅ idle).2 = log idle) ∧
  (status (apply_action new_Context paris) = status new_Context ∨
   status (apply_action new_Context paris) = DONE).
Proof.
  split; [split; [reflexivity|discriminate]|].
  destruct (execute_has_no_cycle_budget host 4 france [] ∅ idle) as (_ & _ & H).
  split; [apply H; [reflexivity|discriminate|reflexivity|reflexivity|reflexivity]|].
  destruct (execute_has_no_cycle_budget host 1 france [] ∅ auto) as (_ & H' & _).
  apply (H' 1%nat (apply_action new_Context paris)). vm_compute. reflexivity.
Defined.

(** C2, counterexample.  Each of the ordinary operational failures leaves
    [execute] as an exception, and the task is not FAILED: an ability that
    the registry does not know, an ability whose body faults, a reply
    without [next_ability], an error of the provider. *)
Lemma execute_raises_operational_failures :
  (execute host 1 france [] ∅ misled).1 = Raised (UnknownAbilityError "rm_rf") ∧
  (execute host 1 france [] ∅ faulty).1
    = Raised (AbilityExecutionError "web_search" "timeout") ∧
  (execute host 1 france [] ∅ speechless).1 = Raised (KeyError "next_ability") ∧
  (execute host 1 france [] ∅ offline).1 = Raised ProviderError ∧
  heap (execute host 1 france [] ∅ misled).2 !! context the_task = Some new_Context ∧
  heap (execute host 1 france [] ∅ faulty).2 !! context the_task = Some new_Context ∧
  heap (execute host 1 france [] ∅ speechless).2 !! context the_task = Some new_Context ∧
  heap (execute host 1 france [] ∅ offline).2 !! context the_task = Some new_Context ∧
  status new_Context <> FAILED.
Proof. repeat split; try (vm_compute; reflexivity). discriminate. Qed.

Lemma execute_handles_no_exception_witness :
  first_clash ["self"; "task"; "ability_schema"] (∅ : Kwargs) = None ∧
  (perform_ability host (VTask the_task) (dump_abilities [web_search]) ∅
     (entered misled)).1 = Raise (UnknownAbilityError "rm_rf") ∧
  (execute_loop host 1 ∅ (entered misled)).1 = Raised (UnknownAbilityError "rm_rf").
Proof.
  split; [reflexivity|].
  assert (Hd : determine_exec_ability host (VTask the_task)
                 (dump_abilities [web_search]) ∅ (entered misled)
               = (Ok {| next_ability := Some "rm_rf";
                        ability_arguments :=
                          Some {[ "query" := VStr "capital of France" ]} |},
                  (determine_exec_ability host (VTask the_task)
                     (dump_abilities [web_search]) ∅ (entered misled)).2))
    by (vm_compute; reflexivity).
  assert (Hc : first_clash ["self"; "task"; "ability_schema"] (∅ : Kwargs) = None)
    by reflexivity.
  destruct (execute_handles_no_exception host _ _ _ _ _ _ Hc Hd) as [H1 H2].
  split.
  - cbv beta iota zeta in H1.
    change (next_ability _) with (Some "rm_rf") in H1. cbv beta iota in H1.
    change (get_ability _ "rm_rf") with (@None Ability) in H1. cbv beta iota in H1.
    now rewrite H1.
  - assert (Hx : exec_abilities host (current_task_value (entered misled)) ∅
                   (entered misled)
                 = (Raise (UnknownAbilityError "rm_rf"),
                    (exec_abilities host (current_task_value (entered misled)) ∅
                       (entered misled)).2))
      by (vm_compute; reflexivity).
    destruct (H2 0%nat _ _ _ _ Hx) as [H _]. now rewrite H.
Defined.

(** A state of the run on the France objective, before or after any number
    of cycles: the pilot is the one that entered the run, but for the tasks
    it has completed, and the store holds its context and that of the
    task. *)
Lemma france_cycle w :
  frame (self w) = frame (self (entered auto)) ->
  (exists c, heap w = [new_Context; c]) ->
  exists w',
    exec_abilities host (VTask the_task) ∅ w = (Ok [paris], w') ∧
    frame (self w') = frame (self (entered auto)) ∧
    (exists c, heap w' = [new_Context; c] ∧ status c = DONE).
Proof.
  destruct w as [[cfg nature registry providers strategy queue completed
                  current held] h l].
  unfold frame. simpl. intros Hf [c ->].
  injection Hf as -> -> -> -> -> -> ->.
  eexists. split; [vm_compute; reflexivity|].
  split; [reflexivity|]. eexists. split; reflexivity.
Qed.

Lemma france_loop fuel w :
  frame (self w) = frame (self (entered auto)) ->
  (exists c, heap w = [new_Context; c]) ->
  (execute_loop host (S fuel) ∅ w).1 = Running ∧
  exists c, heap (execute_loop host (S fuel) ∅ w).2 = [new_Context; c] ∧
            status c = DONE.
Proof.
  revert w. induction fuel as [|fuel IH]; intros w Hf Hh.
  - destruct (france_cycle w Hf Hh) as (w' & Hx & _ & Hc).
    rewrite execute_loop_unfold.
    assert (Ht : current_task_value w = VTask the_task).
    { unfold current_task_value. unfold frame in Hf.
      injection Hf as _ _ _ _ _ -> _. reflexivity. }
    rewrite Ht, Hx, execute_loop_O. split; [reflexivity|exact Hc].
  - destruct (france_cycle w Hf Hh) as (w' & Hx & Hf' & c & Hc & _).
    rewrite execute_loop_unfold.
    assert (Ht : current_task_value w = VTask the_task).
    { unfold current_task_value. unfold frame in Hf.
      injection Hf as _ _ _ _ _ -> _. reflexivity. }
    rewrite Ht, Hx. apply IH; [exact Hf'|eauto].
Qed.

(** C3.  [execute] does not come to its [return].  On the France objective,
    with one ability registered and a model that names it, the context of
    the task is DONE from the first cycle on, and after any number of cycles
    the run is still in its loop: the loop test compares the task itself
    with DONE, where line 168 compares the status of its context.  So it is
    on every input: no run of [execute] returns a value. *)
Theorem execute_never_reaches_its_return fuel :
  (execute host (S fuel) france [] ∅ auto).1 = Running ∧
  (status <$> heap (execute host (S fuel) france [] ∅ auto).2 !! context the_task)
  = Some DONE ∧
  forall host' objective args kwargs w v,
    (execute host' fuel objective args kwargs w).1 <> Returned v.
Proof.
  assert (He : execute_enter france [] ∅ auto = (Ok ∅, entered auto))
    by (vm_compute; reflexivity).
  assert (Hx : execute host (S fuel) france [] ∅ auto
               = execute_loop host (S fuel) ∅ (entered auto)).
  { unfold execute. now rewrite He. }
  rewrite Hx.
  destruct (france_loop fuel (entered auto) eq_refl) as (Hr & c & Hc & Hs).
  { exists new_Context. vm_compute. reflexivity. }
  split; [exact Hr|]. split; [now rewrite Hc, <- Hs|].
  intros host' objective args kwargs w v. apply execute_never_returns.
Qed.

(** C4, counterexample.  In SEQUENTIAL mode, with [summarize] and
    [web_search] registered and a model that answers [web_search] to every
    prompt, the cycle completes having invoked [web_search] twice and
    [summarize] not at all. *)
Lemma sequential_invokes_what_model_names :
  name <$> abilities (_ability_registry (self stubborn)) = ["summarize"; "web_search"] ∧
  (exists acts,
     (exec_abilities host (VTask the_task) ∅ (entered stubborn)).1 = Ok acts) ∧
  invoked (log (exec_abilities host (VTask the_task) ∅ (entered stubborn)).2)
    = ["web_search"; "web_search"] ∧
  offered (log (exec_abilities host (VTask the_task) ∅ (entered stubborn)).2)
    = [VSchema [dump summarize]; VSchema [dump web_search]].
Proof.
  split; [reflexivity|]. split; [eexists; vm_compute; reflexivity|].
  split; vm_compute; reflexivity.
Qed.

Lemma exec_abilities_calls_witness :
  exists acts w',
    exec_abilities juggler (VTask the_task) ∅ (entered concurrent) = (Ok acts, w') ∧
    _execution_nature (self (entered concurrent)) = PARALLEL ∧
    abilities (_ability_registry (self (entered concurrent)))
    = [summarize; web_search] ∧
    (exists evs,
       log w' = log (entered concurrent) ++ evs ∧
       offered evs ≡ₚ [VSchema [dump summarize]; VSchema [dump web_search]] ∧
       length (invoked evs) = 2%nat ∧
       performed evs ≡ₚ acts) ∧
    offered (log w') = [VSchema [dump web_search]; VSchema [dump summarize]] ∧
    invoked (log w') = ["web_search"; "summarize"] ∧
    ability_name <$> performed (log w') = ["web_search"; "summarize"] ∧
    ability_name <$> acts = ["summarize"; "web_search"].
Proof.
  assert (Hw : offered (log (exec_abilities juggler (VTask the_task) ∅
                               (entered concurrent)).2)
               = [VSchema [dump web_search]; VSchema [dump summarize]] ∧
               invoked (log (exec_abilities juggler (VTask the_task) ∅
                               (entered concurrent)).2)
               = ["web_search"; "summarize"] ∧
               ability_name <$> performed
                 (log (exec_abilities juggler (VTask the_task) ∅
                         (entered concurrent)).2)
               = ["web_search"; "summarize"] ∧
               match (exec_abilities juggler (VTask the_task) ∅
                        (entered concurrent)).1 with
               | Ok acts => ability_name <$> acts
               | Raise _ => []
               end = ["summarize"; "web_search"])
    by (repeat split; vm_compute; reflexivity).
  destruct (exec_abilities juggler (VTask the_task) ∅ (entered concurrent))
    as [[acts|e] w'] eqn:Hx; [|now destruct Hw as (_ & _ & _ & ?)].
  exists acts, w'. split; [reflexivity|]. split; [reflexivity|].
  split; [reflexivity|]. split; [|exact Hw].
  destruct (exec_abilities_calls juggler _ _ _ _ _ Hx) as (evs & Hlog & _ & Hmode).
  change (_execution_nature (self (entered concurrent))) with PARALLEL in Hmode.
  destruct (Hmode acts eq_refl) as (Ho & Hi & _ & _ & Hp & _).
  exists evs. split; [exact Hlog|]. split; [exact Ho|]. split; [exact Hi|].
  exact Hp.
Defined.

(** C5, counterexample.  Folding the Paris action into the fresh context of
    the task does not leave the context that the four changes alone would
    give: [enough_info], false before, is true after. *)
Lemma update_also_sets_enough_info :
  heap (entered auto) !! context the_task = Some new_Context ∧
  heap (_update_tasks_and_memory paris (entered auto)).2 !! context the_task
    <> Some (claimed_update new_Context paris) ∧
  (enough_info <$> heap (_update_tasks_and_memory paris (entered auto)).2
                     !! context the_task) = Some true ∧
  enough_info (claimed_update new_Context paris) = false.
Proof.
  split; [reflexivity|]. split; [vm_compute; discriminate|].
  split; [vm_compute; reflexivity|reflexivity].
Qed.

Lemma update_tasks_and_memory_changes_witness :
  _current_task (self (entered auto)) = Some the_task ∧
  heap (entered auto) !! context the_task = Some new_Context ∧
  exists w',
    _update_tasks_and_memory paris (entered auto) = (Ok tt, w') ∧
    heap w' !! context the_task
      = Some {| cycle_count := 1; prior_actions := [paris];
                memories := ["The capital of France is Paris"];
                status := DONE; enough_info := true |}.
Proof.
  split; [reflexivity|]. split; [reflexivity|].
  destruct (update_tasks_and_memory_changes paris (entered auto) the_task
              new_Context eq_refl eq_refl) as (w' & Hu & Hh & _).
  exists w'. split; [exact Hu|]. rewrite Hh. reflexivity.
Defined.

(** C6, counterexample.  Under the default budget of three cycles, one
    cycle of a SEQUENTIAL pilot with four abilities leaves the count of its
    task at four. *)
Lemma cycle_count_exceeds_budget :
  max_task_cycle_count (pilot (_configuration (self long_pipeline))) = 3 ∧
  (cycle_count <$> heap (execute host 1 france [] ∅ long_pipeline).2
                     !! context the_task) = Some 4 ∧
  (invoked (log (execute host 1 france [] ∅ long_pipeline).2))
    = ["a1"; "a2"; "a3"; "a4"].
Proof. repeat split; vm_compute; reflexivity. Qed.

Lemma cycle_count_counts_actions_witness :
  _current_task (self (execute host 2 france [] ∅ auto).2) = Some the_task ∧
  heap (execute host 2 france [] ∅ auto).2 !! context the_task
    = Some (foldl apply_action new_Context [paris; paris]) ∧
  exists evs,
    log (execute host 2 france [] ∅ auto).2 = log auto ++ evs ∧
    cycle_count (foldl apply_action new_Context [paris; paris])
      = 0 + Z.of_nat (length (performed evs)).
Proof.
  assert (Ht : _current_task (self (execute host 2 france [] ∅ auto).2)
               = Some the_task) by (vm_compute; reflexivity).
  assert (Hc : heap (execute host 2 france [] ∅ auto).2 !! context the_task
               = Some (foldl apply_action new_Context [paris; paris]))
    by (vm_compute; reflexivity).
  split; [exact Ht|]. split; [exact Hc|].
  destruct (cycle_count_counts_actions host 2 france [] ∅ auto)
    as (_ & evs & Hlog & H).
  exists evs. split; [exact Hlog|]. exact (H _ _ Ht Hc).
Defined.

Lemma prior_actions_append_only_witness :
  heap auto !! 0%nat = Some new_Context ∧
  _current_task (self (execute host 2 france [] ∅ auto).2) = Some the_task ∧
  heap (execute host 2 france [] ∅ auto).2 !! context the_task
    = Some (foldl apply_action new_Context [paris; paris]) ∧
  exists evs,
    log (execute host 2 france [] ∅ auto).2 = log auto ++ evs ∧
    is_Some (heap (execute host 2 france [] ∅ auto).2 !! 0%nat) ∧
    ([] `prefix_of` [paris; paris] ∧ 0 <= 2) ∧
    [paris; paris] = [] ++ performed evs.
Proof.
  assert (Ht : _current_task (self (execute host 2 france [] ∅ auto).2)
               = Some the_task) by (vm_compute; reflexivity).
  assert (Hc : heap (execute host 2 france [] ∅ auto).2 !! context the_task
               = Some (foldl apply_action new_Context [paris; paris]))
    by (vm_compute; reflexivity).
  split; [reflexivity|]. split; [exact Ht|]. split; [exact Hc|].
  destruct (prior_actions_append_only host 2 france [] ∅ auto)
    as (evs & Hlog & Hstay & Hall & Htask).
  exists evs. split; [exact Hlog|].
  split; [exact (Hstay 0%nat new_Context eq_refl)|].
  split; [exact (Hall _ _ Hc)|exact (Htask _ _ Ht Hc)].
Defined.

Lemma chat_with_model_template_kwargs_witness :
  first_clash ["self"; "prompt_strategy"]
    ({[ "ability_schema" := VSchema [dump web_search]; "os_info" := VStr "Plan 9" ]}
       : Kwargs) = None ∧
  exists template_kwargs : Kwargs,
    (chat_with_model host NextAbility
       {[ "ability_schema" := VSchema [dump web_search]; "os_info" := VStr "Plan 9" ]}
       (entered auto)).1 = Ok {| next_ability := Some "web_search";
                                 ability_arguments :=
                                   Some {[ "query" := VStr "capital of France" ]} |} ∧
    template_kwargs !! "os_info" = Some (VStr "Plan 9") ∧
    template_kwargs !! "api_budget" = Some (VNum 100) ∧
    template_kwargs !! "current_time" = Some (VStr "Mon Jan  1 00:00:00 2024").
Proof.
  assert (Hc : first_clash ["self"; "prompt_strategy"]
                 ({[ "ability_schema" := VSchema [dump web_search];
                     "os_info" := VStr "Plan 9" ]} : Kwargs) = None)
    by reflexivity.
  split; [exact Hc|].
  destruct (chat_with_model_template_kwargs host NextAbility _ (entered auto)
              {| model_name := "gpt-3.5-turbo"; provider_name := "openai";
                 temperature := 9 # 10 |}
              (constant (says "web_search")) Hc eq_refl eq_refl)
    as (tk & Heq & Hcaller & Hruntime & _ & Hbudget & Htime).
  exists tk. split; [vm_compute; reflexivity|].
  split; [apply Hcaller; reflexivity|].
  split; [rewrite Hruntime by reflexivity; exact Hbudget|].
  rewrite Hruntime by reflexivity; exact Htime.
Defined.

(** C9, counterexample.  A pilot is built from an empty registry without
    complaint, and its [execute] in AUTO mode asks the model, with an empty
    catalogue, before it fails: not with a configuration error but with the
    registry's error for the ability that the model has named. *)
Lemma empty_registry_no_configuration_error :
  __init__ host [] {[ "openai" := constant (says "web_search") ]}
    (configuration AUTO) [] = inr bare ∧
  (execute host 1 france [] ∅ bare).1 = Raised (UnknownAbilityError "web_search") ∧
  Raised (UnknownAbilityError "web_search") <> Raised ConfigurationError ∧
  offered (log (execute host 1 france [] ∅ bare).2) = [VSchema []].
Proof.
  split; [reflexivity|]. split; [vm_compute; reflexivity|].
  split; [discriminate|vm_compute; reflexivity].
Qed.

Lemma empty_registry_raises_in_first_cycle_witness :
  (_ability_registry (self bare) = [] ∧ _execution_nature (self bare) = AUTO) ∧
  (exists e, (execute host 1 france [] ∅ bare).1 = Raised e) ∧
  not_yet_done france bare ∧
  (exists w0', __init__ host [] {[ "openai" := obedient ]} (configuration AUTO) []
               = inr w0').
Proof.
  split; [split; reflexivity|].
  assert (Hnd : not_yet_done france bare) by exact I.
  destruct (empty_registry_raises_in_first_cycle host 0 france [] ∅ bare
              eq_refl eq_refl Hnd) as [(e & He & _) Hinit].
  split; [exists e; exact He|]. split; [exact Hnd|].
  eexists.
  exact (Hinit [web_search] {[ "openai" := obedient ]} (configuration AUTO) []).
Defined.

(** ** More of the engine *)

Section MoreRuns.

Context (host : Host).

Lemma append_current_task_eq f w t :
  _current_task (self w) = Some t ->
  append_current_task f w = (Ok tt, set_self (f t) w).
Proof. intros Ht. unfold append_current_task. now rewrite bind_gets, Ht. Qed.

(** One call of [perform_ability] for a task whose context is in the store:
    either it raises, having changed neither the pilot nor the store and
    having asked the model at most once, or it returns the action performed,
    folded into the context of the task, and the task is one more of the
    completed tasks. *)
Lemma perform_ability_cases task schema kwargs w t r w' :
  _current_task (self w) = Some t -> (context t < length (heap w))%nat ->
  perform_ability host task schema kwargs w = (r, w') ->
  (exists e,
     r = Raise e ∧ self w' = self w ∧ heap w' = heap w ∧
     (log w' = log w ∨
      exists rt p reply,
        first_clash ["self"; "task"; "ability_schema"] kwargs = None ∧
        let ec := EvCompletion
                    (<["task" := task]>
                       (<["ability_schema" := VSchema schema]> kwargs) ∪ rt)
                    p reply in
        (log w' = log w ++ [ec] ∨
         exists next args, log w' = log w ++ [ec; EvInvoke next args]))) ∨
  (exists a rt p response,
     r = Ok a ∧
     first_clash ["self"; "task"; "ability_schema"] kwargs = None ∧
     next_ability response = Some (ability_name a) ∧
     self w' = append_completed_tasks t (self w) ∧
     heap w' = alter (fun c => apply_action c a) (context t) (heap w) ∧
     log w' = log w ++
       [EvCompletion
          (<["task" := task]> (<["ability_schema" := VSchema schema]> kwargs) ∪ rt)
          p (inr response);
        EvInvoke (ability_name a) (arguments a);
        EvAction a]).
Proof.
  intros Ht Hl H.
  destruct (first_clash ["self"; "task"; "ability_schema"] kwargs) as [c|] eqn:Hc.
  { unfold perform_ability, bind_arguments in H. rewrite Hc in H.
    inversion H; subst. left. eauto 10. }
  destruct (determine_exec_ability host task schema kwargs w) as [r0 w1] eqn:Hd.
  rewrite (perform_ability_after_reply _ _ _ _ _ _ _ Hc Hd) in H.
  unfold determine_exec_ability in Hd.
  rewrite (bind_ok _ _ _ _ _ (bind_arguments_ok _ _ _ Hc)), bind_gets in Hd.
  apply chat_with_model_inv in Hd as [(-> & e & ->)|(rt & p & reply & -> & ->)].
  { inversion H; subst. left. eauto 10. }
  destruct reply as [e|response]; simpl in H.
  { inversion H; subst. left. exists e. repeat split. right.
    exists rt, p, (inl e). split; [reflexivity|]. left. reflexivity. }
  destruct (next_ability response) as [next|] eqn:Hn.
  2:{ inversion H; subst. left. eexists. repeat split. right.
      exists rt, p, (inr response). split; [reflexivity|]. left. reflexivity. }
  apply bind_inv in H as [(e & H & ->)|(a & w2 & H & H')].
  { left. exists e. split; [reflexivity|].
    apply perform_inv in H
      as [(-> & _)|[(b & fault & _ & -> & _)|(? & ? & ? & _ & _ & ?)]];
      [| |discriminate]; repeat split; right;
      exists rt, p, (inr response); (split; [reflexivity|]).
    - left. reflexivity.
    - right. eexists _, _. simpl. now rewrite <- app_assoc. }
  apply perform_inv in H
    as [(_ & ? & _)|[(? & ? & _ & _ & ?)|(b & res & mems & _ & -> & Ha)]];
    [discriminate|discriminate|].
  inversion Ha; subst a; clear Ha.
  set (a := {| ability_name := next;
               arguments := default ∅ (ability_arguments response);
               result := res; get_memories := mems |}) in *.
  erewrite bind_ok in H' by (apply _update_tasks_and_memory_eq; exact Ht).
  set (w3 := set_heap _ _) in H'.
  destruct (lookup_lt_is_Some_2 (heap w) (context t) Hl) as [c0 Hc0].
  assert (Hr : read_context w3 = (Ok (apply_action c0 a), w3)).
  { unfold read_context, current_context_loc, mbind, M_bind, bind, gets.
    simpl. rewrite Ht. simpl. rewrite list_lookup_alter_eq, Hc0. reflexivity. }
  rewrite (bind_ok _ _ _ _ _ Hr) in H'.
  destruct (decide (status (apply_action c0 a) = DONE)) as [_|Hne];
    [|exfalso; now apply Hne].
  rewrite (bind_ok _ _ _ _ _ (append_current_task_eq _ w3 t Ht)) in H'.
  inversion H'; subst; clear H'.
  right. exists a, rt, p, response. repeat split; try assumption.
  simpl. now rewrite <- !app_assoc.
Qed.

End MoreRuns.

Section MoreCycles.

Context (host : Host).

Lemma iter_append_completed n t p :
  _current_task (Nat.iter n (append_completed_tasks t) p) = _current_task p ∧
  _task_queue (Nat.iter n (append_completed_tasks t) p) = _task_queue p ∧
  _completed_tasks (Nat.iter n (append_completed_tasks t) p)
    = _completed_tasks p ++ replicate n t ∧
  frame (Nat.iter n (append_completed_tasks t) p) = frame p.
Proof.
  induction n as [|n (IH1 & IH2 & IH3 & IH4)]; simpl.
  - now rewrite app_nil_r.
  - split; [exact IH1|]. split; [exact IH2|]. split.
    + rewrite IH3, <- app_assoc. f_equal.
      change (t :: replicate n t) with (replicate (S n) t).
      now rewrite replicate_S_end.
    + unfold frame in *. simpl. exact IH4.
Qed.

Lemma ran_refl kwargs task t w : ran kwargs task t w w [].
Proof. repeat split; [now rewrite app_nil_r|constructor]. Qed.

Lemma ran_trans kwargs task t w1 w2 w3 evs1 evs2 :
  ran kwargs task t w1 w2 evs1 -> ran kwargs task t w2 w3 evs2 ->
  ran kwargs task t w1 w3 (evs1 ++ evs2).
Proof.
  intros (Hl1 & Hs1 & Hh1 & Hf1) (Hl2 & Hs2 & Hh2 & Hf2). repeat split.
  - rewrite Hl2, Hl1. now rewrite app_assoc.
  - rewrite Hs2, Hs1, performed_app, length_app, Nat.add_comm.
    now rewrite Nat.iter_add.
  - congruence.
  - now apply Forall_app.
Qed.

Lemma ran_valid kwargs task t w w' evs :
  ran kwargs task t w w' evs ->
  _current_task (self w) = Some t -> (context t < length (heap w))%nat ->
  _current_task (self w') = Some t ∧ (context t < length (heap w'))%nat.
Proof.
  intros (_ & Hs & Hh & _) Ht Hl. rewrite Hs, Hh.
  destruct (iter_append_completed (length (performed evs)) t (self w)) as (-> & _).
  auto.
Qed.

Lemma perform_ability_ran task schema kwargs w t r w' :
  _current_task (self w) = Some t -> (context t < length (heap w))%nat ->
  perform_ability host task schema kwargs w = (r, w') ->
  exists evs, ran kwargs task t w w' evs.
Proof.
  intros Ht Hl H.
  assert (Hcarry : forall rt p reply,
            first_clash ["self"; "task"; "ability_schema"] kwargs = None ->
            carries kwargs task
              (EvCompletion
                 (<["task" := task]>
                    (<["ability_schema" := VSchema schema]> kwargs) ∪ rt) p reply)).
  { intros rt p reply Hc. simpl in Hc.
    destruct (kwargs !! "self") eqn:H1; [discriminate|].
    destruct (kwargs !! "task") eqn:H2; [discriminate|].
    destruct (kwargs !! "ability_schema") eqn:H3; [discriminate|].
    repeat split.
    - intros k v Hk. apply lookup_union_Some_l.
      rewrite !lookup_insert_ne by congruence. exact Hk.
    - apply lookup_union_Some_l. apply lookup_insert_eq.
    - exists schema. apply lookup_union_Some_l.
      rewrite lookup_insert_ne by done. apply lookup_insert_eq. }
  apply (perform_ability_cases host _ _ _ _ _ _ _ Ht Hl) in H
    as [(e & -> & Hs & Hh & Hlog)|(a & rt & p & resp & -> & Hc & _ & Hs & Hh & Hlog)].
  - destruct Hlog as [Hlog|(rt & p & reply & Hc & [Hlog|(next & args & Hlog)])].
    + exists []. repeat split; [now rewrite app_nil_r|now rewrite Hs|
                                 now rewrite Hh|constructor].
    + eexists [_]. repeat split; [exact Hlog|now rewrite Hs|now rewrite Hh|].
      repeat (apply Forall_cons_2; [first [exact I|now apply Hcarry]|]).
      apply Forall_nil_2.
    + eexists [_; _]. repeat split; [exact Hlog|now rewrite Hs|now rewrite Hh|].
      repeat (apply Forall_cons_2; [first [exact I|now apply Hcarry]|]).
      apply Forall_nil_2.
  - eexists [_; _; _]. repeat split; [exact Hlog|now rewrite Hs| |].
    + rewrite Hh. apply length_alter.
    + repeat (apply Forall_cons_2; [first [exact I|now apply Hcarry]|]).
      apply Forall_nil_2.
Qed.

Lemma for_each_ran task kwargs l w t r w' :
  _current_task (self w) = Some t -> (context t < length (heap w))%nat ->
  for_each (fun ability => perform_ability host task [dump ability] kwargs) l w
    = (r, w') ->
  exists evs, ran kwargs task t w w' evs.
Proof.
  revert w r w'. induction l as [|b l IH]; intros w r w' Ht Hl H; simpl in H.
  { inversion H; subst. exists []. apply ran_refl. }
  apply bind_inv in H as [(e & H & ->)|(a & w1 & H & H')];
    apply (perform_ability_ran _ _ _ _ _ _ _ Ht Hl) in H as (evs1 & H1).
  { eauto. }
  destruct (ran_valid _ _ _ _ _ _ H1 Ht Hl) as [Ht1 Hl1].
  apply bind_inv in H' as [(e & H & ->)|(acts & w2 & H & H')];
    apply (IH _ _ _ Ht1 Hl1) in H as (evs2 & H2).
  { exists (evs1 ++ evs2). eapply ran_trans; eauto. }
  inversion H'; subst. exists (evs1 ++ evs2). eapply ran_trans; eauto.
Qed.

Lemma carries_completion kwargs task schema rt p reply :
  first_clash ["self"; "task"; "ability_schema"] kwargs = None ->
  carries kwargs task
    (EvCompletion
       (<["task" := task]> (<["ability_schema" := VSchema schema]> kwargs) ∪ rt)
       p reply).
Proof.
  intros Hc. simpl in Hc.
  destruct (kwargs !! "self") eqn:H1; [discriminate|].
  destruct (kwargs !! "task") eqn:H2; [discriminate|].
  destruct (kwargs !! "ability_schema") eqn:H3; [discriminate|].
  repeat split.
  - intros k v Hk. apply lookup_union_Some_l.
    rewrite !lookup_insert_ne by congruence. exact Hk.
  - apply lookup_union_Some_l. apply lookup_insert_eq.
  - exists schema. apply lookup_union_Some_l.
    rewrite lookup_insert_ne by done. apply lookup_insert_eq.
Qed.

Lemma ran_logged kwargs task t w ev :
  performed [ev] = [] -> carries kwargs task ev ->
  ran kwargs task t w (logged ev w) [ev].
Proof.
  intros Hp Hc. repeat split; [now rewrite Hp|].
  apply Forall_cons_2; [exact Hc|apply Forall_nil_2].
Qed.

(** The last stretch of a call for a task whose context is in the store. *)
Lemma to_end_ran kwargs task next args outcome w t r w' :
  _current_task (self w) = Some t -> (context t < length (heap w))%nat ->
  to_end next args outcome w = (r, w') ->
  exists evs, ran kwargs task t w w' evs.
Proof.
  intros Ht Hl H. unfold to_end in H.
  destruct outcome as [fault|[res mems]].
  { inversion H; subst. exists []. apply ran_refl. }
  set (a := {| ability_name := next; arguments := args;
               result := res; get_memories := mems |}) in *.
  assert (Hp : perform_result next args (inr (res, mems)) w
               = (Ok a, logged (EvAction a) w)) by reflexivity.
  rewrite (bind_ok _ _ _ _ _ Hp) in H.
  erewrite bind_ok in H by (apply _update_tasks_and_memory_eq; exact Ht).
  set (w3 := set_heap _ _) in H.
  destruct (lookup_lt_is_Some_2 (heap w) (context t) Hl) as [c0 Hc0].
  assert (Hr : read_context w3 = (Ok (apply_action c0 a), w3)).
  { unfold read_context, current_context_loc, mbind, M_bind, bind, gets.
    simpl. rewrite Ht. simpl. rewrite list_lookup_alter_eq, Hc0. reflexivity. }
  rewrite (bind_ok _ _ _ _ _ Hr) in H.
  destruct (decide (status (apply_action c0 a) = DONE)) as [_|Hne];
    [|exfalso; now apply Hne].
  rewrite (bind_ok _ _ _ _ _ (append_current_task_eq _ w3 t Ht)) in H.
  inversion H; subst; clear H.
  exists [EvAction a]. repeat split.
  - simpl. apply length_alter.
  - apply Forall_cons_2; [exact I|apply Forall_nil_2].
Qed.

(** One stretch of a call made for [task] with [kwargs]. *)
Lemma resume_ran task kwargs c w t r w' :
  _current_task (self w) = Some t -> (context t < length (heap w))%nat ->
  (forall task' schema kwargs',
     c = Fresh task' schema kwargs' -> task' = task ∧ kwargs' = kwargs) ->
  resume host c w = (r, w') ->
  (exists evs, ran kwargs task t w w' evs) ∧
  forall c' task' schema kwargs',
    r = Ok c' -> c' <> Fresh task' schema kwargs'.
Proof.
  intros Ht Hl Hfresh H.
  destruct c as [task' schema kwargs'|reply|next args outcome|a]; simpl in H.
  - destruct (Hfresh _ _ _ eq_refl) as [-> ->].
    apply bind_inv in H as [(e & H & ->)|(reply & w1 & H & H')];
      apply to_model_inv in H
        as [(-> & e' & Hr)|(rt & p & reply' & Hc & -> & Hr)]; try discriminate.
    + split; [exists []; apply ran_refl|discriminate].
    + inversion H'; subst. split.
      * eexists [_]. apply ran_logged; [reflexivity|now apply carries_completion].
      * intros ? ? ? ? Hc'; inversion Hc'; subst; discriminate.
  - apply bind_inv in H as [(e & H & ->)|([[next args] outcome] & w1 & H & H')];
      apply to_ability_inv in H
        as [(-> & e' & Hr)|(response & next' & outcome' & -> & Hn & -> & Hr)];
      try discriminate.
    + split; [exists []; apply ran_refl|discriminate].
    + inversion H'; subst. split.
      * eexists [_]. apply ran_logged; [reflexivity|exact I].
      * intros ? ? ? ? Hc'; inversion Hc'; subst; discriminate.
  - apply bind_inv in H as [(e & H & ->)|(a & w1 & H & H')];
      apply (to_end_ran kwargs task _ _ _ _ _ _ _ Ht Hl) in H as Hran.
    + split; [exact Hran|discriminate].
    + inversion H'; subst. split; [exact Hran|].
      intros ? ? ? ? Hc'; inversion Hc'; subst; discriminate.
  - inversion H; subst. split; [exists []; apply ran_refl|].
    intros ? ? ? ? Hc'; inversion Hc'; subst; discriminate.
Qed.

Lemma drive_ran task kwargs schedule pool failure w t pool' failure' w' :
  _current_task (self w) = Some t -> (context t < length (heap w))%nat ->
  Forall (fun slot => forall task' schema kwargs',
            slot = inr (Fresh task' schema kwargs') ->
            task' = task ∧ kwargs' = kwargs) pool ->
  drive host schedule pool failure w = (pool', failure', w') ->
  (exists evs, ran kwargs task t w w' evs) ∧
  Forall (fun slot => forall task' schema kwargs',
            slot = inr (Fresh task' schema kwargs') ->
            task' = task ∧ kwargs' = kwargs) pool'.
Proof.
  revert pool failure w.
  induction schedule as [|i s IH]; intros pool failure w Ht Hl Hpool H;
    simpl in H.
  { inversion H; subst. split; [exists []; apply ran_refl|exact Hpool]. }
  destruct (pool !! i) as [[e|c]|] eqn:Hi;
    [exact (IH _ _ _ Ht Hl Hpool H)| |exact (IH _ _ _ Ht Hl Hpool H)].
  assert (Hc : forall task' schema kwargs',
            c = Fresh task' schema kwargs' -> task' = task ∧ kwargs' = kwargs).
  { intros task' schema kwargs' ->.
    exact (proj1 (Forall_lookup _ _) Hpool _ _ Hi _ _ _ eq_refl). }
  destruct (resume host c w) as [[c'|e] w1] eqn:Hr;
    destruct (resume_ran _ _ _ _ _ _ _ Ht Hl Hc Hr) as [(evs1 & H1) Hnot];
    destruct (ran_valid _ _ _ _ _ _ H1 Ht Hl) as [Ht1 Hl1].
  - assert (Hpool1 : Forall (fun slot => forall task' schema kwargs',
              slot = inr (Fresh task' schema kwargs') ->
              task' = task ∧ kwargs' = kwargs) (<[i := inr c']> pool)).
    { apply Forall_insert; [exact Hpool|].
      intros task' schema kwargs' Heq. inversion Heq; subst c'.
      now destruct (Hnot _ task' schema kwargs' eq_refl). }
    destruct (IH _ _ _ Ht1 Hl1 Hpool1 H) as [(evs2 & H2) Hp].
    split; [|exact Hp]. exists (evs1 ++ evs2). eapply ran_trans; eauto.
  - assert (Hpool1 : Forall (fun slot => forall task' schema kwargs',
              slot = inr (Fresh task' schema kwargs') ->
              task' = task ∧ kwargs' = kwargs) (<[i := inl e]> pool)).
    { apply Forall_insert; [exact Hpool|]. discriminate. }
    destruct (IH _ _ _ Ht1 Hl1 Hpool1 H) as [(evs2 & H2) Hp].
    split; [|exact Hp]. exists (evs1 ++ evs2). eapply ran_trans; eauto.
Qed.

Lemma gather_ran schedule task kwargs l w t r w' :
  _current_task (self w) = Some t -> (context t < length (heap w))%nat ->
  gather host schedule
    ((fun ability => Fresh task [dump ability] kwargs) <$> l) w = (r, w') ->
  exists evs, ran kwargs task t w w' evs.
Proof.
  intros Ht Hl H. unfold gather in H.
  destruct (drive host schedule _ None w) as [[pool1 failure1] w1] eqn:H1.
  apply (drive_ran task kwargs _ _ _ _ _ _ _ _ Ht Hl) in H1
    as [(evs1 & Hr1) Hpool1].
  2:{ apply Forall_forall. intros slot Hin.
      apply list_elem_of_fmap in Hin as (c & -> & Hin).
      apply list_elem_of_fmap in Hin as (b & -> & _).
      intros task' schema kwargs' Heq. inversion Heq. auto. }
  destruct failure1 as [e|]; [inversion H; subst; eauto|].
  destruct (ran_valid _ _ _ _ _ _ Hr1 Ht Hl) as [Ht1 Hl1].
  destruct (drive host (to_the_end _) pool1 None w1)
    as [[pool2 failure2] w2] eqn:H2.
  apply (drive_ran task kwargs _ _ _ _ _ _ _ _ Ht1 Hl1 Hpool1) in H2
    as [(evs2 & Hr2) _].
  exists (evs1 ++ evs2).
  destruct failure2 as [e|]; inversion H; subst; eapply ran_trans; eauto.
Qed.

Lemma exec_abilities_ran task kwargs w t r w' :
  _current_task (self w) = Some t -> (context t < length (heap w))%nat ->
  exec_abilities host task kwargs w = (r, w') ->
  exists evs, ran kwargs task t w w' evs.
Proof.
  intros Ht Hl H. unfold exec_abilities in H.
  apply bind_inv in H as [(e & H & ->)|([] & w1 & H & H')];
    apply bind_arguments_inv in H as [-> Hc].
  { exists []. apply ran_refl. }
  rewrite !bind_gets in H'. destruct (_execution_nature (self w)).
  - exact (for_each_ran _ _ _ _ _ _ _ Ht Hl H').
  - unfold now in H'. rewrite bind_gets in H'.
    exact (gather_ran _ _ _ _ _ _ _ _ Ht Hl H').
  - apply bind_inv in H' as [(e & H & ->)|(a & w2 & H & H')];
      apply (perform_ability_ran _ _ _ _ _ _ _ Ht Hl) in H as (evs & H1).
    + eauto.
    + inversion H'; subst. eauto.
  - exact (for_each_ran _ _ _ _ _ _ _ Ht Hl H').
Qed.

Lemma execute_loop_ran fuel kwargs w t r w' :
  _current_task (self w) = Some t -> (context t < length (heap w))%nat ->
  execute_loop host fuel kwargs w = (r, w') ->
  exists evs, ran kwargs (VTask t) t w w' evs.
Proof.
  revert w r w'. induction fuel as [|fuel IH]; intros w r w' Ht Hl H.
  { rewrite execute_loop_O in H. inversion H; subst. exists []. apply ran_refl. }
  rewrite execute_loop_unfold in H.
  assert (Hv : current_task_value w = VTask t)
    by (unfold current_task_value; now rewrite Ht).
  rewrite Hv in H.
  destruct (exec_abilities host _ kwargs w) as [[acts|e] w1] eqn:H1;
    apply (exec_abilities_ran _ _ _ _ _ _ Ht Hl) in H1 as (evs1 & H1).
  - destruct (ran_valid _ _ _ _ _ _ H1 Ht Hl) as [Ht1 Hl1].
    apply (IH _ _ _ Ht1 Hl1) in H as (evs2 & H2).
    exists (evs1 ++ evs2). eapply ran_trans; eauto.
  - inversion H; subst. eauto.
Qed.

End MoreCycles.

Section MoreExecutions.

Context (host : Host).

(** A run of [execute] on an objective in the store, from its first
    statement to wherever it has come. *)
Lemma execute_ran fuel objective args kwargs w :
  in_store objective w ->
  let r := execute host fuel objective args kwargs w in
  (r.2 = w ∧ exists p, r.1 = Raised (TypeError p)) ∨
  (exists t evs w1,
     ran (passed_on args kwargs) (VTask t) t w1 r.2 evs ∧
     log w1 = log w ∧
     self w1 = set_current_context
                 (default (_current_context (self w)) (kwargs !! "context"))
                 (set_current_task (Some t) (self w))).
Proof.
  intros Hin. simpl. unfold execute.
  destruct (execute_enter objective args kwargs w) as [[kw|e] w1] eqn:He;
    apply execute_enter_inv in He
      as [(-> & p & Hr & Hc)|(_ & t & kw' & Hr & Hkw & Hlog & Hs & Hheap)];
    try discriminate.
  2:{ left. inversion Hr; subst. simpl. eauto. }
  right. inversion Hr; subst kw; clear Hr.
  assert (Ht : _current_task (self w1) = Some t) by now rewrite Hs.
  assert (Hl : (context t < length (heap w1))%nat).
  { destruct Hheap as [[-> ->]|(_ & -> & ->)]; [exact Hin|].
    rewrite length_app. simpl. lia. }
  destruct (execute_loop host fuel kw' w1) as [r w2] eqn:Hloop.
  apply (execute_loop_ran _ _ _ _ _ _ _ Ht Hl) in Hloop as (evs & Hran).
  exists t, evs, w1. subst kw'. simpl. auto.
Qed.

(** X1.  Every action performed puts the task once more on the list of
    completed tasks, and nothing is ever put on the task queue: after a run
    of [execute], of any length and outcome, the queue is as it was and the
    completed tasks are those before the run followed by as many copies of
    the task driven as actions were performed. *)
Theorem execute_completes_the_task_once_per_action fuel objective args kwargs w :
  in_store objective w ->
  let r := execute host fuel objective args kwargs w in
  exists evs,
    log r.2 = log w ++ evs ∧
    _task_queue (self r.2) = _task_queue (self w) ∧
    forall t, _current_task (self r.2) = Some t ->
      _completed_tasks (self r.2)
      = _completed_tasks (self w) ++ replicate (length (performed evs)) t.
Proof.
  intros Hin. simpl.
  destruct (execute_ran fuel objective args kwargs w Hin)
    as [(-> & _)|(t & evs & w1 & (Hlog & Hs & _) & Hlog1 & Hs1)].
  - exists []. simpl. rewrite !app_nil_r. auto.
  - destruct (iter_append_completed (length (performed evs)) t (self w1))
      as (Ht & Hq & Hc & _).
    exists evs. rewrite Hs, Hq, Hc, Ht, Hs1, Hlog, Hlog1. simpl.
    repeat split. intros t' Ht'. now inversion Ht'.
Qed.

(** X2.  Every prompt of a run is built from the keyword arguments of the
    caller, the positional argument, if there is one, among them under
    ["context"], together with the task driven and an ability schema. *)
Theorem execute_prompts_carry_arguments fuel objective args kwargs w :
  in_store objective w ->
  let r := execute host fuel objective args kwargs w in
  exists evs,
    log r.2 = log w ++ evs ∧
    forall t, _current_task (self r.2) = Some t ->
      Forall (carries (passed_on args kwargs) (VTask t)) evs.
Proof.
  intros Hin. simpl.
  destruct (execute_ran fuel objective args kwargs w Hin)
    as [(-> & _)|(t & evs & w1 & (Hlog & Hs & _ & Hall) & Hlog1 & Hs1)].
  - exists []. rewrite !app_nil_r. split; [reflexivity|]. intros; constructor.
  - destruct (iter_append_completed (length (performed evs)) t (self w1))
      as (Ht & _).
    exists evs. rewrite Hs, Ht, Hs1, Hlog, Hlog1. simpl.
    split; [reflexivity|]. intros t' Ht'. inversion Ht'; subst t'. exact Hall.
Qed.

(** X3.  The names that the engine gives to its own parameters cannot be
    used as keyword arguments of [execute]: with a task for objective, an
    argument named [task] makes the first cycle raise [TypeError] before
    anything is asked of the model, and so do, in AUTO mode, an argument
    named [ability_schema] and an argument named [prompt_strategy]. *)
Theorem execute_rejects_parameter_names fuel t args kwargs w :
  kwargs !! "self" = None -> kwargs !! "objective" = None ->
  let r := execute host (S fuel) (ObjTask t) args kwargs w in
  (is_Some (kwargs !! "task") ->
   r.1 = Raised (TypeError "task") ∧ log r.2 = log w) ∧
  (_execution_nature (self w) = AUTO -> kwargs !! "task" = None ->
   is_Some (kwargs !! "ability_schema") ->
   r.1 = Raised (TypeError "ability_schema") ∧ log r.2 = log w) ∧
  (_execution_nature (self w) = AUTO -> kwargs !! "task" = None ->
   kwargs !! "ability_schema" = None ->
   is_Some (kwargs !! "prompt_strategy") ->
   r.1 = Raised (TypeError "prompt_strategy") ∧ log r.2 = log w).
Proof.
  intros Hself Hobj. simpl. unfold execute.
  destruct (execute_enter (ObjTask t) args kwargs w) as [[kw|e] w1] eqn:He;
    apply execute_enter_inv in He
      as [(-> & p & Hr & Hc)|(_ & t' & kw' & Hr & Hkw & Hlog & Hs & Hheap)];
    try discriminate.
  2:{ simpl in Hc. rewrite Hself, Hobj in Hc. discriminate. }
  inversion Hr; subst kw; clear Hr.
  assert (Hpass : forall k, k <> "context" -> kw' !! k = kwargs !! k).
  { intros k Hk. subst kw'. destruct args; [reflexivity|].
    now rewrite lookup_insert_ne. }
  assert (Hn1 : _execution_nature (self w1) = _execution_nature (self w))
    by now rewrite Hs.
  assert (Hclash : forall {B} params p (k : unit -> M B) w0,
            first_clash params kw' = Some p ->
            ((bind_arguments params kw' ≫= k) : M B) w0
            = (Raise (TypeError p), w0)).
  { intros B params p k w0 Hc. unfold bind_arguments. now rewrite Hc. }
  assert (Hfree : forall {B} params (k : unit -> M B) w0,
            first_clash params kw' = None ->
            ((bind_arguments params kw' ≫= k) : M B) w0 = k tt w0).
  { intros B params k w0 Hc. unfold bind_arguments. now rewrite Hc. }
  rewrite execute_loop_unfold. unfold exec_abilities.
  split; [|split].
  - intros [v Hv]. rewrite (Hclash _ _ "task").
    + now split.
    + simpl. rewrite !Hpass by done. now rewrite Hself, Hv.
  - intros Hn Htask [v Hv]. rewrite Hfree.
    2:{ simpl. rewrite !Hpass by done. now rewrite Hself, Htask. }
    rewrite !bind_gets, Hn1, Hn.
    assert (Hp : forall schema,
              perform_ability host (current_task_value w1) schema kw' w1
              = (Raise (TypeError "ability_schema"), w1)).
    { intros schema. unfold perform_ability. apply Hclash.
      simpl. rewrite !Hpass by done. now rewrite Hself, Htask, Hv. }
    rewrite (bind_raise _ _ _ _ _ (Hp _)). now split.
  - intros Hn Htask Hschema [v Hv]. rewrite Hfree.
    2:{ simpl. rewrite !Hpass by done. now rewrite Hself, Htask. }
    rewrite !bind_gets, Hn1, Hn.
    assert (Hfree3 : first_clash ["self"; "task"; "ability_schema"] kw' = None).
    { simpl. rewrite !Hpass by done. now rewrite Hself, Htask, Hschema. }
    assert (Hd : forall schema,
              determine_next_ability host (current_task_value w1) schema kw' w1
              = (Raise (TypeError "prompt_strategy"), w1)).
    { intros schema. unfold determine_next_ability.
      rewrite (Hfree _ _ _ _ Hfree3), bind_gets.
      unfold chat_with_model, bind_arguments. simpl.
      rewrite !lookup_insert_ne by done. rewrite !Hpass by done.
      now rewrite Hself, Hv. }
    assert (Hp : forall schema,
              perform_ability host (current_task_value w1) schema kw' w1
              = (Raise (TypeError "prompt_strategy"), w1)).
    { intros schema. unfold perform_ability.
      rewrite (Hfree _ _ _ _ Hfree3), bind_gets, Hn1, Hn. simpl.
      now rewrite (bind_raise _ _ _ _ _ (Hd _)). }
    rewrite (bind_raise _ _ _ _ _ (Hp _)). now split.
Qed.

End MoreExecutions.

Section MoreFailures.

Context (host : Host).

Lemma for_each_raise task kwargs l w t e w' :
  _current_task (self w) = Some t -> (context t < length (heap w))%nat ->
  for_each (fun ability => perform_ability host task [dump ability] kwargs) l w
    = (Raise e, w') ->
  exists evs,
    log w' = log w ++ evs ∧
    offered evs `prefix_of` (fun a => VSchema [dump a]) <$> l ∧
    (length (offered evs) <= S (length (performed evs)))%nat ∧
    (length (performed evs) < length l)%nat.
Proof.
  revert w w'. induction l as [|b l IH]; intros w w' Ht Hl H; simpl in H.
  { discriminate. }
  apply bind_inv in H as [(e' & H & He)|(a & w1 & H & H')].
  - apply (perform_ability_cases host _ _ _ _ _ _ _ Ht Hl) in H
      as [(e'' & _ & _ & _ & Hlog)|(a & rt & p & resp & ? & _)]; [|discriminate].
    assert (Hoff : forall rt p reply,
              first_clash ["self"; "task"; "ability_schema"] kwargs = None ->
              offered [EvCompletion
                         (<["task" := task]>
                            (<["ability_schema" := VSchema [dump b]]> kwargs) ∪ rt)
                         p reply] = [VSchema [dump b]]).
    { intros rt p reply Hc. unfold offered. simpl.
      erewrite lookup_union_Some_l; [reflexivity|].
      rewrite lookup_insert_ne by done. apply lookup_insert_eq. }
    destruct Hlog as [Hlog|(rt & p & reply & Hc & [Hlog|(next & args & Hlog)])].
    + exists []. rewrite app_nil_r. repeat split; simpl; try lia; try assumption.
      apply prefix_nil.
    + eexists [_]. split; [exact Hlog|]. rewrite (Hoff _ _ _ Hc). simpl.
      repeat split; try lia. apply prefix_cons, prefix_nil.
    + eexists [_; _]. split; [exact Hlog|].
      change [?x; ?y] with ([x] ++ [y]).
      rewrite offered_app, performed_app, (Hoff _ _ _ Hc). simpl.
      repeat split; try lia. apply prefix_cons, prefix_nil.
  - assert (Hran := H).
    apply (perform_ability_ran host _ _ _ _ _ _ _ Ht Hl) in Hran as (evs0 & Hran).
    destruct (ran_valid _ _ _ _ _ _ Hran Ht Hl) as [Ht1 Hl1].
    apply (perform_ability_cases host _ _ _ _ _ _ _ Ht Hl) in H
      as [(e'' & ? & _)|(a' & rt & p & resp & _ & Hc & _ & _ & _ & Hlog)];
      [discriminate|].
    apply bind_inv in H' as [(e' & H' & He)|(acts & w2 & _ & H')];
      [|discriminate].
    inversion He; subst e'; clear He.
    apply (IH _ _ Ht1 Hl1) in H' as (evs2 & Hlog2 & Hpre & Hlen & Hlt).
    eexists (_ ++ evs2). split; [rewrite Hlog2, Hlog; now rewrite <- app_assoc|].
    rewrite offered_app, performed_app.
    assert (Hoff : offered
                     [EvCompletion
                        (<["task" := task]>
                           (<["ability_schema" := VSchema [dump b]]> kwargs) ∪ rt)
                        p (inr resp);
                      EvInvoke (ability_name a') (arguments a'); EvAction a']
                   = [VSchema [dump b]]).
    { unfold offered. simpl.
      erewrite lookup_union_Some_l; [reflexivity|].
      rewrite lookup_insert_ne by done. apply lookup_insert_eq. }
    rewrite Hoff. simpl. rewrite ?length_app. simpl.
    repeat split; try lia. now apply prefix_cons.
Qed.

(** X4.  A cycle that takes the abilities one after the other stops at the
    first call that raises: the abilities offered to the model are the first
    registered ones, in order, at most one more than the actions performed,
    and fewer actions were performed than abilities are registered. *)
Theorem sequential_cycle_stops_at_first_failure task kwargs w t e w' :
  _current_task (self w) = Some t -> (context t < length (heap w))%nat ->
  _execution_nature (self w) = SEQUENTIAL ∨ _execution_nature (self w) = SIMPLE ->
  first_clash ["self"; "task"] kwargs = None ->
  exec_abilities host task kwargs w = (Raise e, w') ->
  exists evs,
    log w' = log w ++ evs ∧
    offered evs `prefix_of`
      (fun a => VSchema [dump a]) <$> abilities (_ability_registry (self w)) ∧
    (length (offered evs) <= S (length (performed evs)))%nat ∧
    (length (performed evs) < length (abilities (_ability_registry (self w))))%nat.
Proof.
  intros Ht Hl Hn Hc H. unfold exec_abilities in H.
  rewrite (bind_ok _ _ _ _ _ (bind_arguments_ok _ _ _ Hc)), !bind_gets in H.
  destruct Hn as [Hn|Hn]; rewrite Hn in H;
    exact (for_each_raise _ _ _ _ _ _ _ Ht Hl H).
Qed.

End MoreFailures.

Section MoreConstruction.

Context (host : Host).

Lemma resolve_providers_found model_providers items ps cls mc :
  resolve_providers model_providers items = inr ps ->
  dict_get cls items = Some mc ->
  exists provider,
    model_providers !! provider_name mc = Some provider ∧
    dict_get cls ps = Some provider.
Proof.
  revert ps. induction items as [|[m cfg] items IH]; intros ps Hres Hget;
    simpl in *; [discriminate|].
  destruct (model_providers !! provider_name cfg) as [p|] eqn:Hp; [|discriminate].
  destruct (resolve_providers model_providers items) as [e|ps'] eqn:Hrest;
    [discriminate|].
  inversion Hres; subst ps; clear Hres. simpl.
  destruct (decide (m = cls)).
  - inversion Hget; subst mc. eauto.
  - now apply IH.
Qed.

Lemma resolve_providers_unconfigured model_providers items ps cls :
  resolve_providers model_providers items = inr ps ->
  dict_get cls items = None -> dict_get cls ps = None.
Proof.
  revert ps. induction items as [|[m cfg] items IH]; intros ps Hres Hget;
    simpl in *; [now inversion Hres|].
  destruct (model_providers !! provider_name cfg) as [p|]; [|discriminate].
  destruct (resolve_providers model_providers items) as [e|ps'] eqn:Hrest;
    [discriminate|].
  inversion Hres; subst ps; clear Hres. simpl.
  destruct (decide (m = cls)); [discriminate|]. now apply IH.
Qed.

Lemma resolve_providers_missing model_providers items e :
  resolve_providers model_providers items = inl e ->
  exists cls mc,
    (cls, mc) ∈ items ∧ model_providers !! provider_name mc = None ∧
    e = KeyError (provider_name mc).
Proof.
  induction items as [|[m cfg] items IH]; intros Hres; simpl in *; [discriminate|].
  destruct (model_providers !! provider_name cfg) as [p|] eqn:Hp.
  - destruct (resolve_providers model_providers items) as [e'|ps'] eqn:Hrest;
      [|discriminate].
    inversion Hres; subst e'. destruct (IH eq_refl) as (cls & mc & Hin & Hnone & He).
    exists cls, mc. split; [now apply list_elem_of_further|auto].
  - inversion Hres; subst e. exists m, cfg. split; [apply list_elem_of_here|auto].
Qed.

Lemma resolve_providers_all model_providers items ps :
  resolve_providers model_providers items = inr ps ->
  forall cls mc, (cls, mc) ∈ items -> is_Some (model_providers !! provider_name mc).
Proof.
  revert ps. induction items as [|[m cfg] items IH]; intros ps Hres cls mc Hin;
    simpl in *; [now apply elem_of_nil in Hin|].
  destruct (model_providers !! provider_name cfg) as [p|] eqn:Hp; [|discriminate].
  destruct (resolve_providers model_providers items) as [e|ps'] eqn:Hrest;
    [discriminate|].
  apply elem_of_cons in Hin as [Hin|Hin].
  - inversion Hin; subst. now rewrite Hp.
  - exact (IH ps' eq_refl cls mc Hin).
Qed.

(** The providers of a pilot that [__init__] has built. *)
Lemma init_providers registry model_providers configuration store w cls :
  __init__ host registry model_providers configuration store = inr w ->
  _configuration (self w) = configuration ∧
  match dict_get cls (models configuration) with
  | Some mc =>
      exists provider,
        model_providers !! provider_name mc = Some provider ∧
        dict_get cls (_providers (self w)) = Some provider
  | None => dict_get cls (_providers (self w)) = None
  end.
Proof.
  unfold __init__.
  destruct (resolve_providers model_providers (models configuration))
    as [e|ps] eqn:Hres; [discriminate|].
  destruct (match strategy_location (prompt_strategy configuration) with
            | Some location => load_class host location _
            | None => new_NextAbility host _
            end) as [e|strategy]; intros H; inversion H; subst w; clear H. simpl.
  split; [reflexivity|].
  destruct (dict_get cls (models configuration)) as [mc|] eqn:Hget.
  - exact (resolve_providers_found _ _ _ _ _ Hres Hget).
  - exact (resolve_providers_unconfigured _ _ _ _ Hres Hget).
Qed.

(** X5.  [__init__] raises the [KeyError] of a provider that a configured
    model asks for and [model_providers] does not hold; with every provider
    found it raises what the strategy class raises, the class at the
    location of the strategy's configuration or, without a location,
    [NextAbility]; and otherwise it builds its pilot.  The pilot starts with
    no task, empty queues and a fresh context of its own at the end of the
    store, holds the strategy that the class has built, the registry and the
    execution nature it was given, and has a provider for exactly the
    classifications that the configuration gives a model to: the provider
    that [model_providers] holds under the name the model asks for. *)
Theorem init_resolves_the_configured_providers registry model_providers
    configuration store :
  let built :=
    match strategy_location (prompt_strategy configuration) with
    | Some location =>
        load_class host location (prompt_config (prompt_strategy configuration))
    | None => new_NextAbility host (prompt_config (prompt_strategy configuration))
    end in
  match __init__ host registry model_providers configuration store with
  | inr w =>
      built = inr (_prompt_strategy (self w)) ∧
      _task_queue (self w) = [] ∧ _completed_tasks (self w) = [] ∧
      _current_task (self w) = None ∧
      _current_context (self w) = VContext (length store) ∧
      heap w = store ++ [new_Context] ∧ log w = [] ∧
      _ability_registry (self w) = registry ∧
      _execution_nature (self w) = execution_nature configuration ∧
      forall cls,
        match dict_get cls (models configuration) with
        | Some mc =>
            exists provider,
              model_providers !! provider_name mc = Some provider ∧
              dict_get cls (_providers (self w)) = Some provider
        | None => dict_get cls (_providers (self w)) = None
        end
  | inl e =>
      (exists cls mc,
         (cls, mc) ∈ models configuration ∧
         model_providers !! provider_name mc = None ∧
         e = KeyError (provider_name mc)) ∨
      ((forall cls mc, (cls, mc) ∈ models configuration ->
          is_Some (model_providers !! provider_name mc)) ∧
       built = inl e)
  end.
Proof.
  unfold __init__.
  destruct (resolve_providers model_providers (models configuration))
    as [e|ps] eqn:Hres.
  - left. now apply resolve_providers_missing.
  - simpl.
    destruct (match strategy_location (prompt_strategy configuration) with
              | Some location => load_class host location _
              | None => new_NextAbility host _
              end) as [e|strategy].
    + right. split; [|reflexivity]. exact (resolve_providers_all _ _ _ Hres).
    + simpl. repeat split. intros cls.
      destruct (dict_get cls (models configuration)) as [mc|] eqn:Hget.
      * exact (resolve_providers_found _ _ _ _ _ Hres Hget).
      * exact (resolve_providers_unconfigured _ _ _ _ Hres Hget).
Qed.

Lemma execute_frame fuel objective args kwargs w :
  let r := execute host fuel objective args kwargs w in
  _configuration (self r.2) = _configuration (self w) ∧
  _providers (self r.2) = _providers (self w) ∧
  _execution_nature (self r.2) = _execution_nature (self w) ∧
  _ability_registry (self r.2) = _ability_registry (self w) ∧
  _prompt_strategy (self r.2) = _prompt_strategy (self w).
Proof.
  simpl. unfold execute.
  destruct (execute_enter objective args kwargs w) as [[kw|e] w1] eqn:He;
    apply execute_enter_inv in He
      as [(-> & p & Hr & Hc)|(_ & t & kw' & Hr & _ & _ & Hs & _)];
    try discriminate; [|now simpl].
  destruct (execute_loop host fuel kw w1) as [r w2] eqn:Hloop.
  apply execute_loop_step in Hloop as [(evs & _ & _ & Hf) _].
  unfold frame in Hf. simpl. injection Hf as H1 H2 H3 H4 H5 H6 H7.
  rewrite Hs in H1, H2, H3, H4, H5. simpl in *. auto.
Qed.

(** X6.  A pilot built by [__init__] never misses a provider.  At any
    point of any run, [chat_with_model] with keyword arguments that name
    neither [self] nor [prompt_strategy] raises the [KeyError] of the
    classification of the strategy, with nothing asked or logged, when the
    configuration has no model for it; when it has one, the provider that
    [model_providers] holds under the name that model asks for is found, the
    prompt is built for it and, unless building it raises, that provider is
    asked for that model. *)
Theorem constructed_pilot_finds_its_provider registry model_providers
    configuration store w0 fuel objective args kwargs strategy kw :
  __init__ host registry model_providers configuration store = inr w0 ->
  first_clash ["self"; "prompt_strategy"] kw = None ->
  let w := (execute host fuel objective args kwargs w0).2 in
  match dict_get (model_classification strategy) (models configuration) with
  | None =>
      chat_with_model host strategy kw w
      = (Raise (KeyError (repr (model_classification strategy))), w)
  | Some mc =>
      exists provider,
        model_providers !! provider_name mc = Some provider ∧
        chat_with_model host strategy kw w =
          let tk := kw ∪ runtime_kwargs host provider (length (log w)) in
          match build_prompt strategy (heap w) tk with
          | inl e => (Raise e, w)
          | inr p =>
              let reply := create_language_completion provider (length (log w)) p
                             {| param_model_name := model_name mc;
                                param_temperature := temperature mc |} in
              (of_reply reply, logged (EvCompletion tk p reply) w)
          end
  end.
Proof.
  intros Hinit Hc w.
  destruct (execute_frame fuel objective args kwargs w0) as (Hcfg & Hps & _).
  fold w in Hcfg, Hps.
  destruct (init_providers registry model_providers configuration store w0
              (model_classification strategy) Hinit) as [Hc0 H].
  destruct (dict_get (model_classification strategy) (models configuration))
    as [mc|] eqn:Hget.
  - destruct H as (provider & Hmp & Hp). exists provider. split; [exact Hmp|].
    apply chat_with_model_eq; [exact Hc| |]; congruence.
  - unfold chat_with_model.
    rewrite (bind_ok _ _ _ _ _ (bind_arguments_ok _ _ _ Hc)), bind_gets.
    rewrite Hcfg, Hc0, Hget. reflexivity.
Qed.

End MoreConstruction.

(** ** The factories and the one-shot pilot *)

Section MoreFactories.

Context (host : Host)
        (NextAbility_default SimplePrompt_default : PromptStrategyConfiguration)
        (SimplePrompt : PromptStrategyConfiguration -> Exn + PromptStrategy)
        (pilot_default : PilotConfiguration)
        (generate_kwargs : list Context -> Task -> Kwargs).

(** X7.  [SuperTaskPilot.factory] called without models builds its pilot
    from the default models, which both ask for the OpenAI provider.  Left
    to create that provider itself, it fails with the error of the provider
    when the provider cannot be created and, when it can, with the error of
    the strategy class when the strategy cannot be built from the
    configuration given or else from the default one; otherwise the pilot has
    the strategy built, this provider for the fast and the smart model, the
    registry it was given, and the nature and the pilot configuration given
    or else the default ones (AUTO, a budget of three cycles).  Given
    providers among which OpenAI is missing, it raises [KeyError]. *)
Theorem factory_builds_from_the_defaults registry prompt_strategy execution_nature
    pilot_config location store :
  let strategy_config := default NextAbility_default prompt_strategy in
  let built :=
    match strategy_location strategy_config with
    | Some location => load_class host location (prompt_config strategy_config)
    | None => new_NextAbility host (prompt_config strategy_config)
    end in
  (forall provider,
     match Factory.factory host NextAbility_default (inr provider) registry
             prompt_strategy None execution_nature None pilot_config location
             store with
     | inl e => built = inl e
     | inr w =>
         built = inr (_prompt_strategy (self w)) ∧
         _ability_registry (self w) = registry ∧
         _execution_nature (self w) = default AUTO execution_nature ∧
         pilot (_configuration (self w))
         = default (pilot (Factory.settings
                             (Factory.default_configuration NextAbility_default)))
             pilot_config ∧
         max_task_cycle_count
           (pilot (Factory.settings
                     (Factory.default_configuration NextAbility_default)))
         = 3 ∧
         dict_get FAST_MODEL (_providers (self w)) = Some provider ∧
         dict_get SMART_MODEL (_providers (self w)) = Some provider
     end) ∧
  (forall e,
     Factory.factory host NextAbility_default (inl e) registry prompt_strategy
       None execution_nature None pilot_config location store = inl e) ∧
  (forall open_ai model_providers,
     model_providers !! Factory.OPENAI = None ->
     Factory.factory host NextAbility_default open_ai registry prompt_strategy
       (Some model_providers) execution_nature None pilot_config location store
     = inl (KeyError Factory.OPENAI)).
Proof.
  simpl. split; [|split].
  - intros provider. unfold Factory.factory, __init__.
    destruct location, execution_nature, prompt_strategy as [cfg|], pilot_config;
      simpl; rewrite lookup_singleton_eq.
    all: match goal with
         | |- context [strategy_location ?c] =>
             destruct (strategy_location c) as [l|];
             [destruct (load_class host l _)|destruct (new_NextAbility host _)]
         end; simpl; repeat split.
  - intros e. reflexivity.
  - intros open_ai model_providers Hmp. unfold Factory.factory, __init__.
    destruct location, execution_nature, prompt_strategy, pilot_config;
      simpl; rewrite Hmp; reflexivity.
Qed.

Lemma simple_factory_class open_ai cls given_strategy model_providers
    given_nature given_models given_location :
  (Simple.factory SimplePrompt open_ai cls given_strategy model_providers given_nature
     given_models given_location).1
  = Factory.assign Factory.set_models given_models
      (Factory.assign Factory.set_prompt_strategy given_strategy
         (Factory.assign Factory.set_execution_nature given_nature
            (Factory.assign Factory.set_location given_location cls))).
Proof.
  unfold Simple.factory. destruct model_providers; [reflexivity|].
  destruct open_ai; reflexivity.
Qed.

Lemma simple_factory_pilot open_ai cls given_strategy model_providers
    given_nature given_models given_location p :
  (Simple.factory SimplePrompt open_ai cls given_strategy model_providers given_nature
     given_models given_location).2 = inr p ->
  let cls1 := (Simple.factory SimplePrompt open_ai cls given_strategy model_providers
                 given_nature given_models given_location).1 in
  Simple._configuration p = Simple.TheDefault ∧
  Simple._execution_nature p = execution_nature (Factory.settings cls1) ∧
  SimplePrompt (prompt_strategy (Factory.settings cls1))
  = inr (Simple._prompt_strategy p) ∧
  let given :=
    match model_providers, open_ai with
    | Some given, _ => given
    | None, inr open_ai_provider => {[ Factory.OPENAI := open_ai_provider ]}
    | None, inl _ => ∅
    end in
  Simple.resolve (Some given) (models (Factory.settings cls1))
  = inr (Simple._providers p).
Proof.
  rewrite simple_factory_class. unfold Simple.factory.
  set (c := Factory.assign _ _ _).
  assert (Hinit : forall mp,
            Simple.__init__ SimplePrompt c Simple.TheDefault (Some mp) = inr p ->
            Simple._configuration p = Simple.TheDefault ∧
            Simple._execution_nature p = execution_nature (Factory.settings c) ∧
            SimplePrompt (prompt_strategy (Factory.settings c))
            = inr (Simple._prompt_strategy p) ∧
            Simple.resolve (Some mp) (models (Factory.settings c))
            = inr (Simple._providers p)).
  { intros mp. unfold Simple.__init__. simpl.
    destruct (Simple.resolve (Some mp) _) as [e|ps] eqn:Hres; [discriminate|].
    destruct (SimplePrompt _) as [e|strategy]; intros H; inversion H; subst; simpl.
    repeat split. }
  destruct model_providers; simpl; [apply Hinit|].
  destruct open_ai; simpl; [discriminate|apply Hinit].
Qed.

(** X8.  What is given to [SimpleTaskPilot.factory] stays in the class:
    the call assigns to the default configuration itself, so that a later
    call which gives nothing leaves the class as the earlier call left it
    and builds its pilot, a pilot that refers to the configuration of the
    class, with the nature given earlier and the strategy that the strategy
    class builds from the configuration given earlier. *)
Theorem simple_factory_changes_the_class open_ai cls given_strategy
    model_providers given_nature given_models given_location model_providers' :
  let first := Simple.factory SimplePrompt open_ai cls given_strategy model_providers
                 given_nature given_models given_location in
  let second := Simple.factory SimplePrompt open_ai first.1 None model_providers' None None None in
  Factory.location first.1 = default (Factory.location cls) given_location ∧
  execution_nature (Factory.settings first.1)
  = default (execution_nature (Factory.settings cls)) given_nature ∧
  prompt_strategy (Factory.settings first.1)
  = default (prompt_strategy (Factory.settings cls)) given_strategy ∧
  models (Factory.settings first.1)
  = default (models (Factory.settings cls)) given_models ∧
  second.1 = first.1 ∧
  forall p, second.2 = inr p ->
    Simple._configuration p = Simple.TheDefault ∧
    Simple._execution_nature p
    = default (execution_nature (Factory.settings cls)) given_nature ∧
    SimplePrompt (default (prompt_strategy (Factory.settings cls)) given_strategy)
    = inr (Simple._prompt_strategy p).
Proof.
  intros first second.
  assert (H1 : Factory.location first.1 = default (Factory.location cls) given_location
             ∧ execution_nature (Factory.settings first.1)
               = default (execution_nature (Factory.settings cls)) given_nature
             ∧ prompt_strategy (Factory.settings first.1)
               = default (prompt_strategy (Factory.settings cls)) given_strategy
             ∧ models (Factory.settings first.1)
               = default (models (Factory.settings cls)) given_models).
  { unfold first. rewrite simple_factory_class.
    destruct given_location, given_nature, given_strategy, given_models; simpl; auto. }
  destruct H1 as (Hl & Hn & Hs & Hm).
  assert (H2 : second.1 = first.1) by (unfold second; now rewrite simple_factory_class).
  repeat split; try assumption.
  all: intros; destruct (simple_factory_pilot _ _ _ _ _ _ _ _ H) as (Hc & He & Hp & _);
    fold second in He, Hp; rewrite H2 in He, Hp; congruence.
Qed.

Lemma simple_chat_with_model_eq cls pilot strategy kwargs w mc provider :
  first_clash ["self"; "prompt_strategy"] kwargs = None ->
  dict_get (model_classification strategy)
    (models (Factory.settings (Simple.deref cls (Simple._configuration pilot))))
  = Some mc ->
  dict_get (model_classification strategy) (Simple._providers pilot) = Some provider ->
  Simple.chat_with_model host cls pilot strategy kwargs w =
    let tk := kwargs ∪ runtime_kwargs host provider (length (log w)) in
    match build_prompt strategy (heap w) tk with
    | inl e => (Raise e, w)
    | inr p =>
        let reply := create_language_completion provider (length (log w)) p
                       {| param_model_name := model_name mc;
                          param_temperature := temperature mc |} in
        (of_reply reply, logged (EvCompletion tk p reply) w)
    end.
Proof.
  intros Hc Hm Hp. unfold Simple.chat_with_model.
  rewrite (bind_ok _ _ _ _ _ (bind_arguments_ok _ _ _ Hc)), Hm, Hp.
  unfold Simple._make_template_kwargs_for_strategy. rewrite Hp.
  unfold mbind, M_bind, bind, gets, now, lift, emit, modify. simpl.
  destruct (build_prompt strategy (heap w) _) as [e|p]; simpl; [reflexivity|].
  destruct (create_language_completion provider _ _ _); reflexivity.
Qed.

Lemma simple_chat_with_model_unconfigured cls pilot strategy kwargs w :
  first_clash ["self"; "prompt_strategy"] kwargs = None ->
  dict_get (model_classification strategy)
    (models (Factory.settings (Simple.deref cls (Simple._configuration pilot))))
  = None ->
  Simple.chat_with_model host cls pilot strategy kwargs w
  = (Raise (KeyError (repr (model_classification strategy))), w).
Proof.
  intros Hc Hm. unfold Simple.chat_with_model.
  now rewrite (bind_ok _ _ _ _ _ (bind_arguments_ok _ _ _ Hc)), Hm.
Qed.

Lemma simple_resolve_lookup given items ps c :
  Simple.resolve (Some given) items = inr ps ->
  match dict_get c items with
  | Some mc0 =>
      exists provider,
        given !! provider_name mc0 = Some provider ∧ dict_get c ps = Some provider
  | None => dict_get c ps = None
  end.
Proof.
  revert ps. induction items as [|[m cfg] items IH]; intros ps Hres; simpl in *.
  { now inversion Hres. }
  destruct (given !! provider_name cfg) as [p|] eqn:Hp; [|discriminate].
  destruct (Simple.resolve (Some given) items) as [e|ps'] eqn:Hrest;
    [discriminate|].
  inversion Hres; subst ps; clear Hres. simpl.
  destruct (decide (m = c)); [eauto|]. exact (IH ps' eq_refl).
Qed.

(** X9.  A pilot built by [SimpleTaskPilot.factory] reads its models from
    the configuration of the class as it is when it chats, not as it was
    when the pilot was built, and its providers are those it resolved when it
    was built.  After a later call of the factory that gives other models,
    the pilot raises [KeyError] for a classification that those models leave
    out, and also for one that they hold but the models it was built with did
    not; for a classification that both hold it asks the provider resolved
    when it was built for the model that the later call names. *)
Theorem simple_pilot_follows_the_class open_ai cls given_strategy model_providers
    given_nature given_models given_location pilot
    model_providers' later_models strategy kwargs w :
  (Simple.factory SimplePrompt open_ai cls given_strategy model_providers given_nature
     given_models given_location).2 = inr pilot ->
  first_clash ["self"; "prompt_strategy"] kwargs = None ->
  let cls1 := (Simple.factory SimplePrompt open_ai cls given_strategy model_providers
                 given_nature given_models given_location).1 in
  let cls2 := (Simple.factory SimplePrompt open_ai cls1 None model_providers' None
                 (Some later_models) None).1 in
  let built_with := default (models (Factory.settings cls)) given_models in
  let given :=
    match model_providers, open_ai with
    | Some given, _ => given
    | None, inr open_ai_provider => {[ Factory.OPENAI := open_ai_provider ]}
    | None, inl _ => ∅
    end in
  let raises :=
    Simple.chat_with_model host cls2 pilot strategy kwargs w
    = (Raise (KeyError (repr (model_classification strategy))), w) in
  match dict_get (model_classification strategy) later_models,
        dict_get (model_classification strategy) built_with with
  | None, _ => raises
  | Some _, None => raises
  | Some mc, Some mc0 =>
      exists provider,
        given !! provider_name mc0 = Some provider ∧
        dict_get (model_classification strategy) (Simple._providers pilot)
        = Some provider ∧
        Simple.chat_with_model host cls2 pilot strategy kwargs w =
          let tk := kwargs ∪ runtime_kwargs host provider (length (log w)) in
          match build_prompt strategy (heap w) tk with
          | inl e => (Raise e, w)
          | inr p =>
              let reply := create_language_completion provider (length (log w)) p
                             {| param_model_name := model_name mc;
                                param_temperature := temperature mc |} in
              (of_reply reply, logged (EvCompletion tk p reply) w)
          end
  end.
Proof.
  intros Hp Hc cls1 cls2 built_with given raises.
  destruct (simple_factory_pilot _ _ _ _ _ _ _ _ Hp) as (Href & _ & _ & Hres).
  simpl in Hres. fold given in Hres.
  assert (Hm : models (Factory.settings
                         (Simple.deref cls2 (Simple._configuration pilot)))
               = later_models).
  { rewrite Href. unfold cls2. now rewrite simple_factory_class. }
  assert (Hb : models (Factory.settings
                         (Simple.factory SimplePrompt open_ai cls given_strategy
                            model_providers given_nature given_models
                            given_location).1) = built_with).
  { rewrite simple_factory_class. unfold built_with.
    destruct given_models, given_strategy, given_nature, given_location;
      reflexivity. }
  rewrite Hb in Hres.
  pose proof (simple_resolve_lookup given built_with _
                (model_classification strategy) Hres) as Hlook.
  destruct (dict_get (model_classification strategy) later_models) as [mc|] eqn:Hget.
  2:{ apply simple_chat_with_model_unconfigured; [exact Hc|now rewrite Hm]. }
  destruct (dict_get (model_classification strategy) built_with) as [mc0|].
  - destruct Hlook as (provider & Hg & Hprov). exists provider.
    split; [exact Hg|]. split; [exact Hprov|].
    apply simple_chat_with_model_eq; [exact Hc|now rewrite Hm|exact Hprov].
  - unfold raises, Simple.chat_with_model.
    rewrite (bind_ok _ _ _ _ _ (bind_arguments_ok _ _ _ Hc)), Hm, Hget, Hlook.
    reflexivity.
Qed.

(** X10.  Built without model providers, a [SimpleTaskPilot] exists only
    if its configuration has no model at all, and then it can ask nothing:
    [__init__] raises [TypeError] as soon as there is a model to resolve;
    with no model it raises what the strategy class raises when the strategy
    cannot be built, and otherwise builds a pilot with that strategy and no
    provider, which raises [KeyError] on every chat, whatever the
    configuration of the class has become. *)
Theorem simple_pilot_needs_model_providers cls configuration :
  let config := Factory.settings (Simple.deref cls configuration) in
  match Simple.__init__ SimplePrompt cls configuration None with
  | inl e =>
      (models config <> [] ∧ e = TypeError "model_providers") ∨
      (models config = [] ∧ SimplePrompt (prompt_strategy config) = inl e)
  | inr pilot =>
      models config = [] ∧
      SimplePrompt (prompt_strategy config) = inr (Simple._prompt_strategy pilot) ∧
      Simple._providers pilot = [] ∧
      forall cls' strategy kwargs w,
        first_clash ["self"; "prompt_strategy"] kwargs = None ->
        Simple.chat_with_model host cls' pilot strategy kwargs w
        = (Raise (KeyError (repr (model_classification strategy))), w)
  end.
Proof.
  cbv zeta. unfold Simple.__init__.
  destruct (models (Factory.settings (Simple.deref cls configuration)))
    as [|[m mc] ms] eqn:Hm.
  - cbn [Simple.resolve]. destruct (SimplePrompt _) as [e|strategy].
    + right. now split.
    + split; [reflexivity|]. split; [reflexivity|]. split; [reflexivity|].
      intros cls' strategy' kwargs w Hc. unfold Simple.chat_with_model.
      rewrite (bind_ok _ _ _ _ _ (bind_arguments_ok _ _ _ Hc)).
      cbn [Simple._providers dict_get].
      now destruct (dict_get _ _).
  - cbn [Simple.resolve]. left. split; [discriminate|reflexivity].
Qed.

Lemma simple_execute_cases cls pilot objective args kwargs w r w' :
  Simple.execute host generate_kwargs cls pilot objective args kwargs w = (r, w') ->
  let task := {| objective := objective; context := length (heap w) |} in
  (w' = w ∧ exists p, r = Raise (TypeError p)) ∨
  (heap w' = heap w ++ [new_Context] ∧ self w' = self w ∧
   ((log w' = log w ∧ exists e, r = Raise e) ∨
    exists rt p reply,
      log w' = log w ++
        [EvCompletion
           ((kwargs ∪ generate_kwargs (heap w ++ [new_Context]) task) ∪ rt) p reply] ∧
      r = of_reply reply ∧
      exists provider,
        dict_get (model_classification (Simple._prompt_strategy pilot))
          (Simple._providers pilot) = Some provider ∧
        rt = runtime_kwargs host provider (length (log w)))).
Proof.
  intros H. simpl. unfold Simple.execute in H.
  apply bind_inv in H as [(e & H & ->)|([] & w1 & H & H')];
    apply bind_arguments_inv in H as [-> [[? Hc]|(p & ? & Hc)]]; try discriminate.
  { left. split; [reflexivity|]. exists p. congruence. }
  unfold mbind, M_bind, bind, Task_factory in H'. simpl in H'.
  set (w1 := set_heap _ w) in H'. set (task := Build_Task _ _) in H'.
  destruct (Simple.exec_task host generate_kwargs cls pilot task kwargs w1)
    as [[resp|e] w2] eqn:Hx; inversion H'; subst; clear H'.
  all: right; unfold Simple.exec_task in Hx.
  all: destruct (first_clash ["self"; "task"] kwargs) eqn:Hc2;
    [unfold bind_arguments in Hx; rewrite Hc2 in Hx; inversion Hx; subst;
       repeat split; left; eauto
    |rewrite (bind_ok _ _ _ _ _ (bind_arguments_ok _ _ _ Hc2)), bind_gets in Hx].
  all: set (kw := kwargs ∪ _) in Hx.
  all: destruct (first_clash ["self"; "prompt_strategy"] kw) eqn:Hc3;
    [unfold Simple.chat_with_model, bind_arguments in Hx; rewrite Hc3 in Hx;
       inversion Hx; subst; repeat split; left; eauto|].
  all: destruct (dict_get (model_classification (Simple._prompt_strategy pilot))
                   (models (Factory.settings
                              (Simple.deref cls (Simple._configuration pilot)))))
         as [mc|] eqn:Hm;
    [|rewrite (simple_chat_with_model_unconfigured _ _ _ _ _ Hc3 Hm) in Hx;
      inversion Hx; subst; repeat split; left; eauto].
  all: destruct (dict_get (model_classification (Simple._prompt_strategy pilot))
                   (Simple._providers pilot)) as [provider|] eqn:Hp;
    [rewrite (simple_chat_with_model_eq _ _ _ _ _ _ _ Hc3 Hm Hp) in Hx; simpl in Hx
    |unfold Simple.chat_with_model in Hx;
     rewrite (bind_ok _ _ _ _ _ (bind_arguments_ok _ _ _ Hc3)), Hm, Hp in Hx;
     inversion Hx; subst; repeat split; left; eauto].
  all: destruct (build_prompt _ _ _) as [e'|p];
    inversion Hx; subst; clear Hx; repeat split; try (left; now eauto).
  all: right; eexists _, p, _; repeat split; eauto.
Qed.

(** X11.  [SimpleTaskPilot.execute] asks the model at most once and gives
    back what the model answers.  The prompt of that one call is built from
    three layers of arguments: the keyword arguments of the caller, under
    them those that the task generates, and under both the runtime context;
    a key has the value of the topmost layer that holds it.  When no call
    is made the run has raised. *)
Theorem simple_execute_asks_once cls pilot objective args kwargs w r w' :
  Simple.execute host generate_kwargs cls pilot objective args kwargs w = (r, w') ->
  let generated :=
    generate_kwargs (heap w ++ [new_Context])
      {| objective := objective; context := length (heap w) |} in
  (log w' = log w ∧ exists e, r = Raise e) ∨
  (exists tk p reply provider,
     log w' = log w ++ [EvCompletion tk p reply] ∧
     r = of_reply reply ∧
     dict_get (model_classification (Simple._prompt_strategy pilot))
       (Simple._providers pilot) = Some provider ∧
     forall k,
       tk !! k =
         match kwargs !! k with
         | Some v => Some v
         | None =>
             match generated !! k with
             | Some v => Some v
             | None => runtime_kwargs host provider (length (log w)) !! k
             end
         end).
Proof.
  intros H. simpl.
  apply simple_execute_cases in H
    as [(-> & p & ->)|(_ & _ & [(Hlog & e & ->)|(rt & p & reply & Hlog & -> &
                                                  provider & Hp & ->)])].
  - left. eauto.
  - left. eauto.
  - right. eexists _, p, reply, provider. repeat split; [exact Hlog|exact Hp|].
    intros k. rewrite !lookup_union.
    destruct (kwargs !! k), (generate_kwargs _ _ !! k),
      (runtime_kwargs host provider _ !! k); reflexivity.
Qed.

End MoreFactories.

(** ** The example ability and the example strategy *)

Section MoreExamples.

Context (host : Host).

(** The links taken from a search result. *)
Lemma links_cases rsp :
  match Extractor.links rsp with
  | inr urls =>
      Forall (fun u => exists d, Some d ∈ rsp ∧ d !! "link" = Some u) urls
  | inl e =>
      e = KeyError "link" ∧
      exists d, Some d ∈ rsp ∧ d <> ∅ ∧ d !! "link" = None
  end.
Proof.
  induction rsp as [|link rsp IH]; simpl.
  - constructor.
  - destruct (Extractor.truthy link) eqn:Ht.
    + destruct link as [d|]; [|discriminate]. simpl.
      destruct (d !! "link") as [url|] eqn:Hd.
      * destruct (Extractor.links rsp) as [e|urls].
        -- destruct IH as (-> & d' & Hin & Hne & Hl). split; [reflexivity|].
           exists d'. split; [now right|now split].
        -- constructor.
           ++ exists d. split; [now left|exact Hd].
           ++ eapply Forall_impl; [exact IH|].
              intros u (d' & Hin & Hl). exists d'. split; [now right|exact Hl].
      * split; [reflexivity|]. exists d. split; [now left|]. split; [|exact Hd].
        simpl in Ht. apply negb_true_iff, bool_decide_eq_false in Ht. exact Ht.
    + destruct (Extractor.links rsp) as [e|urls].
      * destruct IH as (-> & d' & Hin & Hne & Hl). split; [reflexivity|].
        exists d'. split; [now right|now split].
      * eapply Forall_impl; [exact IH|].
        intros u (d' & Hin & Hl). exists d'. split; [now right|exact Hl].
Qed.

Lemma unset_false key :
  Extractor.unset key = false <->
  exists s, key = Some s ∧ s <> "" ∧ s <> "YOUR_API_KEY".
Proof.
  destruct key as [s|]; simpl.
  - rewrite orb_false_iff, !bool_decide_eq_false. split.
    + intros [H1 H2]. now exists s.
    + intros (s' & Hs & H1 & H2). now inversion Hs; subst.
  - split; [discriminate|]. intros (s & Hs & _). discriminate.
Qed.

(** X12.  The question extractor searches when at least one of the two
    search keys of the environment is set, that is, is neither missing nor
    empty nor the placeholder [YOUR_API_KEY]: it then makes one search, for
    the query as given, limited to six results from the one site, before
    any page is fetched.  With neither key set it asks nothing and answers
    [None]. *)
Theorem extractor_needs_a_search_key env search query kwargs :
  let r := Extractor.__call__ env search query kwargs in
  let given key := exists s, key = Some s ∧ s <> "" ∧ s <> "YOUR_API_KEY" in
  (given (Extractor.google_api_key env) ∨ given (Extractor.serp_api_key env) ->
   exists pages,
     r.1 = Extractor.Search query 6 "in" "https://www.chegg.com"
             :: (Extractor.Browse <$> pages)) ∧
  (¬ (given (Extractor.google_api_key env) ∨
      given (Extractor.serp_api_key env)) ->
   r = ([], inr Extractor.ANone)).
Proof.
  simpl. unfold Extractor.__call__.
  destruct (Extractor.unset (Extractor.serp_api_key env)) eqn:Hs;
    destruct (Extractor.unset (Extractor.google_api_key env)) eqn:Hg; simpl.
  1:{ split; [|reflexivity].
      intros [H|H]; apply unset_false in H; congruence. }
  all: split; [intros _|intros H; exfalso; apply H;
                        first [left; now apply unset_false
                              |right; now apply unset_false]].
  all: destruct (search query) as [e|[|link rsp]]; [now exists []|now exists []|].
  all: destruct (Extractor.links (link :: rsp)) as [e|urls];
    [now exists []|now exists urls].
Qed.

(** X13.  What the question extractor answers holds nothing of what was
    found: the answer is [None], the content item [Empty Response] or the
    empty dictionary.  Every page it fetches is the [link] of one of the
    results of its search; it raises only the error of the search itself
    or, for a non-empty result without a [link], [KeyError], and then no
    page has been fetched. *)
Theorem extractor_answer_holds_no_result env search query kwargs calls out :
  Extractor.__call__ env search query kwargs = (calls, out) ->
  (forall a, out = inr a ->
     a = Extractor.ANone ∨ a = Extractor.AContent "Empty Response" ∨
     a = Extractor.ADict ∅) ∧
  (forall url, Extractor.Browse url ∈ calls ->
     exists rsp d, search query = inr rsp ∧ Some d ∈ rsp ∧ d !! "link" = Some url) ∧
  (forall e, out = inl e ->
     calls = [Extractor.Search query 6 "in" "https://www.chegg.com"] ∧
     (search query = inl e ∨
      e = KeyError "link" ∧
      exists rsp d, search query = inr rsp ∧ Some d ∈ rsp ∧ d <> ∅ ∧
                    d !! "link" = None)).
Proof.
  unfold Extractor.__call__.
  destruct (_ && _).
  { intros H; inversion H; subst. split; [|split].
    - intros a Ha. inversion Ha. now left.
    - intros url Hin. inversion Hin.
    - discriminate. }
  destruct (search query) as [e|rsp] eqn:Hq.
  { intros H; inversion H; subst. split; [|split].
    - discriminate.
    - intros url Hin. apply list_elem_of_singleton in Hin. discriminate.
    - intros e' He'. inversion He'; subst. split; [reflexivity|now left]. }
  destruct rsp as [|link rsp].
  { intros H; inversion H; subst. split; [|split].
    - intros a Ha. inversion Ha. right. now left.
    - intros url Hin. apply list_elem_of_singleton in Hin. discriminate.
    - discriminate. }
  pose proof (links_cases (link :: rsp)) as Hl.
  destruct (Extractor.links (link :: rsp)) as [e|urls].
  - destruct Hl as (-> & d & Hin & Hne & Hd).
    intros H; inversion H; subst. split; [|split].
    + discriminate.
    + intros url Hu. apply list_elem_of_singleton in Hu. discriminate.
    + intros e' He'. inversion He'; subst. split; [reflexivity|]. right.
      split; [reflexivity|]. now exists (link :: rsp), d.
  - intros H; inversion H; subst. split; [|split].
    + intros a Ha. inversion Ha. right. now right.
    + intros url Hu. apply elem_of_cons in Hu as [Hu|Hu]; [discriminate|].
      apply list_elem_of_fmap in Hu as (u & Hu & Hin). inversion Hu; subst u.
      rewrite Forall_forall in Hl. destruct (Hl _ Hin) as (d & Hd & Hk).
      now exists (link :: rsp), d.
    + discriminate.
Qed.

Lemma latex_defaults_lookup v k :
  Latex.defaults v !! k =
    if decide (k = "task_objective") then Some v
    else if decide (k = "cycle_count") then Some (VNum 0)
    else if decide (k ∈ ["action_history"; "additional_info"; "user_input";
                         "acceptance_criteria"])
         then Some (VStr "")
         else None.
Proof.
  unfold Latex.defaults.
  destruct (decide (k = "task_objective")) as [->|H1]; [reflexivity|].
  rewrite lookup_insert_ne by congruence.
  destruct (decide (k = "cycle_count")) as [->|H2]; [reflexivity|].
  rewrite lookup_insert_ne by congruence.
  destruct (decide (k = "action_history")) as [->|H3]; [reflexivity|].
  rewrite lookup_insert_ne by congruence.
  destruct (decide (k = "additional_info")) as [->|H4]; [reflexivity|].
  rewrite lookup_insert_ne by congruence.
  destruct (decide (k = "user_input")) as [->|H5]; [reflexivity|].
  rewrite lookup_insert_ne by congruence.
  destruct (decide (k = "acceptance_criteria")) as [->|H6]; [reflexivity|].
  rewrite lookup_singleton_ne by congruence.
  rewrite decide_False; [reflexivity|].
  rewrite !elem_of_cons, elem_of_nil. tauto.
Qed.

(** X14.  [LatexCodeGenPrompt.build_prompt] cannot be called without a
    [task_objective].  Called with one, it formats both of its templates
    with the arguments of the call, each with the value given, to which it
    adds, where the call does not give them, [cycle_count] as 0 and the
    four other placeholders as empty strings; the prompt has the system
    message first and the user message second, and offers the parser schema
    when the strategy has one. *)
Theorem latex_build_prompt_arguments format s arguments :
  arguments !! "self" = None ->
  match arguments !! "task_objective" with
  | None =>
      Latex.build_prompt format s arguments = inl (TypeError "task_objective")
  | Some _ =>
      exists template_kwargs,
        (forall k,
           template_kwargs !! k =
             match arguments !! k with
             | Some v => Some v
             | None =>
                 if decide (k = "cycle_count") then Some (VNum 0)
                 else if decide (k ∈ ["action_history"; "additional_info";
                                      "user_input"; "acceptance_criteria"])
                      then Some (VStr "")
                      else None
             end) ∧
        Latex.build_prompt format s arguments =
          match format (Latex._system_prompt_message s) template_kwargs with
          | inl e => inl e
          | inr system_message =>
              match format (Latex._user_prompt_template s) template_kwargs with
              | inl e => inl e
              | inr user_message =>
                  inr {| messages := [system_message; user_message];
                         functions := option_list (Latex._parser_schema s) |}
              end
          end
  end.
Proof.
  intros Hself. unfold Latex.build_prompt. rewrite Hself.
  destruct (arguments !! "task_objective") as [v|] eqn:Hv; [|reflexivity].
  exists (Latex.get_template_kwargs v (delete "task_objective" arguments)).
  split.
  - intros k. unfold Latex.get_template_kwargs.
    rewrite lookup_union, latex_defaults_lookup.
    destruct (decide (k = "task_objective")) as [->|Hk].
    + rewrite lookup_delete_eq, Hv. reflexivity.
    + rewrite lookup_delete_ne by congruence.
      destruct (arguments !! k);
        (destruct (decide (k = "cycle_count")); [reflexivity|]);
        destruct (decide (k ∈ _)); reflexivity.
  - destruct (format _ _) as [e|sm]; [reflexivity|].
    destruct (format _ _) as [e|um]; [reflexivity|].
    destruct (Latex._parser_schema s); reflexivity.
Qed.

Lemma runtime_kwargs_lookup provider t k :
  k <> "os_info" -> k <> "api_budget" -> k <> "current_time" ->
  runtime_kwargs host provider t !! k = None.
Proof.
  intros H1 H2 H3. unfold runtime_kwargs.
  rewrite !lookup_insert_ne by congruence.
  now rewrite lookup_singleton_ne by congruence.
Qed.

Lemma chat_with_model_latex format s kwargs w :
  kwargs !! "task_objective" = None ->
  exists e,
    chat_with_model host (Latex.as_strategy format s) kwargs w = (Raise e, w) ∧
    (first_clash ["self"; "prompt_strategy"] kwargs = None ->
     is_Some (dict_get (Latex._model_classification s)
                (models (_configuration (self w)))) ->
     is_Some (dict_get (Latex._model_classification s) (_providers (self w))) ->
     e = TypeError "task_objective").
Proof.
  intros Hto.
  destruct (first_clash ["self"; "prompt_strategy"] kwargs) as [c|] eqn:Hc.
  { exists (TypeError c). split; [|discriminate].
    unfold chat_with_model, bind_arguments. now rewrite Hc. }
  destruct (dict_get (Latex._model_classification s)
              (models (_configuration (self w)))) as [mc|] eqn:Hm.
  2:{ eexists. split; [|intros _ [? ?]; discriminate].
      unfold chat_with_model.
      rewrite (bind_ok _ _ _ _ _ (bind_arguments_ok _ _ _ Hc)), bind_gets.
      simpl. rewrite Hm. reflexivity. }
  destruct (dict_get (Latex._model_classification s) (_providers (self w)))
    as [provider|] eqn:Hp.
  2:{ eexists. split; [|intros _ _ [? ?]; discriminate].
      unfold chat_with_model.
      rewrite (bind_ok _ _ _ _ _ (bind_arguments_ok _ _ _ Hc)), bind_gets.
      simpl. rewrite Hm, bind_gets, Hp. reflexivity. }
  exists (TypeError "task_objective"). split; [|reflexivity].
  rewrite (chat_with_model_eq host (Latex.as_strategy format s) kwargs w
             mc provider Hc Hm Hp). simpl.
  assert (Hself : kwargs !! "self" = None).
  { simpl in Hc. destruct (kwargs !! "self"); [discriminate|reflexivity]. }
  unfold Latex.build_prompt.
  rewrite !lookup_union, Hself, Hto, !runtime_kwargs_lookup by done.
  reflexivity.
Qed.

(** X15.  The engine gives a prompt strategy the task and the ability
    schema but no [task_objective]: with a [LatexCodeGenPrompt] for its
    strategy and no [task_objective] among the keyword arguments,
    [perform_ability] raises without asking the model and without changing
    anything, and, when the arguments clash with no parameter and the model
    of the strategy is configured and provided, what it raises is the
    [TypeError] of the missing [task_objective]. *)
Theorem latex_strategy_needs_task_objective format s task schema kwargs w :
  _prompt_strategy (self w) = Latex.as_strategy format s ->
  kwargs !! "task_objective" = None ->
  let r := perform_ability host task schema kwargs w in
  r.2 = w ∧
  exists e,
    r.1 = Raise e ∧
    (first_clash ["self"; "task"; "ability_schema"; "prompt_strategy"] kwargs
       = None ->
     is_Some (dict_get (Latex._model_classification s)
                (models (_configuration (self w)))) ->
     is_Some (dict_get (Latex._model_classification s) (_providers (self w))) ->
     e = TypeError "task_objective").
Proof.
  intros Hs Hto. simpl.
  destruct (first_clash ["self"; "task"; "ability_schema"] kwargs) as [c|] eqn:Hc.
  { unfold perform_ability, bind_arguments. rewrite Hc. simpl.
    split; [reflexivity|]. exists (TypeError c). split; [reflexivity|].
    intros Hc4. exfalso. simpl in Hc, Hc4.
    destruct (kwargs !! "self"); [discriminate|].
    destruct (kwargs !! "task"); [discriminate|].
    destruct (kwargs !! "ability_schema"); discriminate. }
  set (kw := <["task" := task]> (<["ability_schema" := VSchema schema]> kwargs)).
  assert (Hkw : kw !! "task_objective" = None).
  { unfold kw. now rewrite !lookup_insert_ne by done. }
  destruct (chat_with_model_latex format s kw w Hkw) as (e & He & Hmiss).
  assert (Hd : determine_exec_ability host task schema kwargs w = (Raise e, w)).
  { unfold determine_exec_ability.
    rewrite (bind_ok _ _ _ _ _ (bind_arguments_ok _ _ _ Hc)), bind_gets, Hs.
    exact He. }
  rewrite (perform_ability_after_reply host _ _ _ _ _ _ Hc Hd). simpl.
  split; [reflexivity|]. exists e. split; [reflexivity|].
  intros Hc4 Hm Hp. apply Hmiss; [|exact Hm|exact Hp].
  unfold kw. simpl. rewrite !lookup_insert_ne by done.
  simpl in Hc, Hc4.
  destruct (kwargs !! "self"); [discriminate|].
  destruct (kwargs !! "task"); [discriminate|].
  destruct (kwargs !! "ability_schema"); [discriminate|].
  destruct (kwargs !! "prompt_strategy"); [discriminate|reflexivity].
Qed.

End MoreExamples.

(** ** The properties above at work *)

Import Cases.

(** X1, at work: two cycles on the France objective. *)
Lemma execute_completes_the_task_once_per_action_witness :
  in_store france auto ∧
  exists evs,
    log (execute host 2 france [] ∅ auto).2 = log auto ++ evs ∧
    _task_queue (self (execute host 2 france [] ∅ auto).2) = [] ∧
    _completed_tasks (self (execute host 2 france [] ∅ auto).2)
    = replicate (length (performed evs)) the_task.
Proof.
  assert (Hin : in_store france auto) by exact I.
  split; [exact Hin|].
  destruct (execute_completes_the_task_once_per_action host 2 france [] ∅ auto Hin)
    as (evs & Hlog & Hq & Hc).
  exists evs. split; [exact Hlog|]. split; [exact Hq|].
  exact (Hc the_task eq_refl).
Defined.

(** X2, at work: the language asked for reaches every prompt. *)
Lemma execute_prompts_carry_arguments_witness :
  in_store france auto ∧
  exists evs,
    log (execute host 2 france [] {[ "language" := VStr "fr" ]} auto).2
    = log auto ++ evs ∧
    Forall (carries {[ "language" := VStr "fr" ]} (VTask the_task)) evs.
Proof.
  assert (Hin : in_store france auto) by exact I.
  split; [exact Hin|].
  destruct (execute_prompts_carry_arguments host 2 france []
              {[ "language" := VStr "fr" ]} auto Hin) as (evs & Hlog & Hall).
  exists evs. split; [exact Hlog|]. exact (Hall the_task eq_refl).
Defined.

(** X3, at work: a task passed a second time, by name. *)
Lemma execute_rejects_parameter_names_witness :
  ({[ "task" := VTask the_task ]} : Kwargs) !! "self" = None ∧
  ({[ "task" := VTask the_task ]} : Kwargs) !! "objective" = None ∧
  (execute host 1 (ObjTask the_task) [] {[ "task" := VTask the_task ]}
     (entered auto)).1 = Raised (TypeError "task").
Proof.
  assert (H1 : ({[ "task" := VTask the_task ]} : Kwargs) !! "self" = None)
    by reflexivity.
  assert (H2 : ({[ "task" := VTask the_task ]} : Kwargs) !! "objective" = None)
    by reflexivity.
  split; [exact H1|]. split; [exact H2|].
  destruct (execute_rejects_parameter_names host 0 the_task []
              {[ "task" := VTask the_task ]} (entered auto) H1 H2) as (H & _).
  apply H. exists (VTask the_task). reflexivity.
Defined.

(** X4, at work: two abilities, the model names a third. *)
Lemma sequential_cycle_stops_at_first_failure_witness :
  exists e w' evs,
    exec_abilities host (VTask the_task) ∅ (entered astray) = (Raise e, w') ∧
    log w' = log (entered astray) ++ evs ∧
    (length (performed evs) < 2)%nat.
Proof.
  destruct (exec_abilities host (VTask the_task) ∅ (entered astray))
    as [[acts|e] w'] eqn:Hx; [vm_compute in Hx; discriminate|].
  assert (Ht : _current_task (self (entered astray)) = Some the_task)
    by reflexivity.
  assert (Hl : (context the_task < length (heap (entered astray)))%nat)
    by (vm_compute; lia).
  assert (Hn : _execution_nature (self (entered astray)) = SEQUENTIAL ∨
               _execution_nature (self (entered astray)) = SIMPLE)
    by (left; reflexivity).
  assert (Hc : first_clash ["self"; "task"] (∅ : Kwargs) = None) by reflexivity.
  destruct (sequential_cycle_stops_at_first_failure host (VTask the_task) ∅
              (entered astray) the_task e w' Ht Hl Hn Hc Hx)
    as (evs & Hlog & _ & _ & Hlt).
  exists e, w', evs. split; [reflexivity|]. split; [exact Hlog|exact Hlt].
Defined.

(** X6, at work: the pilot of the examples after two cycles. *)
Lemma constructed_pilot_finds_its_provider_witness :
  __init__ host [web_search] {[ "openai" := constant (says "web_search") ]}
    (configuration AUTO) [] = inr auto ∧
  first_clash ["self"; "prompt_strategy"] (∅ : Kwargs) = None ∧
  exists provider,
    ({[ "openai" := constant (says "web_search") ]}
       : gmap string LanguageModelProvider) !! "openai" = Some provider ∧
    exists r, chat_with_model host NextAbility ∅
                (execute host 2 france [] ∅ auto).2
              = (Raise (TypeError "ability_schema"), r).
Proof.
  assert (Hi : __init__ host [web_search] {[ "openai" := constant (says "web_search") ]}
                 (configuration AUTO) [] = inr auto) by reflexivity.
  assert (Hc : first_clash ["self"; "prompt_strategy"] (∅ : Kwargs) = None)
    by reflexivity.
  split; [exact Hi|]. split; [exact Hc|].
  destruct (constructed_pilot_finds_its_provider host _ _ _ _ _ 2%nat france []
              ∅ NextAbility ∅ Hi Hc) as (provider & Hp & Heq).
  exists provider. split; [exact Hp|].
  eexists. rewrite Heq. reflexivity.
Defined.

(** X9, at work: a pilot built from the class as loaded, then a call of
    the factory that leaves only the smart model. *)
Lemma simple_pilot_follows_the_class_witness :
  exists pilot,
    (Simple.factory SimplePrompt open_ai simple_class None None None None None).2 = inr pilot ∧
    first_clash ["self"; "prompt_strategy"] (∅ : Kwargs) = None ∧
    Simple.chat_with_model host
      (Simple.factory SimplePrompt open_ai
         (Simple.factory SimplePrompt open_ai simple_class None None None None None).1
         None None None (Some smart_only) None).1
      pilot NextAbility ∅ auto
    = (Raise (KeyError (repr FAST_MODEL)), auto).
Proof.
  destruct (Simple.factory SimplePrompt open_ai simple_class None None None None None).2
    as [e|pilot] eqn:Hf; [vm_compute in Hf; discriminate|].
  assert (Hc : first_clash ["self"; "prompt_strategy"] (∅ : Kwargs) = None)
    by reflexivity.
  exists pilot. split; [reflexivity|]. split; [exact Hc|].
  exact (simple_pilot_follows_the_class host SimplePrompt open_ai simple_class
           None None None None None pilot None smart_only NextAbility ∅ auto
           Hf Hc).
Defined.

(** X11, at work: one question about France. *)
Lemma simple_execute_asks_once_witness :
  exists pilot r w',
    (Simple.factory SimplePrompt open_ai simple_class None None None None None).2 = inr pilot ∧
    Simple.execute host generate_kwargs simple_class pilot
      "find the capital of France" []
      {[ "ability_schema" := VSchema [dump web_search] ]} auto = (r, w') ∧
    ((log w' = log auto ∧ exists e, r = Raise e) ∨
     exists tk p reply,
       log w' = log auto ++ [EvCompletion tk p reply] ∧ r = of_reply reply ∧
       tk !! "task_objective" = Some (VStr "find the capital of France")).
Proof.
  destruct (Simple.factory SimplePrompt open_ai simple_class None None None None None).2
    as [e|pilot] eqn:Hf; [vm_compute in Hf; discriminate|].
  destruct (Simple.execute host generate_kwargs simple_class pilot
              "find the capital of France" []
              {[ "ability_schema" := VSchema [dump web_search] ]} auto)
    as [r w'] eqn:Hx.
  exists pilot, r, w'. split; [reflexivity|]. split; [exact Hx|].
  destruct (simple_execute_asks_once host generate_kwargs simple_class pilot _ _ _
              _ _ _ Hx) as [H|(tk & p & reply & provider & Hlog & Hr & _ & Htk)].
  - left. exact H.
  - right. exists tk, p, reply. split; [exact Hlog|]. split; [exact Hr|].
    rewrite Htk. reflexivity.
Defined.

(** X13, at work: one page found, fetched, and nothing of it answered. *)
Lemma extractor_answer_holds_no_result_witness :
  Extractor.__call__ one_key found "What is the capital of France?" ∅
  = ([Extractor.Search "What is the capital of France?" 6 "in"
        "https://www.chegg.com";
      Extractor.Browse "https://www.chegg.com/homework-help/1"],
     inr (Extractor.ADict ∅)) ∧
  exists rsp d,
    found "What is the capital of France?" = inr rsp ∧ Some d ∈ rsp ∧
    d !! "link" = Some "https://www.chegg.com/homework-help/1".
Proof.
  assert (Hx : Extractor.__call__ one_key found "What is the capital of France?" ∅
               = ([Extractor.Search "What is the capital of France?" 6 "in"
                     "https://www.chegg.com";
                   Extractor.Browse "https://www.chegg.com/homework-help/1"],
                  inr (Extractor.ADict ∅))) by reflexivity.
  split; [exact Hx|].
  destruct (extractor_answer_holds_no_result one_key found _ ∅ _ _ Hx)
    as (_ & Hb & _).
  apply Hb. right. left.
Defined.

(** X14, at work: a content to correct and nothing else. *)
Lemma latex_build_prompt_arguments_witness :
  ({[ "task_objective" := VStr "2 + 2 = ?" ]} : Kwargs) !! "self" = None ∧
  exists template_kwargs : Kwargs,
    template_kwargs !! "task_objective" = Some (VStr "2 + 2 = ?") ∧
    template_kwargs !! "cycle_count" = Some (VNum 0) ∧
    template_kwargs !! "user_input" = Some (VStr "") ∧
    template_kwargs !! "os_info" = None ∧
    Latex.build_prompt format latex {[ "task_objective" := VStr "2 + 2 = ?" ]}
    = match format (Latex._system_prompt_message latex) template_kwargs with
      | inl e => inl e
      | inr system_message =>
          match format (Latex._user_prompt_template latex) template_kwargs with
          | inl e => inl e
          | inr user_message =>
              inr {| messages := [system_message; user_message];
                     functions := [] |}
          end
      end.
Proof.
  assert (Hs : ({[ "task_objective" := VStr "2 + 2 = ?" ]} : Kwargs) !! "self"
               = None) by reflexivity.
  split; [exact Hs|].
  pose proof (latex_build_prompt_arguments format latex
                {[ "task_objective" := VStr "2 + 2 = ?" ]} Hs) as H.
  change (({[ "task_objective" := VStr "2 + 2 = ?" ]} : Kwargs)
            !! "task_objective") with (Some (VStr "2 + 2 = ?")) in H.
  destruct H as (tk & Htk & Heq).
  exists tk. rewrite !Htk. repeat split. exact Heq.
Defined.

(** X15, at work: the pilot of the examples with the LaTeX strategy. *)
Lemma latex_strategy_needs_task_objective_witness :
  _prompt_strategy (self typesetter) = Latex.as_strategy format latex ∧
  (∅ : Kwargs) !! "task_objective" = None ∧
  perform_ability host (VTask the_task) (dump_abilities [web_search]) ∅ typesetter
  = (Raise (TypeError "task_objective"), typesetter).
Proof.
  assert (Hs : _prompt_strategy (self typesetter) = Latex.as_strategy format latex)
    by reflexivity.
  assert (Hk : (∅ : Kwargs) !! "task_objective" = None) by reflexivity.
  split; [exact Hs|]. split; [exact Hk|].
  destruct (latex_strategy_needs_task_objective host format latex
              (VTask the_task) (dump_abilities [web_search]) ∅ typesetter Hs Hk)
    as (Hw & e & He & Hmiss).
  destruct (perform_ability host (VTask the_task) (dump_abilities [web_search]) ∅
              typesetter) as [r w'].
  simpl in Hw, He. subst w' r. f_equal. f_equal.
  apply Hmiss; [reflexivity|eexists; reflexivity|eexists; reflexivity].
Defined.

(** X5, at work: the pilot of the examples has the one provider for its
    fast model. *)
Lemma init_resolves_the_configured_providers_witness :
  __init__ host [web_search] {[ "openai" := constant (says "web_search") ]}
    (configuration AUTO) [] = inr auto ∧
  dict_get FAST_MODEL (_providers (self auto))
  = Some (constant (says "web_search")) ∧
  dict_get SMART_MODEL (_providers (self auto))
  = Some (constant (says "web_search")).
Proof.
  assert (Hi : __init__ host [web_search] {[ "openai" := constant (says "web_search") ]}
                 (configuration AUTO) [] = inr auto) by reflexivity.
  split; [exact Hi|].
  pose proof (init_resolves_the_configured_providers host [web_search]
                {[ "openai" := constant (says "web_search") ]}
                (configuration AUTO) []) as H.
  cbv zeta in H. rewrite Hi in H.
  destruct H as (_ & _ & _ & _ & _ & _ & _ & _ & _ & H).
  split.
  - destruct (H FAST_MODEL) as (provider & Hp & ->).
    rewrite <- Hp. reflexivity.
  - destruct (H SMART_MODEL) as (provider & Hp & ->).
    rewrite <- Hp. reflexivity.
Defined.

(** X7, at work: providers among which OpenAI is missing. *)
Lemma factory_builds_from_the_defaults_witness :
  (∅ : gmap string LanguageModelProvider) !! Factory.OPENAI = None ∧
  Factory.factory host (prompt_strategy (configuration AUTO)) open_ai
    [web_search] None (Some ∅) None None None None [] = inl (KeyError "openai") ∧
  exists w,
    Factory.factory host (prompt_strategy (configuration AUTO)) open_ai
      [web_search] None None None None None None [] = inr w ∧
    _prompt_strategy (self w) = NextAbility ∧
    _execution_nature (self w) = AUTO.
Proof.
  assert (He : (∅ : gmap string LanguageModelProvider) !! Factory.OPENAI = None)
    by reflexivity.
  split; [exact He|].
  destruct (factory_builds_from_the_defaults host
              (prompt_strategy (configuration AUTO)) [web_search] None None
              None None []) as (Hok & _ & Hmiss).
  split; [exact (Hmiss open_ai ∅ He)|].
  specialize (Hok (constant (says "web_search"))).
  change (inr (constant (says "web_search"))) with open_ai in Hok.
  destruct (Factory.factory host (prompt_strategy (configuration AUTO)) open_ai
              [web_search] None None None None None None []) as [e|w].
  - discriminate Hok.
  - destruct Hok as (Hs & _ & Hn & _). exists w. split; [reflexivity|].
    split; [|exact Hn]. simpl in Hs. congruence.
Defined.

(** X8, at work: the nature given to one call is the nature of the pilot
    that the next call builds. *)
Lemma simple_factory_changes_the_class_witness :
  exists p,
    (Simple.factory SimplePrompt open_ai
       (Simple.factory SimplePrompt open_ai simple_class None None (Some AUTO) None None).1
       None None None None None).2 = inr p ∧
    execution_nature (Factory.settings simple_class) = SIMPLE ∧
    Simple._execution_nature p = AUTO.
Proof.
  destruct (Simple.factory SimplePrompt open_ai
              (Simple.factory SimplePrompt open_ai simple_class None None (Some AUTO) None
                 None).1 None None None None None).2 as [e|p] eqn:Hf;
    [vm_compute in Hf; discriminate|].
  exists p. split; [reflexivity|]. split; [reflexivity|].
  destruct (simple_factory_changes_the_class SimplePrompt open_ai simple_class
              None None (Some AUTO) None None None) as (_ & _ & _ & _ & _ & H).
  exact (proj1 (proj2 (H p Hf))).
Defined.

(** X10, at work: the class as loaded has models to resolve. *)
Lemma simple_pilot_needs_model_providers_witness :
  Simple.__init__ SimplePrompt simple_class Simple.TheDefault None
  = inl (TypeError "model_providers").
Proof.
  pose proof (simple_pilot_needs_model_providers host SimplePrompt simple_class
                Simple.TheDefault) as H.
  cbv zeta in H.
  destruct (Simple.__init__ SimplePrompt simple_class Simple.TheDefault None)
    as [e|p].
  - destruct H as [[_ ->]|[H _]]; [reflexivity|discriminate H].
  - destruct H as [H _]. discriminate H.
Defined.

(** X12, at work: one key is enough. *)
Lemma extractor_needs_a_search_key_witness :
  exists pages,
    (Extractor.__call__ one_key found "What is the capital of France?" ∅).1
    = Extractor.Search "What is the capital of France?" 6 "in"
        "https://www.chegg.com" :: (Extractor.Browse <$> pages).
Proof.
  destruct (extractor_needs_a_search_key one_key found
              "What is the capital of France?" ∅) as [H _].
  apply H. right. exists "0123456789abcdef".
  split; [reflexivity|]. split; discriminate.
Defined.
